(** * AriaComponents: keyboard interaction and focus management of the menu widgets

    A shallow embedding of the event handlers and initialisers of
    [src/MenuItem/index.js], [src/MenuBar/index.js] and
    [src/MenuButton/index.js], together with models of the classes those
    files import ([Popup], [Menu], [AriaComponent], [Dialog] and the [lib/]
    helpers).

    The DOM is a tree of elements; every element carries the identity of the
    DOM object it stands for.  Everything the handlers mutate (attributes,
    [document.activeElement], registered listeners, the component instances
    saved on elements, the flags of the event being dispatched) lives in one
    record, [World], which is threaded through a state-and-exception monad. *)

From Stdlib Require Import ZArith String List Bool Lia.
From stdpp Require Import base option list gmap strings.

Set Default Proof Using "Type".

(** ** Completions and the state-and-exception monad *)

Module JS.

(** A JavaScript statement either completes normally or throws; what it
    had written to the heap before throwing stays written. *)
Inductive Completion (A : Type) : Type :=
| Normal (a : A)
| Throw (error : string).
Arguments Normal {A} a.
Arguments Throw {A} error.

Definition M (S A : Type) : Type := S -> Completion A * S.

Definition ret {S A} (a : A) : M S A := fun s => (Normal a, s).

Definition bind {S A B} (c : M S A) (k : A -> M S B) : M S B :=
  fun s =>
    match c s with
    | (Normal a, s') => k a s'
    | (Throw e, s') => (Throw e, s')
    end.

Definition throw {S A} (e : string) : M S A := fun s => (Throw e, s).
Definition gets {S A} (f : S -> A) : M S A := fun s => (Normal (f s), s).
Definition modify {S} (f : S -> S) : M S unit := fun s => (Normal tt, f s).

(** [if (c) { body }] without an else branch. *)
Definition when {S} (c : bool) (body : M S unit) : M S unit :=
  if c then body else ret tt.

(** [TypeError] raised by a property access on [undefined] or [null]. *)
Definition TypeError : string := "TypeError".

Definition isNormal {A} (c : Completion A) : bool :=
  match c with Normal _ => true | Throw _ => false end.

End JS.

Import JS.

Declare Scope js_scope.
Delimit Scope js_scope with js.
Notation "x <- c ;; k" := (bind c (fun x => k))
  (at level 100, c at next level, right associativity) : js_scope.
Notation "c ;; k" := (bind c (fun _ => k))
  (at level 100, right associativity) : js_scope.
Open Scope js_scope.

(** ** The DOM tree *)

Module Dom.

(** Identity of a DOM object. *)
Definition Node := nat.

#[warnings="-register-all"] Inductive Element : Type :=
  Elem { ident : Node; nodeName : string; children : list Element }.

(** [a === b] on element references. *)
Definition same (a b : Element) : bool := Nat.eqb (ident a) (ident b).

Definition firstElementChild (e : Element) : option Element :=
  head (children e).

(** [e.contains(x)]: [x] is [e] or one of its descendants. *)
Fixpoint contains (e x : Element) {struct e} : bool :=
  same e x || existsb (fun c => contains c x) (children e).

(** The identities of an element and all its descendants, in document
    order. *)
Fixpoint idents (e : Element) : list Node :=
  ident e :: flat_map idents (children e).

(** Strict descendants of an element, in document order. *)
Fixpoint descendants (e : Element) : list Element :=
  flat_map (fun c => c :: descendants c) (children e).

(** [x] is [e] or one of its descendants. *)
Definition inTree (x e : Element) : Prop := x = e \/ x ∈ descendants e.

(** A subtree is well formed when no two of its elements share an
    identity, as in any DOM. *)
Definition wellFormed (e : Element) : Prop := NoDup (idents e).

(** The element that follows [x] among the siblings [l]. *)
Fixpoint siblingAfter (x : Element) (l : list Element) : option Element :=
  match l with
  | [] => None
  | a :: tl => if same a x then head tl else siblingAfter x tl
  end.

(** The element of the subtree [e] one of whose children is [x]. *)
Fixpoint parentIn (e x : Element) {struct e} : option Element :=
  if existsb (fun c => same c x) (children e) then Some e
  else
    (fix search (l : list Element) : option Element :=
       match l with
       | [] => None
       | c :: tl =>
           match parentIn c x with
           | Some p => Some p
           | None => search tl
           end
       end) (children e).

(** [x.nextElementSibling], read in the document [doc]; [None] is
    [null]. *)
Definition nextElementSibling (doc x : Element) : option Element :=
  match parentIn doc x with
  | Some p => siblingAfter x (children p)
  | None => None
  end.

(** [Array.prototype.indexOf] on an array of element references. *)
Fixpoint indexOf (items : list Element) (x : Element) : Z :=
  match items with
  | [] => (-1)%Z
  | a :: tl =>
      if same a x then 0%Z
      else let i := indexOf tl x in
           if (i <? 0)%Z then (-1)%Z else (i + 1)%Z
  end.

(** [items[i]] for a JavaScript number [i]; [None] is [undefined]. *)
Definition item (items : list Element) (i : Z) : option Element :=
  if (i <? 0)%Z then None else items !! Z.to_nat i.

End Dom.

Import Dom.

(** ** Key codes

    [lib/keyCodes] is the table the handlers destructure their key codes
    from.  The handlers only compare codes with [===], so the table is a
    parameter of every handler; the theorems ask for its entries to be
    pairwise distinct where a handler tells them apart. *)

Record KeyCodes : Type := {
  TAB : Z; RETURN : Z; ESC : Z; SPACE : Z; END : Z;
  HOME : Z; LEFT : Z; UP : Z; RIGHT : Z; DOWN : Z
}.

Definition distinctCodes (k : KeyCodes) : Prop :=
  NoDup [TAB k; RETURN k; ESC k; SPACE k; END k;
         HOME k; LEFT k; UP k; RIGHT k; DOWN k].

(** The values of [KeyboardEvent.keyCode] for these keys. *)
Definition domKeyCodes : KeyCodes :=
  {| TAB := 9; RETURN := 13; ESC := 27; SPACE := 32; END := 35;
     HOME := 36; LEFT := 37; UP := 38; RIGHT := 39; DOWN := 40 |}.

(** The event object a handler receives.  Its two mutable flags are kept in
    the [World], see [preventDefault] and [stopPropagation]. *)
Module DomEvent.
Record Event : Type := {
  keyCode : Z;
  shiftKey : bool;
  target : Element
}.
End DomEvent.
Export DomEvent (Event, keyCode, shiftKey).

(** ** Component instances saved on DOM elements *)

Module PopupInstance.

(** Modelled from the spec: the [Popup] class is imported by the three
    menu files but is not among the sources.  A popup shows or hides a
    [target] element relative to a [controller]; its state is the flag
    [expanded]; [firstChild] is the property the menubar focuses when it
    opens the popup. *)
Record Popup : Type := {
  controller : Element;
  target : Element;
  firstChild : option Element;
  expanded : bool
}.

Definition setExpanded (b : bool) (p : Popup) : Popup :=
  {| controller := controller p; target := target p;
     firstChild := firstChild p; expanded := b |}.

End PopupInstance.

Module MenuItemInstance.

(** The fields [MenuItem]'s constructor and [init] assign on [this];
    [previousSibling] is assigned from outside, by whoever built the
    instance for a nested list, and is [undefined] ([None]) otherwise. *)
Record MenuItem : Type := {
  list_ : Element;
  listItems : list Element;
  menuItems : list Element;
  menuItemsLength : Z;
  firstItem : option Element;
  previousSibling : option Element
}.

Definition setPreviousSibling (link : Element) (m : MenuItem) : MenuItem :=
  {| list_ := list_ m; listItems := listItems m; menuItems := menuItems m;
     menuItemsLength := menuItemsLength m; firstItem := firstItem m;
     previousSibling := Some link |}.

End MenuItemInstance.

(** ** The mutable world *)

(** An attribute value.  [setAttribute] stores the string form of a number;
    that form determines the number, so the number itself is kept. *)
Inductive AttrValue : Type :=
| Num (z : Z)
| Str (s : string).

(** The bound methods the components register as event listeners, each with
    the identity of the element its instance is saved on. *)
Inductive Listener : Type :=
| MenuItem_handleListKeydown (list_ : Node)
| MenuBar_handleMenuBarKeydown (menu : Node)
| MenuBar_handleMenuBarClick (menu : Node)
| MenuButton_handleControllerKeydown (controller : Node).

Record World : Type := mkWorld {
  document : Element;
  attributes : gmap (Node * string) AttrValue;
  activeElement : option Element;
  listeners : list (Node * string * Listener);
  (** [element.menuItem] and [element.popup] *)
  menuItemOf : gmap Node MenuItemInstance.MenuItem;
  popupOf : gmap Node PopupInstance.Popup;
  (** flags of the event being dispatched *)
  defaultPrevented : bool;
  propagationStopped : bool
}.

Definition getAttribute (el : Element) (name : string) (w : World)
  : option AttrValue :=
  attributes w !! (ident el, name).

Definition setAttribute (el : Element) (name : string) (v : AttrValue)
  (w : World) : World :=
  mkWorld (document w) (<[(ident el, name) := v]> (attributes w))
    (activeElement w) (listeners w) (menuItemOf w) (popupOf w)
    (defaultPrevented w) (propagationStopped w).

Definition removeAttribute (el : Element) (name : string) (w : World)
  : World :=
  mkWorld (document w) (delete (ident el, name) (attributes w))
    (activeElement w) (listeners w) (menuItemOf w) (popupOf w)
    (defaultPrevented w) (propagationStopped w).

(** [el.focus()]: the element becomes [document.activeElement]. *)
Definition focus (el : Element) (w : World) : World :=
  mkWorld (document w) (attributes w) (Some el) (listeners w)
    (menuItemOf w) (popupOf w) (defaultPrevented w) (propagationStopped w).

Definition addEventListener (el : Element) (type : string) (l : Listener)
  (w : World) : World :=
  mkWorld (document w) (attributes w) (activeElement w)
    (listeners w ++ [(ident el, type, l)]) (menuItemOf w) (popupOf w)
    (defaultPrevented w) (propagationStopped w).

Definition setMenuItemOf (h : gmap Node MenuItemInstance.MenuItem)
  (w : World) : World :=
  mkWorld (document w) (attributes w) (activeElement w) (listeners w)
    h (popupOf w) (defaultPrevented w) (propagationStopped w).

Definition setPopupOf (h : gmap Node PopupInstance.Popup) (w : World)
  : World :=
  mkWorld (document w) (attributes w) (activeElement w) (listeners w)
    (menuItemOf w) h (defaultPrevented w) (propagationStopped w).

(** [event.preventDefault()] and [event.stopPropagation()]. *)
Definition preventDefault (w : World) : World :=
  mkWorld (document w) (attributes w) (activeElement w) (listeners w)
    (menuItemOf w) (popupOf w) true (propagationStopped w).

Definition stopPropagation (w : World) : World :=
  mkWorld (document w) (attributes w) (activeElement w) (listeners w)
    (menuItemOf w) (popupOf w) (defaultPrevented w) true.

(** The flags of a freshly created event. *)
Definition clearFlags (w : World) : World :=
  mkWorld (document w) (attributes w) (activeElement w) (listeners w)
    (menuItemOf w) (popupOf w) false false.

(** [document.activeElement] changes without a call of [focus], by a default
    action of the browser. *)
Definition setActiveElement (x : option Element) (w : World) : World :=
  mkWorld (document w) (attributes w) x (listeners w) (menuItemOf w)
    (popupOf w) (defaultPrevented w) (propagationStopped w).

(** Focus an element when there is one. *)
Definition focusIfSome (x : option Element) (w : World) : World :=
  match x with
  | Some el => focus el w
  | None => w
  end.

(** The state a method runs in: the world and the instance [this]. *)
Record Ctx (T : Type) : Type := mkCtx { world : World; this : T }.
Arguments mkCtx {T} world this.
Arguments world {T} c.
Arguments this {T} c.

Definition onWorld {T} (f : World -> World) : M (Ctx T) unit :=
  modify (fun c => mkCtx (f (world c)) (this c)).

Definition onThis {T} (f : T -> T) : M (Ctx T) unit :=
  modify (fun c => mkCtx (world c) (f (this c))).

(** [x.focus()] for a reference that may be [undefined]. *)
Definition focusOrThrow {T} (x : option Element) : M (Ctx T) unit :=
  match x with
  | Some el => onWorld (focus el)
  | None => throw TypeError
  end.

(** ** Popup *)

Module Popup.
Import PopupInstance.

Definition isInteractive (e : Element) : bool :=
  existsb (String.eqb (nodeName e))
    ["A"; "BUTTON"; "INPUT"; "SELECT"; "TEXTAREA"]%string.

(** Modelled from the spec: the elements of a subtree that take keyboard
    focus, which [Popup] and [Dialog] collect from their target. *)
Definition interactiveChildElements (e : Element) : list Element :=
  filter (fun c => isInteractive c = true) (descendants e).

Definition boolAttr (b : bool) : AttrValue :=
  Str (if b then "true" else "false").

(** Modelled from the spec: a state change of a popup is re-rendered into
    [aria-expanded] on the controller and [aria-hidden] on the target. *)
Definition stateWasUpdated (p : Popup) (w : World) : World :=
  setAttribute (target p) "aria-hidden" (boolAttr (negb (expanded p)))
    (setAttribute (controller p) "aria-expanded" (boolAttr (expanded p)) w).

(** Modelled from the spec: [popup.setState({ expanded })] for the popup
    saved on [ref]. *)
Definition setState (ref : Element) (b : bool) (w : World) : World :=
  match popupOf w !! ident ref with
  | Some p =>
      let p' := setExpanded b p in
      stateWasUpdated p' (setPopupOf (<[ident ref := p']> (popupOf w)) w)
  | None => w
  end.

Definition setExpandedState (ref : Element) (b : bool) : World -> World :=
  setState ref b.
Definition show (ref : Element) : World -> World := setState ref true.
Definition hide (ref : Element) : World -> World := setState ref false.

(** Modelled from the spec: [new Popup({ controller, target })] saves the
    instance on the controller and starts hidden. *)
Definition new (controller target : Element) (w : World) : World :=
  let p := {| controller := controller; target := target;
              firstChild := head (interactiveChildElements target);
              expanded := false |} in
  stateWasUpdated p (setPopupOf (<[ident controller := p]> (popupOf w)) w).

Definition isExpanded (ref : Element) (w : World) : bool :=
  match popupOf w !! ident ref with
  | Some p => expanded p
  | None => false
  end.

Section Handlers.
Context (keyCodes : KeyCodes).

(** Modelled from the spec: "closes on outside click / Escape".  The
    keydown listener sits on the controller and on the target, so it
    runs for events whose target lies inside either. *)
Definition handleKeydown (ref : Element) (event : Event) (w : World)
  : World :=
  match popupOf w !! ident ref with
  | Some p =>
      if expanded p && (keyCode event =? ESC keyCodes)%Z then hide ref w
      else w
  | None => w
  end.

(** The click listener sits on the document body. *)
Definition handleOutsideClick (ref : Element) (event : Event) (w : World)
  : World :=
  match popupOf w !! ident ref with
  | Some p =>
      if expanded p
         && negb (contains (target p) (DomEvent.target event))
         && negb (contains (controller p) (DomEvent.target event))
      then hide ref w
      else w
  | None => w
  end.
End Handlers.

End Popup.

(** ** MenuItem ([src/MenuItem/index.js]) *)

Module MenuItem.
Import MenuItemInstance.

(** [static nextElementIsUl(element)]; [None] is the [false] it returns
    when there is no such list. *)
Definition nextElementIsUl (doc element : Element) : option Element :=
  match nextElementSibling doc element with
  | Some next => if String.eqb "UL" (nodeName next) then Some next else None
  | None => None
  end.

Definition describedby : string :=
  "menu-class-submenu-explore menu-class-submenu-help menu-class-submenu-back menu-class-esc-help".

(** The [reduce] of [init]: the first element child of every list item
    that has an anchor there. *)
Definition collectLinks (listItems : list Element) : list Element :=
  fold_left
    (fun acc item =>
       match firstElementChild item with
       | Some itemLink =>
           if String.eqb "A" (nodeName itemLink)
           then acc ++ [itemLink] else acc
       | None => acc
       end)
    listItems [].

Definition instance (lst : Element) : MenuItem :=
  let menuItems := collectLinks (children lst) in
  {| list_ := lst;
     listItems := children lst;
     menuItems := menuItems;
     menuItemsLength := Z.of_nat (length menuItems);
     firstItem := head menuItems;
     previousSibling := None |}.

(** [subList.previousSibling = link], on the instance saved on the nested
    list. *)
Definition assignPreviousSibling (siblingList link : Element) (w : World)
  : World :=
  setMenuItemOf
    (alter (setPreviousSibling link) (ident siblingList) (menuItemOf w)) w.

(** What [init] does to one collected link before it looks for a nested
    list. *)
Definition initLink (this : MenuItem) (link : Element) (index : Z)
  (w : World) : World :=
  let w := setAttribute link "aria-describedby" (Str describedby) w in
  let w := setAttribute link "aria-setsize" (Num (menuItemsLength this)) w in
  let w := setAttribute link "aria-posinset" (Num (index + 1)) w in
  addEventListener link "keydown"
    (MenuItem_handleListKeydown (ident (list_ this))) w.

(** The [forEach] of [init].  It walks the collected links, and a link is
    the first element child of its list item, so its next element sibling
    is the second child of that item: the walk runs over the list items
    and skips those without an anchor first.  [index] counts the links
    met so far, which is the index [forEach] passes to its callback.
    [newMenuItem] is the constructor, called on a nested list. *)
Section ForEach.
Context (newMenuItem : Element -> World -> World) (this : MenuItem).

Definition initSubList (link : Element) (after : list Element)
  (w : World) : World :=
  match after with
  | next :: _ =>
      if String.eqb "UL" (nodeName next) then
        assignPreviousSibling next link (newMenuItem next w)
      else w
  | [] => w
  end.

Fixpoint forEachLink (items : list Element) (index : Z) (w : World)
  : World :=
  match items with
  | [] => w
  | item :: rest =>
      match children item with
      | link :: after =>
          if String.eqb "A" (nodeName link) then
            forEachLink rest (index + 1)%Z
              (initSubList link after (initLink this link index w))
          else forEachLink rest index w
      | [] => forEachLink rest index w
      end
  end.
End ForEach.

(** [new MenuItem(list)]: the constructor followed by [init].  The
    recursion into a nested list is structural in the tree.

    The instance is one mutable object whose fields [init] assigns and
    nothing reads in between; it is saved on the list with the values
    they end with. *)
Fixpoint new (lst : Element) (w : World) {struct lst} : World :=
  let this := instance lst in
  let w := setMenuItemOf (<[ident lst := this]> (menuItemOf w)) w in
  forEachLink new this (children lst) 0%Z w.

(** The same [forEach] as the source writes it: over the collected links,
    each with its index, the nested list read from the document through
    [nextElementIsUl].  [MenuItem_new_as_written] shows that [new] runs
    this loop. *)
Section ForEachAsWritten.
Context (newMenuItem : Element -> World -> World) (this : MenuItem).
Context (doc : Element).

Definition initCallback (link : Element) (index : Z) (w : World)
  : World :=
  let w := initLink this link index w in
  match nextElementIsUl doc link with
  | Some siblingList =>
      assignPreviousSibling siblingList link (newMenuItem siblingList w)
  | None => w
  end.

Fixpoint forEach (links : list Element) (index : Z) (w : World) : World :=
  match links with
  | [] => w
  | link :: rest => forEach rest (index + 1)%Z (initCallback link index w)
  end.
End ForEachAsWritten.

Section Handlers.
Context (keyCodes : KeyCodes).

(** The [activeDescendant] constant of [handleListKeydown];
    [list.contains(null)] is false. *)
Definition activeDescendant (this : MenuItem) (w : World)
  : option Element :=
  match activeElement w with
  | Some a => if contains (list_ this) a then Some a
              else menuItems this !! 0%nat
  | None => menuItems this !! 0%nat
  end.

(** [this.menuItems.indexOf(activeDescendant)]; no entry of the array is
    [undefined]. *)
Definition activeIndex (this : MenuItem) (w : World) : Z :=
  match activeDescendant this w with
  | Some a => indexOf (menuItems this) a
  | None => (-1)%Z
  end.

Definition handleListKeydown (event : Event) : M (Ctx MenuItem) unit :=
  this <- gets this;;
  w <- gets world;;
  let keyCode := keyCode event in
  let activeDescendant := activeDescendant this w in
  let menuLastIndex := (Z.of_nat (length (menuItems this)) - 1)%Z in
  let activeIndex := activeIndex this w in
  if (keyCode =? UP keyCodes)%Z || (keyCode =? DOWN keyCodes)%Z then
    onWorld stopPropagation;;
    onWorld preventDefault;;
    let nextIndex :=
      if (keyCode =? UP keyCodes)%Z
      then (activeIndex - 1)%Z else (activeIndex + 1)%Z in
    let nextIndex :=
      if (UP keyCodes =? keyCode)%Z && (nextIndex <? 0)%Z
      then menuLastIndex else nextIndex in
    let nextIndex :=
      if (DOWN keyCodes =? keyCode)%Z && (menuLastIndex <? nextIndex)%Z
      then 0%Z else nextIndex in
    focusOrThrow (item (menuItems this) nextIndex)
  else if (RIGHT keyCodes =? keyCode)%Z then
    match activeDescendant with
    | None => throw TypeError
    | Some active =>
        match nextElementIsUl (document w) active with
        | Some siblingElement =>
            (* instanceOf(siblingElement, MenuItem) *)
            match menuItemOf w !! ident siblingElement with
            | Some menuItem =>
                onWorld stopPropagation;;
                onWorld preventDefault;;
                focusOrThrow (firstItem menuItem)
            | None => ret tt
            end
        | None => ret tt
        end
    end
  else if (LEFT keyCodes =? keyCode)%Z then
    match previousSibling this with
    | Some previous =>
        onWorld stopPropagation;;
        onWorld preventDefault;;
        (* instanceOf(this.previousSibling, Popup) *)
        match popupOf w !! ident previous with
        | Some popup =>
            onWorld stopPropagation;;
            onWorld preventDefault;;
            when (PopupInstance.expanded popup)
              (onWorld (Popup.setExpandedState previous false))
        | None => ret tt
        end;;
        onWorld (focus previous)
    | None => ret tt
    end
  else ret tt.

End Handlers.

End MenuItem.

(** ** Menu *)

Module Menu.

(** The two properties of a [Menu] instance that [MenuButton] reads. *)
Record Menu : Type := {
  firstItem : option Element;
  lastItem : option Element
}.

(** Modelled from the spec: the [Menu] class is not among the sources.
    A menu manages the anchor items of a list; [firstItem] and [lastItem]
    are the first and the last of them, and the list gets the menu role.
    The components below take the constructor as a parameter; this model
    is the instance they are run with. *)
Definition new (lst : Element) : M World Menu :=
  fun w =>
    let items := MenuItem.collectLinks (children lst) in
    (Normal {| firstItem := head items; lastItem := last items |},
     setAttribute lst "role" (Str "menu") w).

End Menu.

(** A computation on the world alone, run inside a method. *)
Definition liftWorld {T A} (c : M World A) : M (Ctx T) A :=
  fun s =>
    match c (world s) with
    | (r, w') => (r, mkCtx w' (this s))
    end.

(** ** lib/rovingTabIndex *)

Module RovingTabIndex.

(** Modelled from the spec: [lib/rovingTabIndex] is not among the
    sources.  Roving tabindex keeps the allowed item in the tab order and
    removes every other item from it: the allowed item loses its
    [tabindex] attribute, the others get [tabindex="-1"]. *)
Definition rovingTabIndex (items : list Element) (allow : Element)
  (w : World) : World :=
  fold_left
    (fun w item =>
       if same item allow then removeAttribute item "tabindex" w
       else setAttribute item "tabindex" (Num (-1)) w)
    items w.

(** [tabIndexAllow(items)] reverts the [tabindex] attributes. *)
Definition tabIndexAllow (items : list Element) (w : World) : World :=
  fold_left (fun w item => removeAttribute item "tabindex" w) items w.

(** A link is in the tab order unless its [tabindex] is negative. *)
Definition inTabOrder (w : World) (el : Element) : bool :=
  match getAttribute el "tabindex" w with
  | Some (Num z) => (0 <=? z)%Z
  | _ => true
  end.

End RovingTabIndex.

(** ** MenuBar ([src/MenuBar/index.js]) *)

Module MenuBar.
Import RovingTabIndex.

(** [this.state]: the selected item and its popup, [None] for the
    [false] that stands for "no popup".  A popup is named by the element
    it is saved on. *)
Record State : Type := {
  menubarItem : option Element;
  popup : option Element
}.

Record MenuBar : Type := {
  menu : option Element;
  menuBarChildren : list Element;
  menuBarItems : list Element;
  menuLength : Z;
  lastIndex : Z;
  popups : list Element;
  state : State;
  searchString : string
}.

(** The instance as the constructor leaves it before [init] runs. *)
Definition blank (menu : option Element) : MenuBar :=
  {| menu := menu; menuBarChildren := []; menuBarItems := [];
     menuLength := 0; lastIndex := 0; popups := [];
     state := {| menubarItem := None; popup := None |};
     searchString := "" |}.

Definition setCollected (children items : list Element) (m : MenuBar)
  : MenuBar :=
  {| menu := menu m; menuBarChildren := children; menuBarItems := items;
     menuLength := Z.of_nat (length items);
     lastIndex := lastIndex m; popups := popups m;
     state := state m; searchString := searchString m |}.

Definition setLastIndex (i : Z) (m : MenuBar) : MenuBar :=
  {| menu := menu m; menuBarChildren := menuBarChildren m;
     menuBarItems := menuBarItems m; menuLength := menuLength m;
     lastIndex := i; popups := popups m;
     state := state m; searchString := searchString m |}.

Definition setPopups (ps : list Element) (m : MenuBar) : MenuBar :=
  {| menu := menu m; menuBarChildren := menuBarChildren m;
     menuBarItems := menuBarItems m; menuLength := menuLength m;
     lastIndex := lastIndex m; popups := ps;
     state := state m; searchString := searchString m |}.

Definition setStateOf (s : State) (m : MenuBar) : MenuBar :=
  {| menu := menu m; menuBarChildren := menuBarChildren m;
     menuBarItems := menuBarItems m; menuLength := menuLength m;
     lastIndex := lastIndex m; popups := popups m;
     state := s; searchString := searchString m |}.

Definition setSearchString (s : string) (m : MenuBar) : MenuBar :=
  {| menu := menu m; menuBarChildren := menuBarChildren m;
     menuBarItems := menuBarItems m; menuLength := menuLength m;
     lastIndex := lastIndex m; popups := popups m;
     state := state m; searchString := s |}.

(** [Object.assign(this.state, { menubarItem })] and
    [Object.assign(this.state, { popup })]. *)
Definition assignMenubarItem (x : option Element) (m : MenuBar) : MenuBar :=
  setStateOf {| menubarItem := x; popup := popup (state m) |} m.

Definition assignPopup (p : option Element) (m : MenuBar) : MenuBar :=
  setStateOf {| menubarItem := menubarItem (state m); popup := p |} m.

Definition describedby : string :=
  "ac-describe-top-level-help ac-describe-submenu-help ac-describe-esc-help".

(** [static getPopupFromMenubarItem(menubarItem)]: reading [.popup] of
    [undefined] throws. *)
Definition getPopupFromMenubarItem (menubarItem : option Element)
  : M (Ctx MenuBar) (option Element) :=
  match menubarItem with
  | None => throw TypeError
  | Some el =>
      w <- gets world;;
      ret (match popupOf w !! ident el with
           | Some _ => Some el
           | None => None
           end)
  end.

(** [stateWasUpdated({ menubarItem })]; the [onStateChange] option is the
    default, which does nothing. *)
Definition stateWasUpdated (s : State) : M (Ctx MenuBar) unit :=
  popup <- getPopupFromMenubarItem (menubarItem s);;
  onThis (assignPopup popup);;
  this <- gets this;;
  match menubarItem s with
  | Some item =>
      onWorld (rovingTabIndex (menuBarItems this) item);;
      onWorld (focus item)
  | None => throw TypeError
  end.

(** Modelled from the spec: [setState] is inherited from [AriaComponent],
    which is not among the sources: the state container merges the new
    state into [this.state] and then runs the [stateWasUpdated] hook on
    it.  Every call in this file passes [{ menubarItem }]. *)
Definition setState (menubarItem : option Element) : M (Ctx MenuBar) unit :=
  onThis (assignMenubarItem menubarItem);;
  s <- gets (fun c => state (this c));;
  stateWasUpdated s.

(** [String.fromCharCode(keyCode)] *)
Definition fromCharCode (keyCode : Z) : string :=
  String (Ascii.ascii_of_N (Z.to_N keyCode)) EmptyString.

Section Methods.
Context (keyCodes : KeyCodes).
(** [lib/nextPrevious] is not among the sources; the handler only tests
    what it returns, [None] standing for a falsy result. *)
Context (nextPreviousFromLeftRight :
           Z -> option Element -> list Element -> option Element).
(** Whether an item matches the collected search string. *)
Context (itemMatches : string -> Element -> bool).
(** The constructor of the nested [Menu]s. *)
Context (Menu_new : Element -> M World Menu.Menu).

(** Modelled from the spec: [this.typeAhead] is inherited and not among
    the sources.  Type-ahead collects the pressed characters in a
    search string and looks for an item that matches it; [None] is the
    [null] of "no match". *)
Definition typeAhead (keyCode : Z) (items : list Element)
  : M (Ctx MenuBar) (option Element) :=
  onThis (fun m =>
            setSearchString (searchString m ++ fromCharCode keyCode) m);;
  s <- gets (fun c => searchString (this c));;
  ret (find (itemMatches s) items).

(** The [forEach] over [menuBarChildren]: what it does to one child,
    the loop started at any index, and the loop as [init] runs it. *)
Definition initChild (menu : Element) (menuLength : Z) (index : Z)
  (item : Element) (w : World) : World :=
  let w := setAttribute item "aria-setsize" (Num menuLength) w in
  let w := setAttribute item "aria-posinset" (Num (index + 1)) w in
  let w := setAttribute item "role" (Str "menuitem") w in
  addEventListener item "keydown"
    (MenuBar_handleMenuBarKeydown (ident menu)) w.

Definition childrenLoop (menu : Element) (menuLength : Z)
  (children : list Element) (start : Z * World) : Z * World :=
  fold_left
    (fun '(index, w) item =>
       ((index + 1)%Z, initChild menu menuLength index item w))
    children start.

Definition initChildren (menu : Element) (menuLength : Z)
  (children : list Element) (w : World) : World :=
  snd (childrenLoop menu menuLength children (0%Z, w)).

(** The [forEach] over [menuBarItems]. *)
Definition initLinks (menu : Element) (links : list Element) (w : World)
  : World :=
  fold_left
    (fun w link =>
       let w := setAttribute link "aria-describedby" (Str describedby) w in
       addEventListener link "click"
         (MenuBar_handleMenuBarClick (ident menu)) w)
    links w.

(** The [reduce] that builds [this.popups].  A collected link is the
    first element child of its menubar child, so its next element
    sibling is that child's second element child; the walk runs over
    the children and skips those without an anchor first.  The
    [previousSibling] assigned to the new [Menu] stays inside that
    instance. *)
Fixpoint initPopups (children : list Element) (acc : list Element)
  : M World (list Element) :=
  match children with
  | [] => ret acc
  | item :: rest =>
      match Dom.children item with
      | controller :: target :: _ =>
          if String.eqb "A" (nodeName controller)
             && String.eqb "UL" (nodeName target)
          then
            modify (Popup.new controller target);;
            _ <- Menu_new target;;
            initPopups rest (acc ++ [controller])
          else initPopups rest acc
      | _ => initPopups rest acc
      end
  end.

(** The same [reduce] as the source writes it: over the collected
    links, the target read from the document [doc].
    [initPopups_as_written] shows that the two agree. *)
Fixpoint reducePopups (doc : Element) (links acc : list Element)
  : M World (list Element) :=
  match links with
  | [] => ret acc
  | controller :: rest =>
      match nextElementSibling doc controller with
      | Some target =>
          if String.eqb "UL" (nodeName target) then
            modify (Popup.new controller target);;
            _ <- Menu_new target;;
            reducePopups doc rest (acc ++ [controller])
          else reducePopups doc rest acc
      | None => reducePopups doc rest acc
      end
  end.

(** [init()]; the [onInit] option is the default, which does nothing,
    [missingDescribedByWarning] only logs, and the reference to the
    instance that [setSelfReference] saves on the menu is not read by
    any method here. *)
Definition init : M (Ctx MenuBar) unit :=
  this0 <- gets this;;
  match menu this0 with
  | None => throw TypeError
  | Some menu =>
      onWorld (setAttribute menu "role" (Str "menubar"));;
      let menuBarChildren := children menu in
      let menuBarItems := MenuItem.collectLinks menuBarChildren in
      onThis (setCollected menuBarChildren menuBarItems);;
      let menuLength := Z.of_nat (length menuBarItems) in
      onWorld (initChildren menu menuLength menuBarChildren);;
      onWorld (initLinks menu menuBarItems);;
      onThis (setLastIndex (menuLength - 1));;
      popups <- liftWorld (initPopups menuBarChildren []);;
      onThis (setPopups popups);;
      let menubarItem := head menuBarItems in
      popup <- getPopupFromMenubarItem menubarItem;;
      onThis (setStateOf {| menubarItem := menubarItem; popup := popup |});;
      match menubarItem with
      | Some item => onWorld (rovingTabIndex menuBarItems item)
      | None => throw TypeError
      end
  end.

(** [new MenuBar({ menu })]: only a [<ul>] is initialised. *)
Definition new (menu : option Element) (w : World)
  : Completion unit * Ctx MenuBar :=
  match menu with
  | Some m =>
      if String.eqb "UL" (nodeName m)
      then init (mkCtx w (blank menu))
      else (Normal tt, mkCtx w (blank menu))
  | None => (Normal tt, mkCtx w (blank menu))
  end.

Definition handleMenuBarKeydown (event : Event) : M (Ctx MenuBar) unit :=
  this <- gets this;;
  let keyCode := keyCode event in
  let menubarItem := menubarItem (state this) in
  let popup := popup (state this) in
  if (keyCode =? LEFT keyCodes)%Z || (keyCode =? RIGHT keyCodes)%Z then
    match nextPreviousFromLeftRight keyCode menubarItem
            (menuBarItems this) with
    | Some nextItem =>
        onWorld stopPropagation;;
        onWorld preventDefault;;
        match popup with
        | Some p => onWorld (Popup.setState p false)
        | None => ret tt
        end;;
        setState (Some nextItem)
    | None => ret tt
    end
  else if (keyCode =? SPACE keyCodes)%Z || (keyCode =? RETURN keyCodes)%Z
          || (keyCode =? DOWN keyCodes)%Z then
    match popup with
    | Some p =>
        onWorld stopPropagation;;
        onWorld preventDefault;;
        w <- gets world;;
        when (negb (Popup.isExpanded p w))
          (onWorld (Popup.setState p true));;
        focusOrThrow
          (match popupOf w !! ident p with
           | Some o => PopupInstance.firstChild o
           | None => None
           end)
    | None => ret tt
    end
  else if (keyCode =? HOME keyCodes)%Z then
    onWorld preventDefault;;
    setState (head (menuBarItems this))
  else if (keyCode =? END keyCodes)%Z then
    onWorld preventDefault;;
    setState (item (menuBarItems this) (lastIndex this))
  else
    itemToFocus <- typeAhead keyCode (menuBarItems this);;
    match itemToFocus with
    | Some _ => setState itemToFocus
    | None => ret tt
    end.

Definition handleMenuBarClick (event : Event) : M (Ctx MenuBar) unit :=
  setState (Some (DomEvent.target event)).

End Methods.

End MenuBar.

(** ** MenuButton ([src/MenuButton/index.js]) *)

Module MenuButton.

(** The [menu] field: the [null] default, the element passed as an
    option, or the [Menu] instance [init] replaces it with. *)
Inductive MenuField : Type :=
| MenuNull
| MenuElement (e : Element)
| MenuObject (m : Menu.Menu).

Record MenuButton : Type := {
  controller : option Element;
  target : option Element;
  menu : MenuField;
  (** [this.popup], named by the element the popup is saved on;
      [undefined] before [init] *)
  popup : option Element
}.

Definition setPopup (p : option Element) (b : MenuButton) : MenuButton :=
  {| controller := controller b; target := target b; menu := menu b;
     popup := p |}.

Definition setMenu (m : MenuField) (b : MenuButton) : MenuButton :=
  {| controller := controller b; target := target b; menu := m;
     popup := popup b |}.

(** [null !== this.menu && 'UL' === this.menu.nodeName]; a [Menu]
    instance has no [nodeName]. *)
Definition menuIsUl (m : MenuField) : option Element :=
  match m with
  | MenuElement e => if String.eqb "UL" (nodeName e) then Some e else None
  | _ => None
  end.

(** [this.menu.firstItem] and [this.menu.lastItem]: reading a property of
    [null] throws; a DOM element has neither property. *)
Definition readMenu {S} (m : MenuField) (property : Menu.Menu -> option Element)
  : M S (option Element) :=
  match m with
  | MenuNull => throw TypeError
  | MenuElement _ => ret None
  | MenuObject o => ret (property o)
  end.

Section Methods.
Context (keyCodes : KeyCodes).
Context (Menu_new : Element -> M World Menu.Menu).

(** The part of [init] that initialises the menu. *)
Definition initMenu (target : Element) : M (Ctx MenuButton) unit :=
  this <- gets this;;
  match menuIsUl (menu this) with
  | Some e =>
      m <- liftWorld (Menu_new e);;
      onThis (setMenu (MenuObject m))
  | None =>
      if String.eqb "UL" (nodeName target) then
        m <- liftWorld (Menu_new target);;
        onThis (setMenu (MenuObject m))
      else ret tt
  end.

Definition attachListener (controller : Element) : M (Ctx MenuButton) unit :=
  onWorld (addEventListener controller "keydown"
             (MenuButton_handleControllerKeydown (ident controller))).

(** [init()]; the [onInit] option is the default, which does nothing.
    The constructor only calls it with a controller and a target. *)
Definition init : M (Ctx MenuButton) unit :=
  this <- gets this;;
  match controller this, target this with
  | Some controller, Some target =>
      onWorld (Popup.new controller target);;
      onThis (setPopup (Some controller));;
      initMenu target;;
      attachListener controller
  | _, _ => throw TypeError
  end.

(** [new MenuButton({ controller, target, menu })] *)
Definition new (controller target menu : option Element) (w : World)
  : Completion unit * Ctx MenuButton :=
  let this :=
    {| controller := controller; target := target;
       menu := match menu with Some e => MenuElement e | None => MenuNull end;
       popup := None |} in
  match controller, target with
  | Some _, Some _ => init (mkCtx w this)
  | _, _ => (Normal tt, mkCtx w this)
  end.

(** [show()] is [this.popup.show()]. *)
Definition show : M (Ctx MenuButton) unit :=
  this <- gets this;;
  match popup this with
  | Some p => onWorld (Popup.show p)
  | None => throw TypeError
  end.

Definition focusIfAny (x : option Element) : M (Ctx MenuButton) unit :=
  match x with
  | Some el => onWorld (focus el)
  | None => ret tt
  end.

Definition handleControllerKeydown (event : Event)
  : M (Ctx MenuButton) unit :=
  let keyCode := keyCode event in
  if (keyCode =? RETURN keyCodes)%Z || (keyCode =? SPACE keyCodes)%Z
     || (keyCode =? DOWN keyCodes)%Z then
    onWorld preventDefault;;
    show;;
    this <- gets this;;
    firstItem <- readMenu (menu this) Menu.firstItem;;
    focusIfAny firstItem
  else if (keyCode =? UP keyCodes)%Z then
    onWorld preventDefault;;
    show;;
    this <- gets this;;
    lastItem <- readMenu (menu this) Menu.lastItem;;
    focusIfAny lastItem
  else ret tt.

End Methods.

End MenuButton.

(** ** Dialog *)

Module Dialog.

(** Modelled from the spec: the [Dialog] class is not among the sources;
    only its test file is.  A dialog is a modal with a focus trap: it has
    a controller that opens it, a target holding its content, a close
    button (the first element of the target that takes focus), the page
    content it hides, an overlay behind it, and the flag [visible]. *)
Record Dialog : Type := {
  controller : Element;
  target : Element;
  close : Element;
  content : Element;
  overlay : Element;
  interactiveChildElements : list Element;
  visible : bool
}.

Definition setVisible (b : bool) (d : Dialog) : Dialog :=
  {| controller := controller d; target := target d; close := close d;
     content := content d; overlay := overlay d;
     interactiveChildElements := interactiveChildElements d;
     visible := b |}.

Definition new (controller target close content overlay : Element)
  (w : World) : Ctx Dialog :=
  let w := setAttribute controller "aria-haspopup" (Str "dialog") w in
  let w := setAttribute controller "aria-expanded" (Str "false") w in
  let w := setAttribute target "aria-hidden" (Str "true") w in
  mkCtx w
    {| controller := controller; target := target; close := close;
       content := content; overlay := overlay;
       interactiveChildElements := Popup.interactiveChildElements target;
       visible := false |}.

(** Modelled from the spec: a change of [visible] is re-rendered into the
    ARIA attributes, and focus goes to the close button when the dialog
    opens and back to the controller when it closes (as the test "Should
    reflect the accurate state" expects). *)
Definition setState (visible : bool) : M (Ctx Dialog) unit :=
  onThis (setVisible visible);;
  this <- gets this;;
  onWorld (setAttribute (controller this) "aria-expanded"
             (Popup.boolAttr visible));;
  onWorld (setAttribute (content this) "aria-hidden"
             (Popup.boolAttr visible));;
  onWorld (setAttribute (target this) "aria-hidden"
             (Popup.boolAttr (negb visible)));;
  onWorld (focus (if visible then close this else controller this)).

Definition show : M (Ctx Dialog) unit := setState true.
Definition hide : M (Ctx Dialog) unit := setState false.

Definition isActive (x : option Element) (w : World) : bool :=
  match x, activeElement w with
  | Some e, Some a => same e a
  | _, _ => false
  end.

Section Handlers.
Context (keyCodes : KeyCodes).

(** Modelled from the spec: the keydown listener of the target.
    Escape closes the dialog; Tab on the last element and Shift+Tab on
    the first wrap around, with the default action suppressed. *)
Definition handleTargetKeydown (event : Event) : M (Ctx Dialog) unit :=
  this <- gets this;;
  w <- gets world;;
  if visible this && (keyCode event =? ESC keyCodes)%Z then hide
  else if visible this && (keyCode event =? TAB keyCodes)%Z then
    let firstChild := head (interactiveChildElements this) in
    let lastChild := last (interactiveChildElements this) in
    if shiftKey event && isActive firstChild w then
      onWorld preventDefault;;
      focusOrThrow lastChild
    else if negb (shiftKey event) && isActive lastChild w then
      onWorld preventDefault;;
      focusOrThrow firstChild
    else ret tt
  else ret tt.

(** The click listeners: the overlay and the close button close the
    dialog, the controller opens it. *)
Definition handleClick (event : Event) : M (Ctx Dialog) unit :=
  this <- gets this;;
  let clicked := DomEvent.target event in
  if contains (overlay this) clicked || contains (close this) clicked
  then hide
  else if contains (controller this) clicked then show
  else ret tt.

(** [element.dispatchEvent(keydown)]: the event bubbles from its target,
    so the listener of the dialog's target runs when the event target
    lies inside the dialog. *)
Definition dispatchKeydown (event : Event) : M (Ctx Dialog) unit :=
  this <- gets this;;
  if contains (target this) (DomEvent.target event)
  then handleTargetKeydown event
  else ret tt.

(** The element the browser moves focus to on Tab ([shift] false) or
    Shift+Tab from [active], in the tab sequence [order]. *)
Fixpoint tabNeighbour (shift : bool) (active : Element)
  (previous : option Element) (order : list Element) : option Element :=
  match order with
  | [] => None
  | e :: rest =>
      if same e active then (if shift then previous else head rest)
      else tabNeighbour shift active (Some e) rest
  end.

Definition tabEvent (shift : bool) (on : Element) : Event :=
  {| keyCode := TAB keyCodes; shiftKey := shift; DomEvent.target := on |}.

(** Modelled from the spec: a Tab key press by the user.  The keydown
    is dispatched on the focused element; unless a listener suppressed
    the default action, the browser then moves focus along the tab
    sequence of the document, and out of the page at either end. *)
Definition pressTab (shift : bool) : M (Ctx Dialog) unit :=
  w <- gets world;;
  match activeElement w with
  | None => ret tt
  | Some active =>
      onWorld clearFlags;;
      dispatchKeydown (tabEvent shift active);;
      w' <- gets world;;
      if defaultPrevented w' then ret tt
      else
        onWorld (setActiveElement
                   (tabNeighbour shift active None
                      (Popup.interactiveChildElements (document w'))))
  end.

End Handlers.

End Dialog.

(** ** Predicates used in the statements *)

(** The link [init] collects from one list item, if any. *)
Definition linkOf (item : Element) : list Element :=
  match firstElementChild item with
  | Some itemLink =>
      if String.eqb "A" (nodeName itemLink) then [itemLink] else []
  | None => []
  end.

(** The first element child of [item] is an anchor. *)
Definition hasAnchorFirst (item : Element) : Prop :=
  exists link, firstElementChild item = Some link
               /\ nodeName link = "A"%string.

(** A constructor is framed on a list when it leaves the attributes of
    every element outside that list alone. *)
Definition framed (f : Element -> World -> World) (c : Element) : Prop :=
  forall w n name,
    n ∉ idents c -> attributes (f c w) !! (n, name) = attributes w !! (n, name).

(** The same for the constructor of the nested [Menu]s, whatever its
    completion. *)
Definition menuFramed (Menu_new : Element -> M World Menu.Menu) : Prop :=
  forall target w n name,
    n ∉ idents target ->
    attributes (snd (Menu_new target w)) !! (n, name)
    = attributes w !! (n, name).

(** ** lib/nextPrevious *)

Module NextPrevious.

(** Modelled from the spec: [lib/nextPrevious] is not among the sources.
    LEFT resolves to the item before the active one and RIGHT to the item
    after it, when such an item exists.  The menubar handler takes the
    helper as a parameter; this model is the instance it is run with. *)
Definition nextPreviousFromLeftRight (keyCodes : KeyCodes) (keyCode : Z)
  (activeDescendant : option Element) (items : list Element)
  : option Element :=
  match activeDescendant with
  | None => None
  | Some active =>
      let activeIndex := indexOf items active in
      if (activeIndex <? 0)%Z then None
      else if (keyCode =? LEFT keyCodes)%Z then item items (activeIndex - 1)
      else if (keyCode =? RIGHT keyCodes)%Z then item items (activeIndex + 1)
      else None
  end.

End NextPrevious.

(** ** The roving tabindex of a menubar, as a state machine *)

Module MenuBarSpec.
Import MenuBar RovingTabIndex.

(** The menubar links that are in the tab order. *)
Definition tabOrder (c : Ctx MenuBar) : list Element :=
  filter (fun link => inTabOrder (world c) link = true)
    (menuBarItems (this c)).

(** Exactly one menubar link is in the tab order, and it is the selected
    item. *)
Definition rovingInvariant (c : Ctx MenuBar) : Prop :=
  exists current,
    menubarItem (state (this c)) = Some current /\ tabOrder c = [current].

(** What [init] establishes about the instance and no method changes. *)
Definition collected (c : Ctx MenuBar) : Prop :=
  NoDup (map ident (menuBarItems (this c)))
  /\ lastIndex (this c) = (Z.of_nat (length (menuBarItems (this c))) - 1)%Z.

(** The helper only resolves items of the array it is given. *)
Definition resolvesItems
  (f : Z -> option Element -> list Element -> option Element) : Prop :=
  forall keyCode active items x, f keyCode active items = Some x -> x ∈ items.

(** The contract the spec gives the helper: among distinct items, RIGHT
    resolves to the item after the active one and LEFT to the item before
    it, when there is such an item. *)
Definition resolvesNeighbours (keyCodes : KeyCodes)
  (f : Z -> option Element -> list Element -> option Element) : Prop :=
  forall items i active x y,
    NoDup (map ident items) ->
    items !! i = Some x ->
    ident active = ident x ->
    (items !! S i = Some y -> f (RIGHT keyCodes) (Some active) items = Some y)
    /\ (forall j, i = S j -> items !! j = Some y ->
                  f (LEFT keyCodes) (Some active) items = Some y).

Section Steps.
Context (keyCodes : KeyCodes).
Context (nextPreviousFromLeftRight :
           Z -> option Element -> list Element -> option Element).
Context (itemMatches : string -> Element -> bool).

(** The operations that can change [state.menubarItem].  [onLink]
    tells whether a click or a direct [setState] is restricted to the
    collected links. *)
Inductive step (onLink : bool) : Ctx MenuBar -> Ctx MenuBar -> Prop :=
| step_keydown (event : Event) (c : Ctx MenuBar) :
    step onLink c
      (snd (handleMenuBarKeydown keyCodes nextPreviousFromLeftRight
              itemMatches event c))
| step_click (event : Event) (c : Ctx MenuBar) :
    (onLink = true -> DomEvent.target event ∈ menuBarItems (this c)) ->
    step onLink c (snd (handleMenuBarClick event c))
| step_setState (x : Element) (c : Ctx MenuBar) :
    (onLink = true -> x ∈ menuBarItems (this c)) ->
    step onLink c (snd (setState (Some x) c)).

(** The states of a menubar that [init] built on [menu] in the world
    [w]. *)
Inductive reachable (Menu_new : Element -> M World Menu.Menu)
  (onLink : bool) (menu : Element) (w : World) : Ctx MenuBar -> Prop :=
| reach_init (c : Ctx MenuBar) :
    init Menu_new (mkCtx w (blank (Some menu))) = (Normal tt, c) ->
    reachable Menu_new onLink menu w c
| reach_step (c c' : Ctx MenuBar) :
    reachable Menu_new onLink menu w c ->
    step onLink c c' ->
    reachable Menu_new onLink menu w c'.
End Steps.

End MenuBarSpec.

(** ** Sample documents *)

Module Sample.

Definition a (n : Node) (cs : list Element) : Element := Elem n "A" cs.
Definition li (n : Node) (cs : list Element) : Element := Elem n "LI" cs.
Definition ul (n : Node) (cs : list Element) : Element := Elem n "UL" cs.

(** A menu with a nested list under its first item and one item that has
    no link. *)
Definition subList : Element := ul 4 [li 5 [a 6 []]; li 7 [a 8 []]].
Definition menu : Element :=
  ul 1 [li 2 [a 3 []; subList]; li 9 [a 10 []];
        li 11 [Elem 12 "SPAN" []]; li 13 [a 14 []]].

(** A menubar whose first link wraps its label in a [<span>]. *)
Definition label : Element := Elem 24 "SPAN" [].
Definition menubar : Element :=
  ul 20 [li 21 [a 22 [label]; ul 25 [li 26 [a 27 []]]];
         li 28 [a 29 []]; li 30 [a 31 []]].

(** The labels of the menubar links, and a type-ahead match on their
    first letters. *)
Definition textContent (e : Element) : string :=
  match ident e with
  | 22 => "FILE"
  | 29 => "EDIT"
  | 31 => "VIEW"
  | _ => ""
  end.

Definition startsWith (search : string) (e : Element) : bool :=
  String.prefix search (textContent e).

Definition page (content : list Element) : World :=
  mkWorld (Elem 0 "BODY" content) ∅ None [] ∅ ∅ false false.

Definition keydown (keyCode : Z) (target : Element) : Event :=
  {| keyCode := keyCode; shiftKey := false; DomEvent.target := target |}.

Definition helper : Z -> option Element -> list Element -> option Element :=
  NextPrevious.nextPreviousFromLeftRight domKeyCodes.

(** The sample menu after [new MenuItem(menu)], and the sample menubar
    after [new MenuBar({ menu: menubar })]. *)
Definition menuWorld : World := MenuItem.new menu (page [menu]).

Definition bar : Ctx MenuBar.MenuBar :=
  snd (MenuBar.new Menu.new (Some menubar) (page [menubar])).

(** A menu button whose target is the sample menu. *)
Definition trigger : Element := Elem 40 "BUTTON" [].

Definition button : Ctx MenuButton.MenuButton :=
  snd (MenuButton.new Menu.new (Some trigger) (Some menu) None
         (page [trigger; menu])).

End Sample.

(** ** Predicates used in the statements about MenuBar and MenuButton *)

(** [getPopupFromMenubarItem] on an element, as a function of the world. *)
Definition popupOn (w : World) (item : Element) : option Element :=
  match popupOf w !! ident item with
  | Some _ => Some item
  | None => None
  end.

Module MenuButtonSpec.
Import MenuButton.

(** The item a key press may focus: a property of the [Menu] instance when
    [this.menu] is one. *)
Definition menuItemOfField (m : MenuField)
  (property : Menu.Menu -> option Element) : option Element :=
  match m with
  | MenuObject o => property o
  | _ => None
  end.

(** How reading a property of [this.menu] completes. *)
Definition readCompletion (m : MenuField) : Completion unit :=
  match m with
  | MenuNull => Throw TypeError
  | _ => Normal tt
  end.

(** The list [init] builds the [Menu] on: the [menu] option when it is a
    [UL], else the target when it is one. *)
Definition menuList (menuOption : option Element) (target : Element)
  : option Element :=
  match menuOption with
  | Some e =>
      if String.eqb "UL" (nodeName e) then Some e
      else if String.eqb "UL" (nodeName target) then Some target else None
  | None => if String.eqb "UL" (nodeName target) then Some target else None
  end.

(** The [menu] field the constructor starts from. *)
Definition menuField (menuOption : option Element) : MenuField :=
  match menuOption with Some e => MenuElement e | None => MenuNull end.

(** The entry [init] adds to the registered listeners. *)
Definition listener (controller : Element) : Node * string * Listener :=
  (ident controller, "keydown"%string,
   MenuButton_handleControllerKeydown (ident controller)).

End MenuButtonSpec.

(** ** The document of [src/Dialog/Dialog.test.js] *)

Module DialogTest.
Import Sample.

Definition controller : Element := Elem 105 "A" [].
Definition content : Element :=
  Elem 101 "MAIN"
    [Elem 102 "ARTICLE" [Elem 103 "H1" []; Elem 104 "P" []; controller]].
Definition close : Element := Elem 107 "BUTTON" [].
Definition lastItem : Element := Elem 116 "A" [].
Definition target : Element :=
  Elem 106 "DIV"
    [close;
     ul 108 [li 109 [a 110 []]; li 111 [a 112 []]; li 113 [a 114 []];
             li 115 [lastItem]]].
Definition overlay : Element := Elem 117 "DIV" [].

(** [const modal = new Dialog({ controller, target, close, content })] *)
Definition modal : Ctx Dialog.Dialog :=
  Dialog.new controller target close content overlay
    (page [content; target; overlay]).

(** The two [beforeEach] hooks of "Dialog correctly responds to events":
    [setState({ visible: false })], then [setState({ visible: true })]. *)
Definition opened : Ctx Dialog.Dialog :=
  snd (Dialog.setState true (snd (Dialog.setState false modal))).

Definition keydownTab : Event := Dialog.tabEvent domKeyCodes false lastItem.
Definition keydownShiftTab : Event := Dialog.tabEvent domKeyCodes true close.
Definition keydownEsc : Event := keydown (ESC domKeyCodes) lastItem.
Definition click (on : Element) : Event := keydown 0 on.

Definition activeIdent (c : Ctx Dialog.Dialog) : option Node :=
  ident <$> activeElement (world c).

End DialogTest.

(** ** Predicates used in the statements about MenuItem.init *)

Module MenuItemSpec.

(** What a constructor run on the list [c] keeps of the world: the
    document, the focus, the popups and the registered listeners stay, and
    the instances saved on elements outside [c] stay. *)
Definition keeps (f : Element -> World -> World) (c : Element) : Prop :=
  forall w,
    document (f c w) = document w
    /\ activeElement (f c w) = activeElement w
    /\ popupOf (f c w) = popupOf w
    /\ (exists more, listeners (f c w) = listeners w ++ more)
    /\ forall n, n ∉ idents c -> menuItemOf (f c w) !! n = menuItemOf w !! n.

(** The entry [init] adds to the registered listeners for a collected
    link of the list [lst]. *)
Definition listener (lst link : Element) : Node * string * Listener :=
  (ident link, "keydown"%string, MenuItem_handleListKeydown (ident lst)).

End MenuItemSpec.

(** ** Predicates used in the statements about the popups of a MenuBar *)

Module MenuBarPopups.
Import MenuBar.

(** [state.popup] is the popup saved on [state.menubarItem], or the
    [false] of an item that has none. *)
Definition popupTracksItem (c : Ctx MenuBar) : Prop :=
  exists item,
    menubarItem (state (this c)) = Some item
    /\ popup (state (this c)) = popupOn (world c) item.

(** [popup.firstChild] of the popup saved on [p]. *)
Definition firstChildOf (w : World) (p : Element) : option Element :=
  match popupOf w !! ident p with
  | Some o => PopupInstance.firstChild o
  | None => None
  end.

(** The keys of the handler's second case. *)
Definition opens (keyCodes : KeyCodes) (event : Event) : Prop :=
  keyCode event = SPACE keyCodes \/ keyCode event = RETURN keyCodes
  \/ keyCode event = DOWN keyCodes.

End MenuBarPopups.

(** ** MenuButton: hide and destroy ([src/MenuButton/index.js]) *)

Module MenuButtonTeardown.
Import MenuButton.

(** [hide()] is [this.popup.hide()]. *)
Definition hide : M (Ctx MenuButton) unit :=
  this <- gets this;;
  match popup this with
  | Some p => onWorld (Popup.hide p)
  | None => throw TypeError
  end.

Section Destroy.
(** [Popup] and [Menu] are not among the sources, and [destroy] only
    calls their [destroy] methods: the two are parameters, each free to
    change the world and to throw. *)
Context (Popup_destroy : Element -> M World unit).
Context (Menu_destroy : Menu.Menu -> M World unit).

(** [destroy()]; the [onDestroy] option is the default, which does
    nothing.  [this.popup] is [undefined] before [init]; [this.menu] is
    [null], an element, which has no [destroy] method, or the [Menu]
    instance [init] built. *)
Definition destroy : M (Ctx MenuButton) unit :=
  this <- gets this;;
  match popup this with
  | Some p => liftWorld (Popup_destroy p)
  | None => throw TypeError
  end;;
  match menu this with
  | MenuObject m => liftWorld (Menu_destroy m)
  | MenuNull | MenuElement _ => throw TypeError
  end.
End Destroy.

End MenuButtonTeardown.

(** ** MenuBar.destroy ([src/MenuBar/index.js]) *)

(** [===] on the bound methods registered as listeners. *)
Definition sameListener (a b : Listener) : bool :=
  match a, b with
  | MenuItem_handleListKeydown m, MenuItem_handleListKeydown n => Nat.eqb m n
  | MenuBar_handleMenuBarKeydown m, MenuBar_handleMenuBarKeydown n =>
      Nat.eqb m n
  | MenuBar_handleMenuBarClick m, MenuBar_handleMenuBarClick n => Nat.eqb m n
  | MenuButton_handleControllerKeydown m,
    MenuButton_handleControllerKeydown n => Nat.eqb m n
  | _, _ => false
  end.

(** Whether a registered entry is the listener [l] for [type] on [el]. *)
Definition isListener (el : Element) (type : string) (l : Listener)
  (entry : Node * string * Listener) : bool :=
  match entry with
  | (n, t, l') => Nat.eqb n (ident el) && String.eqb t type && sameListener l' l
  end.

Definition removeEventListener (el : Element) (type : string) (l : Listener)
  (w : World) : World :=
  mkWorld (document w) (attributes w) (activeElement w)
    (List.filter (fun entry => negb (isListener el type l entry))
       (listeners w))
    (menuItemOf w) (popupOf w) (defaultPrevented w) (propagationStopped w).

Module MenuBarTeardown.
Import MenuBar RovingTabIndex.

(** [array.forEach(callback)] for a callback that may throw. *)
Fixpoint forEach {A : Type} (callback : A -> M World unit) (l : list A)
  : M World unit :=
  match l with
  | [] => ret tt
  | a :: rest => callback a;; forEach callback rest
  end.

(** The callback of the [forEach] over [menuBarItems].
    [link.parentElement] is read in the document; it is [null] for a link
    that is the child of no element, and removing an attribute from it
    then throws. *)
Definition destroyLink (menu link : Element) : M World unit :=
  modify (removeAttribute link "aria-describedby");;
  doc <- gets document;;
  match parentIn doc link with
  | Some parentElement =>
      modify (removeAttribute parentElement "aria-setsize");;
      modify (removeAttribute parentElement "aria-posinset");;
      modify (removeEventListener parentElement "keydown"
                (MenuBar_handleMenuBarKeydown (ident menu)));;
      modify (removeEventListener link "click"
                (MenuBar_handleMenuBarClick (ident menu)))
  | None => throw TypeError
  end.

Section Destroy.
(** [Popup] and [Menu] are not among the sources.  For every popup the
    loop destroys the [Menu] saved on the popup's target, when there is
    one, and then the popup itself; the two calls together are a
    parameter, free to change the world and to throw. *)
Context (destroyPopup : Element -> M World unit).

(** [destroy()]; the [onDestroy] option is the default, which does
    nothing, and the reference that [delete this.menu.menuBar] removes
    is not read by any method here.  [this.menuBarItems] and
    [this.popups] are assigned by [init], which the constructor runs
    for a [UL] only: on any other menu they are [undefined], and the
    first [forEach] throws. *)
Definition destroy : M (Ctx MenuBar) unit :=
  this <- gets this;;
  match menu this with
  | None => throw TypeError
  | Some menu =>
      onWorld (removeAttribute menu "role");;
      if String.eqb "UL" (nodeName menu) then
        liftWorld (forEach (destroyLink menu) (menuBarItems this));;
        liftWorld (forEach destroyPopup (popups this));;
        onWorld (tabIndexAllow (menuBarItems this))
      else throw TypeError
  end.
End Destroy.

(** The parameter leaves the attributes of the menubar and of its
    children alone, however it completes. *)
Definition keepsMenubar (menu : Element)
  (destroyPopup : Element -> M World unit) : Prop :=
  forall popup w n name,
    n ∈ ident menu :: map ident (children menu) ->
    attributes (snd (destroyPopup popup w)) !! (n, name)
    = attributes w !! (n, name).

End MenuBarTeardown.

(** ** Predicates used in the statements about the popups [init] builds *)

Module MenuBarInitSpec.

(** The constructor of the nested menus completes normally and leaves
    the saved popups alone. *)
Definition menuKeepsPopups (Menu_new : Element -> M World Menu.Menu)
  : Prop :=
  forall target w,
    isNormal (fst (Menu_new target w)) = true
    /\ popupOf (snd (Menu_new target w)) = popupOf w.

(** [item] is a child whose first element is the anchor [controller] and
    whose second element is the list [target]. *)
Definition hasPopup (item controller target : Element) : Prop :=
  exists after,
    children item = controller :: target :: after
    /\ nodeName controller = "A"%string
    /\ nodeName target = "UL"%string.

(** The instance [new Popup({ controller, target })] saves. *)
Definition built (controller target : Element) : PopupInstance.Popup :=
  {| PopupInstance.controller := controller;
     PopupInstance.target := target;
     PopupInstance.firstChild :=
       head (Popup.interactiveChildElements target);
     PopupInstance.expanded := false |}.

End MenuBarInitSpec.

(** ** Where the focus is when a key reaches a MenuItem *)

Module MenuItemFocus.
Import MenuItemInstance.

(** [document.activeElement] is [a], an element inside the list. *)
Definition focusInside (this : MenuItem) (w : World) (a : Element) : Prop :=
  activeElement w = Some a /\ contains (list_ this) a = true.

(** [document.activeElement] is no element of the list. *)
Definition focusOutside (this : MenuItem) (w : World) : Prop :=
  match activeElement w with
  | Some e => contains (list_ this) e = false
  | None => True
  end.

(** The item a key press acts on: the focused element when the focus is
    inside the list, else the first collected link. *)
Definition activeItem (this : MenuItem) (w : World) (a : Element) : Prop :=
  focusInside this w a
  \/ (focusOutside this w /\ menuItems this !! 0%nat = Some a).

End MenuItemFocus.

(** ** Further sample documents *)

Module EdgeSamples.
Import Sample.

(** A list whose only link is followed by a nested list without any
    link. *)
Definition hollow : Element := ul 63 [li 64 [Elem 65 "SPAN" []]].
Definition hollowLink : Element := a 62 [].
Definition hollowMenu : Element := ul 60 [li 61 [hollowLink; hollow]].

(** [new MenuItem(hollowMenu)], with the focus on the link. *)
Definition hollowWorld : World :=
  focus hollowLink (MenuItem.new hollowMenu (page [hollowMenu])).

(** A list whose only link is followed by an ordered list.  [init] builds
    no instance on it; [numberedWorld] is the page after
    [new MenuItem(plainMenu)] and [new MenuItem(numbered)], with the focus
    on the link. *)
Definition numbered : Element := Elem 73 "OL" [li 74 [a 75 []]].
Definition plainLink : Element := a 72 [].
Definition plainMenu : Element := ul 70 [li 71 [plainLink; numbered]].

Definition numberedWorld : World :=
  focus plainLink
    (MenuItem.new numbered (MenuItem.new plainMenu (page [plainMenu]))).

(** The sample menubar after DOWN on its first link, which opens the
    popup of that link. *)
Definition barOpened : Ctx MenuBar.MenuBar :=
  snd (MenuBar.handleMenuBarKeydown domKeyCodes helper startsWith
         (keydown 40 (a 22 [label])) bar).

End EdgeSamples.

(** ** The states of an initialised menubar *)

Module MenuBarLive.
Import MenuBar MenuBarSpec.

Section Live.
Context (keyCodes : KeyCodes).
Context (nextPreviousFromLeftRight :
           Z -> option Element -> list Element -> option Element).
Context (itemMatches : string -> Element -> bool).
Context (Menu_new : Element -> M World Menu.Menu).

(** The states a menubar that [init] built on [menu] goes through: key
    presses, clicks and state updates, as in [step], and in between
    them any popup shown or hidden by a handler of its own.

    Modelled from the spec: the handlers of [Popup] are not among the
    sources; all such a handler does to the popup saved on an element
    is a [setState({ expanded })]. *)
Inductive live (menu : Element) (w : World) : Ctx MenuBar -> Prop :=
| live_init (c : Ctx MenuBar) :
    init Menu_new (mkCtx w (blank (Some menu))) = (Normal tt, c) ->
    live menu w c
| live_step (c c' : Ctx MenuBar) :
    live menu w c ->
    step keyCodes nextPreviousFromLeftRight itemMatches false c c' ->
    live menu w c'
| live_popup (c : Ctx MenuBar) (popup : Element) (expanded : bool) :
    live menu w c ->
    live menu w (mkCtx (Popup.setState popup expanded (world c)) (this c)).
End Live.

(** The sample menubar after a handler of the first link's popup has
    shown that popup. *)
Definition barShown : Ctx MenuBar :=
  mkCtx (Popup.show (Sample.a 22 [Sample.label]) (world Sample.bar))
    (this Sample.bar).

End MenuBarLive.

(** A menu whose second link is the one followed by a nested list. *)
Module LateNesting.
Import Sample.

Definition nested : Element := ul 85 [li 86 [a 87 []]].
Definition lateMenu : Element :=
  ul 80 [li 81 [a 82 []]; li 83 [a 84 []; nested]].

(** [new MenuItem(lateMenu)], with the focus on the second link. *)
Definition lateWorld : World :=
  focus (a 84 []) (MenuItem.new lateMenu (page [lateMenu])).

End LateNesting.


(** * Properties *)

(** ** Lists of element references *)

Lemma same_eq (a b : Element) : same a b = true <-> ident a = ident b.
Proof. unfold same. apply Nat.eqb_eq. Qed.

Lemma same_refl (a : Element) : same a a = true.
Proof. apply same_eq. reflexivity. Qed.

Lemma indexOf_range (items : list Element) (x : Element) :
  (-1 <= indexOf items x < Z.of_nat (length items))%Z.
Proof.
  induction items as [|a tl IH]; simpl; [lia|].
  destruct (same a x); [lia|].
  destruct (Z.ltb_spec (indexOf tl x) 0); lia.
Qed.

(** In an array of distinct elements, [indexOf] finds the position an
    element is stored at. *)
Lemma indexOf_lookup (items : list Element) (i : nat) (x a : Element) :
  NoDup (map ident items) ->
  items !! i = Some x ->
  ident a = ident x ->
  indexOf items a = Z.of_nat i.
Proof.
  revert i. induction items as [|b tl IH]; intros i Hnd Hi Ha; [done|].
  simpl in Hnd. apply NoDup_cons in Hnd as [Hb Hnd].
  destruct i as [|i]; simpl in *.
  - injection Hi as ->. rewrite (proj2 (same_eq x a)) by done. reflexivity.
  - destruct (same b a) eqn:Hs.
    + apply same_eq in Hs. exfalso. apply Hb.
      apply list_elem_of_fmap. exists x. split; [congruence|].
      by eapply list_elem_of_lookup_2.
    + rewrite (IH i Hnd Hi Ha).
      destruct (Z.ltb_spec (Z.of_nat i) 0); lia.
Qed.

Lemma indexOf_absent (items : list Element) (a : Element) :
  ident a ∉ map ident items -> indexOf items a = (-1)%Z.
Proof.
  induction items as [|b tl IH]; intros H; [done|].
  simpl in *. apply not_elem_of_cons in H as [Hb H].
  destruct (same b a) eqn:Hs.
  - apply same_eq in Hs. congruence.
  - rewrite (IH H). reflexivity.
Qed.

Lemma item_of_nat (items : list Element) (i : nat) :
  item items (Z.of_nat i) = items !! i.
Proof.
  unfold item. destruct (Z.ltb_spec (Z.of_nat i) 0); [lia|].
  by rewrite Nat2Z.id.
Qed.

(** ** MenuItem: arrow keys *)

Section MenuItemKeys.
Import MenuItemInstance.
Context (kc : KeyCodes).

Lemma activeIndex_collected (this : MenuItem) (w : World) (i : nat)
  (x a : Element) :
  NoDup (map ident (menuItems this)) ->
  menuItems this !! i = Some x ->
  MenuItem.activeDescendant this w = Some a ->
  ident a = ident x ->
  MenuItem.activeIndex this w = Z.of_nat i.
Proof.
  intros Hnd Hi Ha Hid. unfold MenuItem.activeIndex. rewrite Ha.
  by eapply indexOf_lookup.
Qed.

End MenuItemKeys.

(** ** Popup state *)

Lemma popupOf_setState (ref : Element) (b : bool) (w : World)
  (p : PopupInstance.Popup) :
  popupOf w !! ident ref = Some p ->
  popupOf (Popup.setState ref b w)
  = <[ident ref := PopupInstance.setExpanded b p]> (popupOf w).
Proof. intros H. unfold Popup.setState. rewrite H. reflexivity. Qed.

Lemma isExpanded_setState (ref : Element) (b : bool) (w : World) :
  is_Some (popupOf w !! ident ref) ->
  Popup.isExpanded ref (Popup.setState ref b w) = b.
Proof.
  intros [p Hp]. unfold Popup.isExpanded.
  rewrite (popupOf_setState _ _ _ _ Hp), lookup_insert_eq. reflexivity.
Qed.

Lemma activeElement_setState (ref : Element) (b : bool) (w : World) :
  activeElement (Popup.setState ref b w) = activeElement w.
Proof. unfold Popup.setState. by destruct (popupOf w !! ident ref). Qed.

Lemma flags_setState (ref : Element) (b : bool) (w : World) :
  defaultPrevented (Popup.setState ref b w) = defaultPrevented w
  /\ propagationStopped (Popup.setState ref b w) = propagationStopped w.
Proof. unfold Popup.setState. by destruct (popupOf w !! ident ref). Qed.

(** ** MenuItem: moving between a list and its nested list *)

Section MenuItemNesting.
Import MenuItemInstance.
Context (kc : KeyCodes).

(** A nested list without a collected link has no first item, and RIGHT
    throws after it has suppressed the event. *)
Lemma MenuItem_right_into_empty_list (this : MenuItem) (w : World)
  (ev : Event) (active sibling : Element) (sub : MenuItem) :
  RIGHT kc <> UP kc -> RIGHT kc <> DOWN kc ->
  keyCode ev = RIGHT kc ->
  MenuItem.activeDescendant this w = Some active ->
  nextElementSibling (document w) active = Some sibling ->
  nodeName sibling = "UL"%string ->
  menuItemOf w !! ident sibling = Some sub ->
  firstItem sub = None ->
  MenuItem.handleListKeydown kc ev (mkCtx w this)
  = (Throw TypeError, mkCtx (preventDefault (stopPropagation w)) this).
Proof.
  intros HRU HRD Hk Ha Hs Hul Hsub Hfirst.
  unfold MenuItem.handleListKeydown, bind, gets, onWorld, modify; simpl.
  rewrite Hk, Ha.
  destruct (Z.eqb_spec (RIGHT kc) (UP kc)) as [E|_]; [congruence|].
  destruct (Z.eqb_spec (RIGHT kc) (DOWN kc)) as [E|_]; [congruence|].
  rewrite Z.eqb_refl. simpl.
  unfold MenuItem.nextElementIsUl. rewrite Hs, Hul. simpl.
  rewrite Hsub, Hfirst. reflexivity.
Qed.

End MenuItemNesting.

(** ** Induction on the DOM tree *)

Lemma Element_children_ind (P : Element -> Prop) :
  (forall e, Forall P (children e) -> P e) -> forall e, P e.
Proof.
  intros H.
  refine (fix go (e : Element) : P e := _).
  apply H. destruct e as [n name cs]. simpl.
  induction cs as [|c cs IH]; constructor; [apply go | exact IH].
Qed.

(** Strong induction: a property holds of an element as soon as it holds
    of all its strict descendants. *)
Lemma Element_descendants_ind (P : Element -> Prop) :
  (forall e, (forall d, d ∈ descendants e -> P d) -> P e) -> forall e, P e.
Proof.
  intros H e.
  enough (P e /\ forall d, d ∈ descendants e -> P d) by tauto.
  induction e as [e IH] using Element_children_ind.
  assert (Hd : forall d, d ∈ descendants e -> P d).
  { intros d Hin. destruct e as [n name cs]. simpl in *.
    apply list_elem_of_In, in_flat_map in Hin as (c & Hc & Hin).
    rewrite Forall_forall in IH.
    apply list_elem_of_In in Hc. specialize (IH c Hc) as [Pc Pd].
    destruct Hin as [<-|Hin]; [exact Pc|].
    apply Pd. by apply list_elem_of_In. }
  split; [apply H; exact Hd | exact Hd].
Qed.

Lemma child_descendant (e c : Element) :
  c ∈ children e -> c ∈ descendants e.
Proof.
  intros Hc. destruct e as [n name cs]. simpl in *.
  apply list_elem_of_In, in_flat_map. exists c.
  split; [by apply list_elem_of_In | by left].
Qed.

Lemma grandchild_descendant (e c g : Element) :
  c ∈ children e -> g ∈ children c -> g ∈ descendants e.
Proof.
  intros Hc Hg. destruct e as [n name cs]. simpl in *.
  apply list_elem_of_In, in_flat_map. exists c.
  split; [by apply list_elem_of_In |].
  right. apply list_elem_of_In. by apply child_descendant.
Qed.

Lemma ident_in_idents (e : Element) : ident e ∈ idents e.
Proof. destruct e. simpl. left. Qed.

Lemma idents_child (e c : Element) (n : Node) :
  c ∈ children e -> n ∈ idents c -> n ∈ idents e.
Proof.
  intros Hc Hn. destruct e as [m name cs]. simpl in *. right.
  apply list_elem_of_In, in_flat_map. exists c.
  split; by apply list_elem_of_In.
Qed.

(** ** Collected links *)

Lemma collectLinks_acc (items acc : list Element) :
  fold_left
    (fun acc item =>
       match firstElementChild item with
       | Some itemLink =>
           if String.eqb "A" (nodeName itemLink)
           then acc ++ [itemLink] else acc
       | None => acc
       end) items acc
  = acc ++ MenuItem.collectLinks items.
Proof.
  unfold MenuItem.collectLinks.
  revert acc. induction items as [|item rest IH]; intros acc; cbn [fold_left].
  - by rewrite app_nil_r.
  - rewrite IH. symmetry. rewrite IH. symmetry.
    destruct (firstElementChild item) as [l|]; [|reflexivity].
    destruct (String.eqb "A" (nodeName l)); [|reflexivity].
    by rewrite <- app_assoc.
Qed.

Lemma collectLinks_cons (item : Element) (rest : list Element) :
  MenuItem.collectLinks (item :: rest)
  = linkOf item ++ MenuItem.collectLinks rest.
Proof.
  unfold MenuItem.collectLinks at 1. cbn [fold_left].
  rewrite collectLinks_acc.
  unfold linkOf.
  destruct (firstElementChild item) as [l|]; [|done].
  by destruct (String.eqb "A" (nodeName l)).
Qed.

(** Every collected link is the first element child of one of the items
    and is an anchor. *)
Lemma collectLinks_elem (items : list Element) (link : Element) :
  link ∈ MenuItem.collectLinks items ->
  exists item, item ∈ items /\ firstElementChild item = Some link
               /\ nodeName link = "A"%string.
Proof.
  induction items as [|item rest IH]; [by intros ?%elem_of_nil|].
  rewrite collectLinks_cons. intros [H|H]%elem_of_app.
  - unfold linkOf in H.
    destruct (firstElementChild item) as [l|] eqn:Hl; [|by apply elem_of_nil in H].
    destruct (String.eqb_spec "A" (nodeName l)); [|by apply elem_of_nil in H].
    apply list_elem_of_singleton in H as ->.
    exists item. split; [left|done].
  - destruct (IH H) as (it & ? & ?). exists it. split; [by right|done].
Qed.

Lemma collectLinks_length (items : list Element) :
  (length (MenuItem.collectLinks items) <= length items)%nat.
Proof.
  induction items as [|item rest IH]; [done|].
  rewrite collectLinks_cons, length_app. simpl.
  enough (length (linkOf item) <= 1)%nat by lia.
  unfold linkOf. destruct (firstElementChild item) as [l|]; [|simpl; lia].
  destruct (String.eqb "A" (nodeName l)); simpl; lia.
Qed.

(** All items contribute a link exactly when the two lengths agree. *)
Lemma collectLinks_all (items : list Element) :
  length (MenuItem.collectLinks items) = length items
  <-> Forall hasAnchorFirst items.
Proof.
  induction items as [|item rest IH]; [split; [constructor|done]|].
  rewrite collectLinks_cons, length_app. simpl.
  pose proof (collectLinks_length rest) as Hle.
  split.
  - intros H. unfold linkOf in H.
    destruct (firstElementChild item) as [l|] eqn:Hl; [|simpl in H; lia].
    destruct (String.eqb_spec "A" (nodeName l)) as [E|E]; [|simpl in H; lia].
    simpl in H. constructor; [by exists l|]. apply IH. lia.
  - intros H. apply Forall_cons in H as [(l & Hl & Hn) H].
    unfold linkOf. rewrite Hl, Hn. simpl. f_equal. by apply IH.
Qed.

(** ** MenuItem.init: size and position attributes *)

Section MenuItemInit.
Import MenuItemInstance.

Lemma initLink_other (this : MenuItem) (link : Element) (index : Z)
  (w : World) (n : Node) (name : string) :
  n <> ident link ->
  attributes (MenuItem.initLink this link index w) !! (n, name)
  = attributes w !! (n, name).
Proof.
  intros Hn. unfold MenuItem.initLink. cbn.
  rewrite !lookup_insert_ne by congruence. reflexivity.
Qed.

Lemma initLink_size (this : MenuItem) (link : Element) (index : Z)
  (w : World) :
  attributes (MenuItem.initLink this link index w)
    !! (ident link, "aria-setsize"%string)
  = Some (Num (menuItemsLength this))
  /\ attributes (MenuItem.initLink this link index w)
       !! (ident link, "aria-posinset"%string)
     = Some (Num (index + 1)).
Proof.
  unfold MenuItem.initLink. cbn. split.
  - rewrite lookup_insert_ne by (intros [=]).
    apply lookup_insert_eq.
  - apply lookup_insert_eq.
Qed.

Section Walk.
Context (rec : Element -> World -> World) (this : MenuItem).

Lemma initSubList_frame (link : Element) (after : list Element)
  (w : World) (n : Node) (name : string) :
  (forall c, c ∈ after -> framed rec c) ->
  n ∉ flat_map idents after ->
  attributes (MenuItem.initSubList rec link after w) !! (n, name)
  = attributes w !! (n, name).
Proof.
  intros Hrec Hn. unfold MenuItem.initSubList.
  destruct after as [|next after]; [done|].
  destruct (String.eqb "UL" (nodeName next)); [|done].
  cbn. apply Hrec; [left|].
  intros Hin. apply Hn. cbn. apply elem_of_app. by left.
Qed.

Lemma forEachLink_frame (items : list Element) (index : Z) (w : World)
  (n : Node) (name : string) :
  (forall item c, item ∈ items -> c ∈ children item -> framed rec c) ->
  n ∉ flat_map idents items ->
  attributes (MenuItem.forEachLink rec this items index w) !! (n, name)
  = attributes w !! (n, name).
Proof.
  revert index w.
  induction items as [|item rest IH]; intros index w Hrec Hn; [done|].
  cbn [flat_map] in Hn. apply not_elem_of_app in Hn as [Hitem Hrest].
  assert (Hrec' : forall item c,
             item ∈ rest -> c ∈ children item -> framed rec c).
  { intros it c Hit. apply Hrec. by right. }
  cbn [MenuItem.forEachLink].
  destruct (children item) as [|link after] eqn:Hch; [by apply IH|].
  destruct (String.eqb "A" (nodeName link)); [|by apply IH].
  rewrite IH by done.
  assert (Hsub : forall m, m ∈ flat_map idents (link :: after) ->
                           m ∈ idents item).
  { intros m Hm. destruct item as [k nm cs]. simpl in *. subst cs.
    by right. }
  rewrite initSubList_frame.
  - apply initLink_other. intros ->. apply Hitem, Hsub.
    cbn. apply elem_of_app. left. apply ident_in_idents.
  - intros c Hc. apply (Hrec item); [left|]. rewrite Hch. by right.
  - intros Hin. apply Hitem, Hsub. cbn. apply elem_of_app. by right.
Qed.

(** After the walk, the [k]-th link collected from [items] carries the
    set size and the position [index + k + 1]. *)
Lemma forEachLink_attributes (items : list Element) (index : Z)
  (w : World) (k : nat) (link : Element) :
  (forall item c, item ∈ items -> c ∈ children item -> framed rec c) ->
  NoDup (flat_map idents items) ->
  MenuItem.collectLinks items !! k = Some link ->
  let w' := MenuItem.forEachLink rec this items index w in
  getAttribute link "aria-setsize" w' = Some (Num (menuItemsLength this))
  /\ getAttribute link "aria-posinset" w'
     = Some (Num (index + Z.of_nat k + 1)).
Proof.
  revert index w k.
  induction items as [|item rest IH]; intros index w k Hrec Hnd Hk; [done|].
  cbn [flat_map] in Hnd. apply NoDup_app in Hnd as (Hitem & Hdisj & Hrest).
  assert (Hrec' : forall item c,
             item ∈ rest -> c ∈ children item -> framed rec c).
  { intros it c Hit. apply Hrec. by right. }
  rewrite collectLinks_cons in Hk. unfold linkOf, firstElementChild in Hk.
  cbn [MenuItem.forEachLink].
  destruct (children item) as [|l after] eqn:Hch; [by apply IH|].
  cbn [head] in Hk.
  destruct (String.eqb "A" (nodeName l)); [|by apply IH].
  destruct k as [|k].
  - cbn in Hk. injection Hk as ->.
    assert (Hsub : forall m, m ∈ flat_map idents (link :: after) ->
                             m ∈ idents item).
    { intros m Hm. destruct item as [j nm cs]. simpl in *. subst cs.
      by right. }
    assert (Hlink : ident link ∈ idents item).
    { apply Hsub. cbn. apply elem_of_app. left. apply ident_in_idents. }
    assert (Hafter : ident link ∉ flat_map idents after).
    { destruct item as [j nm cs]. simpl in Hch. subst cs.
      simpl in Hitem. apply NoDup_cons in Hitem as [_ Hitem].
      cbn [flat_map] in Hitem.
      apply NoDup_app in Hitem as (_ & Hd & _).
      apply Hd. apply ident_in_idents. }
    cbn zeta. unfold getAttribute.
    rewrite !forEachLink_frame by (try done; by apply Hdisj).
    assert (Hnested : forall c, c ∈ after -> framed rec c).
    { intros c Hc. apply (Hrec item); [left|]. rewrite Hch. by right. }
    rewrite !initSubList_frame by done.
    replace (index + Z.of_nat 0 + 1)%Z with (index + 1)%Z by lia.
    apply initLink_size.
  - cbn in Hk.
    replace (index + Z.of_nat (S k) + 1)%Z
      with ((index + 1) + Z.of_nat k + 1)%Z by lia.
    by apply IH.
Qed.
End Walk.

(** The constructor only writes attributes of elements of its list. *)
Lemma MenuItem_new_framed (lst : Element) : framed MenuItem.new lst.
Proof.
  induction lst as [lst IH] using Element_descendants_ind.
  intros w n name Hn.
  destruct lst as [j nm cs]. cbn [MenuItem.new].
  rewrite forEachLink_frame; [reflexivity| |].
  - intros item c Hitem Hc. apply IH.
    by eapply grandchild_descendant.
  - intros Hin. apply Hn. simpl. by right.
Qed.

Lemma MenuItem_new_attributes (lst : Element) (w : World) (k : nat)
  (link : Element) :
  wellFormed lst ->
  menuItems (MenuItem.instance lst) !! k = Some link ->
  getAttribute link "aria-setsize" (MenuItem.new lst w)
  = Some (Num (Z.of_nat (length (menuItems (MenuItem.instance lst)))))
  /\ getAttribute link "aria-posinset" (MenuItem.new lst w)
     = Some (Num (Z.of_nat k + 1)).
Proof.
  intros Hwf Hk. destruct lst as [j nm cs].
  unfold wellFormed in Hwf. simpl in Hwf.
  apply NoDup_cons in Hwf as [_ Hwf].
  cbn [MenuItem.new].
  pose proof (forEachLink_attributes MenuItem.new
                (MenuItem.instance (Elem j nm cs)) cs 0%Z
                (setMenuItemOf
                   (<[j := MenuItem.instance (Elem j nm cs)]> (menuItemOf w)) w)
                k link) as H.
  cbn zeta in H. rewrite Z.add_0_l in H. apply H; [|done|done].
  intros item c _ _. apply MenuItem_new_framed.
Qed.

End MenuItemInit.

(** ** Distinct identities *)

Lemma NoDup_idents_children (l : list Element) :
  NoDup (flat_map idents l) -> NoDup (map ident l).
Proof.
  induction l as [|a l IH]; intros H; [constructor|].
  cbn in *. apply NoDup_app in H as (Ha & Hd & Hl).
  apply NoDup_cons. split; [|by apply IH].
  intros Hin. apply list_elem_of_fmap in Hin as (b & Hb & Hbl).
  apply (Hd (ident a)); [apply ident_in_idents|].
  apply list_elem_of_In, in_flat_map. exists b.
  split; [by apply list_elem_of_In|].
  apply list_elem_of_In. rewrite Hb. apply ident_in_idents.
Qed.

Lemma idents_in_flat_map (l : list Element) (c : Element) (n : Node) :
  c ∈ l -> n ∈ idents c -> n ∈ flat_map idents l.
Proof.
  intros Hc Hn. apply list_elem_of_In, in_flat_map. exists c.
  split; by apply list_elem_of_In.
Qed.

(** In a well-formed list of siblings, no sibling's identity occurs below
    any of the siblings. *)
Lemma sibling_not_below (l : list Element) (child item c : Element) :
  NoDup (flat_map idents l) ->
  child ∈ l -> item ∈ l -> c ∈ children item ->
  ident child ∉ idents c.
Proof.
  induction l as [|a l IH]; intros Hnd Hchild Hitem Hc Hin;
    [by apply elem_of_nil in Hchild|].
  cbn in Hnd. apply NoDup_app in Hnd as (Ha & Hd & Hl).
  assert (Hbelow : ident child ∈ idents item)
    by (by eapply idents_child).
  apply elem_of_cons in Hchild as [->|Hchild];
    apply elem_of_cons in Hitem as [->|Hitem].
  - destruct a as [j nm cs]. simpl in *.
    apply NoDup_cons in Ha as [Hj _]. apply Hj.
    by eapply idents_in_flat_map.
  - apply (Hd (ident a)); [apply ident_in_idents|].
    by eapply idents_in_flat_map.
  - apply (Hd (ident child)); [done|].
    eapply idents_in_flat_map; [done|apply ident_in_idents].
  - by eapply IH.
Qed.

(** ** MenuBar.init: size and position attributes *)

Section MenuBarInit.
Import MenuBar RovingTabIndex.
Context (Menu_new : Element -> M World Menu.Menu).

Lemma attributes_Popup_new (controller target : Element) (w : World)
  (n : Node) (name : string) :
  name <> "aria-expanded"%string -> name <> "aria-hidden"%string ->
  attributes (Popup.new controller target w) !! (n, name)
  = attributes w !! (n, name).
Proof.
  intros H1 H2. unfold Popup.new, Popup.stateWasUpdated. cbn.
  rewrite !lookup_insert_ne by congruence. reflexivity.
Qed.

Lemma attributes_rovingTabIndex (items : list Element) (allow : Element)
  (w : World) (n : Node) (name : string) :
  name <> "tabindex"%string ->
  attributes (rovingTabIndex items allow w) !! (n, name)
  = attributes w !! (n, name).
Proof.
  intros Hname. unfold rovingTabIndex. revert w.
  induction items as [|a items IH]; intros w; [done|].
  cbn [fold_left]. rewrite IH.
  destruct (same a allow); cbn.
  - rewrite lookup_delete_ne by congruence. reflexivity.
  - rewrite lookup_insert_ne by congruence. reflexivity.
Qed.

Lemma attributes_initLinks (menu : Element) (links : list Element)
  (w : World) (n : Node) (name : string) :
  name <> "aria-describedby"%string ->
  attributes (initLinks menu links w) !! (n, name)
  = attributes w !! (n, name).
Proof.
  intros Hname. unfold initLinks. revert w.
  induction links as [|a links IH]; intros w; [done|].
  cbn [fold_left]. rewrite IH. cbn.
  rewrite lookup_insert_ne by congruence. reflexivity.
Qed.

Lemma attributes_initPopups (items acc : list Element) (w : World)
  (n : Node) (name : string) :
  menuFramed Menu_new ->
  name <> "aria-expanded"%string -> name <> "aria-hidden"%string ->
  (forall item c, item ∈ items -> c ∈ children item -> n ∉ idents c) ->
  attributes (snd (initPopups Menu_new items acc w)) !! (n, name)
  = attributes w !! (n, name).
Proof.
  intros Hframe H1 H2. revert acc w.
  induction items as [|item rest IH]; intros acc w Hn; [done|].
  assert (Hn' : forall item c,
             item ∈ rest -> c ∈ children item -> n ∉ idents c).
  { intros it c Hit. apply Hn. by right. }
  cbn [initPopups].
  destruct (children item) as [|controller [|target after]] eqn:Hch;
    [by apply IH | by apply IH |].
  destruct (String.eqb "A" (nodeName controller)
            && String.eqb "UL" (nodeName target)); [|by apply IH].
  assert (Htarget : n ∉ idents target).
  { apply (Hn item); [left|]. rewrite Hch. right. left. }
  unfold bind at 1. unfold modify at 1.
  unfold bind at 1.
  pose proof (Hframe target (Popup.new controller target w) n name Htarget)
    as Hm.
  destruct (Menu_new target (Popup.new controller target w))
    as [[m|e] w1] eqn:Hnew; cbn [snd] in *.
  - rewrite IH by done. rewrite Hm, attributes_Popup_new by done.
    reflexivity.
  - rewrite Hm, attributes_Popup_new by done. reflexivity.
Qed.

Lemma childrenLoop_cons (menu : Element) (menuLength : Z) (a : Element)
  (l : list Element) (index : Z) (w : World) :
  childrenLoop menu menuLength (a :: l) (index, w)
  = childrenLoop menu menuLength l
      ((index + 1)%Z, initChild menu menuLength index a w).
Proof. reflexivity. Qed.

Lemma childrenLoop_other (menu : Element) (menuLength : Z)
  (children : list Element) (index : Z) (w : World) (n : Node)
  (name : string) :
  n ∉ map ident children ->
  attributes (snd (childrenLoop menu menuLength children (index, w)))
    !! (n, name)
  = attributes w !! (n, name).
Proof.
  revert index w.
  induction children as [|a l IH]; intros index w Hn; [done|].
  cbn in Hn. apply not_elem_of_cons in Hn as [Ha Hn].
  rewrite childrenLoop_cons, IH by done. cbn.
  rewrite !lookup_insert_ne by congruence. reflexivity.
Qed.

Lemma childrenLoop_attributes (menu : Element) (menuLength : Z)
  (children : list Element) (index : Z) (w : World) (k : nat)
  (child : Element) :
  NoDup (map ident children) ->
  children !! k = Some child ->
  let w' := snd (childrenLoop menu menuLength children (index, w)) in
  getAttribute child "aria-setsize" w' = Some (Num menuLength)
  /\ getAttribute child "aria-posinset" w'
     = Some (Num (index + Z.of_nat k + 1)).
Proof.
  revert index w k.
  induction children as [|a l IH]; intros index w k Hnd Hk; [done|].
  cbn in Hnd. apply NoDup_cons in Hnd as [Ha Hnd].
  destruct k as [|k].
  - cbn in Hk. injection Hk as ->. cbn zeta. unfold getAttribute.
    rewrite childrenLoop_cons, !childrenLoop_other by done. cbn.
    replace (index + Z.of_nat 0 + 1)%Z with (index + 1)%Z by lia.
    split.
    + rewrite !lookup_insert_ne by (intros [=]). apply lookup_insert_eq.
    + rewrite lookup_insert_ne by (intros [=]). apply lookup_insert_eq.
  - cbn in Hk. cbn zeta.
    replace (index + Z.of_nat (S k) + 1)%Z
      with ((index + 1) + Z.of_nat k + 1)%Z by lia.
    rewrite childrenLoop_cons. by apply IH.
Qed.

End MenuBarInit.
Section MenuBarInit2.
Import MenuBar RovingTabIndex.
Context (Menu_new : Element -> M World Menu.Menu).

(** The world [init] ends in is the world after the popups were built,
    with the roving tabindex applied when [init] got that far. *)
Lemma init_world (menu : Element) (w : World) :
  let items := MenuItem.collectLinks (children menu) in
  let w3 :=
    initLinks menu items
      (initChildren menu (Z.of_nat (length items)) (children menu)
         (setAttribute menu "role" (Str "menubar") w)) in
  let w4 := snd (initPopups Menu_new (children menu) [] w3) in
  let ctx := snd (init Menu_new (mkCtx w (blank (Some menu)))) in
  world ctx = w4
  \/ exists item, head items = Some item
                  /\ world ctx = rovingTabIndex items item w4.
Proof.
  intros items w3 w4 ctx. subst ctx.
  unfold init, bind, gets, onWorld, onThis, modify, liftWorld.
  cbn [world this MenuBar.menu blank fst snd setCollected menuBarItems].
  fold items. fold w3.
  subst w4.
  destruct (initPopups Menu_new (children menu) [] w3) as [[ps|e] w4];
    cbn [snd world]; [|by left].
  destruct (head items) as [item|] eqn:Hhead; cbn; [|by left].
  right. exists item. done.
Qed.
End MenuBarInit2.

Section SizeAndPosition.
Import MenuItemInstance.
Context (Menu_new : Element -> M World Menu.Menu).

Lemma MenuBar_init_attributes (menu : Element) (w : World) (k : nat)
  (child : Element) :
  menuFramed Menu_new ->
  wellFormed menu ->
  children menu !! k = Some child ->
  let w' := world (snd (MenuBar.init Menu_new
                          (mkCtx w (MenuBar.blank (Some menu))))) in
  getAttribute child "aria-setsize" w'
  = Some (Num (Z.of_nat (length (MenuItem.collectLinks (children menu)))))
  /\ getAttribute child "aria-posinset" w' = Some (Num (Z.of_nat k + 1)).
Proof.
  intros Hframe Hwf Hk w'.
  assert (Hnd : NoDup (flat_map idents (children menu))).
  { destruct menu as [j nm cs]. unfold wellFormed in Hwf. simpl in *.
    by apply NoDup_cons in Hwf as [_ Hwf]. }
  assert (Hchild : child ∈ children menu)
    by (by eapply list_elem_of_lookup_2).
  assert (Hbelow : forall item c,
             item ∈ children menu -> c ∈ children item ->
             ident child ∉ idents c).
  { intros item c Hitem Hc. by eapply sibling_not_below. }
  pose proof (childrenLoop_attributes menu
                (Z.of_nat (length (MenuItem.collectLinks (children menu))))
                (children menu) 0
                (setAttribute menu "role" (Str "menubar") w) k child
                (NoDup_idents_children _ Hnd) Hk) as Hloop.
  cbn zeta in Hloop. rewrite Z.add_0_l in Hloop.
  fold (MenuBar.initChildren menu
          (Z.of_nat (length (MenuItem.collectLinks (children menu))))
          (children menu)
          (setAttribute menu "role" (Str "menubar") w)) in Hloop.
  unfold getAttribute in *.
  destruct (init_world Menu_new menu w) as [Hw|(item & _ & Hw)];
    subst w'; rewrite Hw.
  - rewrite !attributes_initPopups, !attributes_initLinks by done.
    exact Hloop.
  - rewrite !attributes_rovingTabIndex by done.
    rewrite !attributes_initPopups, !attributes_initLinks by done.
    exact Hloop.
Qed.

(** C10. After [MenuItem.init] on a well-formed list, the [k]-th
    collected link (counting from 0) has [aria-setsize] equal to the
    number of collected links and [aria-posinset] equal to [k + 1], which
    lies between 1 and that number.  After [MenuBar.init] on a
    well-formed menubar whose nested menus keep to their own lists, the
    [k]-th child has [aria-posinset] equal to [k + 1] and [aria-setsize]
    equal to the number of children with an anchor first; so the position
    is at most the set size on every child exactly when every child has
    an anchor as its first element child. *)
Theorem aria_setsize_posinset (lst menu : Element) (w : World) :
  wellFormed lst ->
  wellFormed menu ->
  menuFramed Menu_new ->
  (let collected := menuItems (MenuItem.instance lst) in
   forall k link,
     collected !! k = Some link ->
     getAttribute link "aria-setsize" (MenuItem.new lst w)
     = Some (Num (Z.of_nat (length collected)))
     /\ getAttribute link "aria-posinset" (MenuItem.new lst w)
        = Some (Num (Z.of_nat k + 1))
     /\ (1 <= Z.of_nat k + 1 <= Z.of_nat (length collected))%Z)
  /\
  (let w' := world (snd (MenuBar.init Menu_new
                           (mkCtx w (MenuBar.blank (Some menu))))) in
   let anchors := length (MenuItem.collectLinks (children menu)) in
   (forall k child,
      children menu !! k = Some child ->
      getAttribute child "aria-posinset" w' = Some (Num (Z.of_nat k + 1))
      /\ getAttribute child "aria-setsize" w' = Some (Num (Z.of_nat anchors)))
   /\
   ((forall child p s,
       child ∈ children menu ->
       getAttribute child "aria-posinset" w' = Some (Num p) ->
       getAttribute child "aria-setsize" w' = Some (Num s) ->
       (p <= s)%Z)
    <-> Forall hasAnchorFirst (children menu))).
Proof.
  intros Hlst Hmenu Hframe. split.
  - intros collected k link Hk.
    destruct (MenuItem_new_attributes lst w k link Hlst Hk) as [Hs Hp].
    repeat split; try done; try lia.
    apply lookup_lt_Some in Hk. fold collected. lia.
  - intros w' anchors.
    assert (Hattr : forall k child,
               children menu !! k = Some child ->
               getAttribute child "aria-posinset" w'
               = Some (Num (Z.of_nat k + 1))
               /\ getAttribute child "aria-setsize" w'
                  = Some (Num (Z.of_nat anchors))).
    { intros k child Hk.
      destruct (MenuBar_init_attributes menu w k child Hframe Hmenu Hk).
      done. }
    split; [exact Hattr|].
    rewrite <- collectLinks_all. fold anchors.
    pose proof (collectLinks_length (children menu)) as Hle.
    fold anchors in Hle. split.
    + intros Hbound.
      destruct (decide (length (children menu) = 0)%nat) as [E|E].
      { lia. }
      destruct (children menu !! (length (children menu) - 1)%nat)
        as [child|] eqn:Hlast.
      2:{ apply lookup_ge_None in Hlast. lia. }
      destruct (Hattr _ _ Hlast) as [Hp Hs].
      pose proof (Hbound child _ _
                    (list_elem_of_lookup_2 _ _ _ Hlast) Hp Hs).
      lia.
    + intros Hall child p s Hchild Hp Hs.
      apply list_elem_of_lookup_1 in Hchild as [k Hk].
      destruct (Hattr _ _ Hk) as [Hp' Hs'].
      rewrite Hp' in Hp. rewrite Hs' in Hs.
      injection Hp as <-. injection Hs as <-.
      apply lookup_lt_Some in Hk. lia.
Qed.

End SizeAndPosition.

(** ** Roving tabindex *)

Section Roving.
Import RovingTabIndex.

Lemma rovingTabIndex_cons (a : Element) (items : list Element)
  (allow : Element) (w : World) :
  rovingTabIndex (a :: items) allow w
  = rovingTabIndex items allow
      (if same a allow then removeAttribute a "tabindex" w
       else setAttribute a "tabindex" (Num (-1)) w).
Proof. reflexivity. Qed.

Lemma rovingTabIndex_other (items : list Element) (allow : Element)
  (w : World) (n : Node) (name : string) :
  n ∉ map ident items ->
  attributes (rovingTabIndex items allow w) !! (n, name)
  = attributes w !! (n, name).
Proof.
  revert w. induction items as [|a items IH]; intros w Hn; [done|].
  cbn in Hn. apply not_elem_of_cons in Hn as [Ha Hn].
  rewrite rovingTabIndex_cons, IH by done.
  destruct (same a allow); cbn.
  - rewrite lookup_delete_ne by congruence. reflexivity.
  - rewrite lookup_insert_ne by congruence. reflexivity.
Qed.

(** After [rovingTabIndex], an item has no [tabindex] if it is the
    allowed one and [tabindex="-1"] otherwise. *)
Lemma rovingTabIndex_tabindex (items : list Element) (allow : Element)
  (w : World) (x : Element) :
  NoDup (map ident items) ->
  x ∈ items ->
  getAttribute x "tabindex" (rovingTabIndex items allow w)
  = if same x allow then None else Some (Num (-1)).
Proof.
  revert w. induction items as [|a items IH]; intros w Hnd Hx;
    [by apply elem_of_nil in Hx|].
  cbn in Hnd. apply NoDup_cons in Hnd as [Ha Hnd].
  rewrite rovingTabIndex_cons.
  apply elem_of_cons in Hx as [->|Hx]; [|by apply IH].
  unfold getAttribute. rewrite rovingTabIndex_other by done.
  destruct (same a allow); cbn.
  - apply lookup_delete_eq.
  - apply lookup_insert_eq.
Qed.

Lemma inTabOrder_rovingTabIndex (items : list Element) (allow : Element)
  (w : World) (x : Element) :
  NoDup (map ident items) ->
  x ∈ items ->
  inTabOrder (rovingTabIndex items allow w) x = same x allow.
Proof.
  intros Hnd Hx. unfold inTabOrder.
  rewrite rovingTabIndex_tabindex by done.
  by destruct (same x allow).
Qed.

Lemma filter_none (P : Element -> Prop) `{forall e, Decision (P e)}
  (items : list Element) :
  (forall e, e ∈ items -> ~ P e) -> filter P items = [].
Proof.
  induction items as [|a items IH]; intros HP; [done|].
  rewrite filter_cons_False by (apply HP; left).
  apply IH. intros e He. apply HP. by right.
Qed.

(** Among distinct elements, the ones that share the identity of [x] are
    [x] alone. *)
Lemma filter_same (P : Element -> Prop) `{forall e, Decision (P e)}
  (items : list Element) (x : Element) :
  NoDup (map ident items) ->
  x ∈ items ->
  (forall e, e ∈ items -> P e <-> ident e = ident x) ->
  filter P items = [x].
Proof.
  induction items as [|a items IH]; intros Hnd Hx HP;
    [by apply elem_of_nil in Hx|].
  cbn in Hnd. apply NoDup_cons in Hnd as [Ha Hnd].
  assert (HP' : forall e, e ∈ items -> P e <-> ident e = ident x).
  { intros e He. apply HP. by right. }
  apply elem_of_cons in Hx as [->|Hx].
  - rewrite filter_cons_True by (apply HP; [left|done]).
    f_equal. apply filter_none. intros e He HPe.
    apply HP' in HPe; [|done]. apply Ha.
    apply list_elem_of_fmap. by exists e.
  - rewrite filter_cons_False; [by apply IH|].
    intros HPa. apply HP in HPa; [|left]. apply Ha.
    apply list_elem_of_fmap. by exists x.
Qed.

Lemma tabOrder_rovingTabIndex (items : list Element) (x : Element)
  (w : World) :
  NoDup (map ident items) ->
  x ∈ items ->
  filter (fun link => inTabOrder (rovingTabIndex items x w) link = true)
    items = [x].
Proof.
  intros Hnd Hx. apply filter_same; [done|done|].
  intros e He. rewrite inTabOrder_rovingTabIndex by done.
  apply same_eq.
Qed.

(** When the allowed element is none of the items, no item is left in
    the tab order. *)
Lemma tabOrder_rovingTabIndex_outside (items : list Element) (x : Element)
  (w : World) :
  NoDup (map ident items) ->
  ident x ∉ map ident items ->
  filter (fun link => inTabOrder (rovingTabIndex items x w) link = true)
    items = [].
Proof.
  intros Hnd Hx. apply filter_none. intros e He.
  rewrite inTabOrder_rovingTabIndex by done.
  intros Hs%same_eq. apply Hx. apply list_elem_of_fmap. by exists e.
Qed.

End Roving.

(** ** MenuBar: state updates *)

Section MenuBarState.
Import MenuBar RovingTabIndex MenuBarSpec.

(** What [setState({ menubarItem })] does when the item is defined. *)
Lemma setState_Some (item : Element) (c : Ctx MenuBar) :
  setState (Some item) c
  = (Normal tt,
     mkCtx
       (focus item (rovingTabIndex (menuBarItems (this c)) item (world c)))
       (assignPopup (popupOn (world c) item)
          (assignMenubarItem (Some item) (this c)))).
Proof. reflexivity. Qed.

(** On [undefined] it throws, after the item was merged into the
    state. *)
Lemma setState_None (c : Ctx MenuBar) :
  setState None c
  = (Throw TypeError, mkCtx (world c) (assignMenubarItem None (this c))).
Proof. reflexivity. Qed.

Lemma selected_setState (x : option Element) (c : Ctx MenuBar) :
  menubarItem (state (this (snd (setState x c)))) = x.
Proof. destruct x; reflexivity. Qed.

Lemma inTabOrder_attributes (w w' : World) (x : Element) :
  (forall n, attributes w' !! (n, "tabindex"%string)
             = attributes w !! (n, "tabindex"%string)) ->
  inTabOrder w' x = inTabOrder w x.
Proof. intros H. unfold inTabOrder, getAttribute. by rewrite H. Qed.

(** Selecting a collected link re-establishes the invariant and moves
    focus to the link. *)
Lemma setState_roving (x : Element) (c : Ctx MenuBar) :
  collected c ->
  x ∈ menuBarItems (this c) ->
  let c' := snd (setState (Some x) c) in
  fst (setState (Some x) c) = Normal tt
  /\ collected c'
  /\ rovingInvariant c'
  /\ menubarItem (state (this c')) = Some x
  /\ activeElement (world c') = Some x.
Proof.
  intros [Hnd Hlast] Hx c'. subst c'. rewrite setState_Some. cbn [fst snd].
  repeat split; try done.
  exists x. split; [reflexivity|].
  unfold tabOrder. cbn [world this assignPopup assignMenubarItem setStateOf
                          menuBarItems].
  rewrite <- (tabOrder_rovingTabIndex (menuBarItems (this c)) x (world c))
    by done.
  apply list_filter_iff. intros e.
  by rewrite (inTabOrder_attributes
                (rovingTabIndex (menuBarItems (this c)) x (world c))).
Qed.

(** Selecting an element that is none of the collected links leaves no
    link in the tab order. *)
Lemma setState_outside (x : Element) (c : Ctx MenuBar) :
  collected c ->
  ident x ∉ map ident (menuBarItems (this c)) ->
  tabOrder (snd (setState (Some x) c)) = [].
Proof.
  intros [Hnd Hlast] Hx. rewrite setState_Some. cbn [fst snd].
  unfold tabOrder. cbn [world this assignPopup assignMenubarItem setStateOf
                          menuBarItems].
  rewrite <- (tabOrder_rovingTabIndex_outside
                (menuBarItems (this c)) x (world c)) by done.
  apply list_filter_iff. intros e.
  by rewrite (inTabOrder_attributes
                (rovingTabIndex (menuBarItems (this c)) x (world c))).
Qed.

Lemma tabindex_Popup_setState (ref : Element) (b : bool) (w : World)
  (n : Node) :
  attributes (Popup.setState ref b w) !! (n, "tabindex"%string)
  = attributes w !! (n, "tabindex"%string).
Proof.
  unfold Popup.setState. destruct (popupOf w !! ident ref); [|done].
  unfold Popup.stateWasUpdated. cbn.
  rewrite !lookup_insert_ne by (intros [=]). reflexivity.
Qed.

Lemma popupOf_setState_menubar (x : option Element) (c : Ctx MenuBar) :
  popupOf (world (snd (setState x c))) = popupOf (world c).
Proof.
  destruct x as [x|]; [|reflexivity].
  rewrite setState_Some. cbn [snd world focus popupOf].
  generalize (world c). generalize (menuBarItems (this c)).
  induction l as [|a l IH]; intros w; [done|].
  rewrite rovingTabIndex_cons, IH. by destruct (same a x).
Qed.

Lemma popupOf_unfold_isExpanded (p : Element) (x : option Element)
  (c : Ctx MenuBar) :
  Popup.isExpanded p (world (snd (setState x c)))
  = Popup.isExpanded p (world c).
Proof.
  unfold Popup.isExpanded. by rewrite popupOf_setState_menubar.
Qed.

End MenuBarState.

(** ** MenuBar: key handling *)

(** Pairwise inequalities of the key codes, from [distinctCodes]. *)
Ltac distinct_codes H :=
  unfold distinctCodes in H;
  repeat match type of H with
         | NoDup (_ :: _) =>
             let F := fresh "Hfresh" in
             apply NoDup_cons in H as [F H];
             repeat (apply not_elem_of_cons in F as [? F])
         end.

(** Decide the comparisons of a handler's key code. *)
Ltac decide_keys :=
  repeat match goal with
         | |- context [(?a =? ?b)%Z] =>
             destruct (Z.eqb_spec a b); try congruence
         end.

Section MenuBarKeys.
Import MenuBar RovingTabIndex MenuBarSpec.
Context (kc : KeyCodes).
Context (nextPrev : Z -> option Element -> list Element -> option Element).
Context (matches : string -> Element -> bool).

Local Abbreviation handle := (handleMenuBarKeydown kc nextPrev matches).

Lemma item_last (items : list Element) :
  item items (Z.of_nat (length items) - 1) = last items.
Proof.
  rewrite last_lookup. destruct items as [|a items]; [done|].
  cbn [length pred].
  replace (Z.of_nat (S (length items)) - 1)%Z
    with (Z.of_nat (length items)) by lia.
  apply item_of_nat.
Qed.

(** LEFT and RIGHT, by what the helper resolves. *)
Lemma handle_left_right (c : Ctx MenuBar) (ev : Event) :
  keyCode ev = LEFT kc \/ keyCode ev = RIGHT kc ->
  let current := state (this c) in
  let handled := handle ev c in
  match nextPrev (keyCode ev) (menubarItem current) (menuBarItems (this c))
  with
  | Some nextItem =>
      let suppressed := preventDefault (stopPropagation (world c)) in
      let closed :=
        match popup current with
        | Some p => Popup.setState p false suppressed
        | None => suppressed
        end in
      handled = setState (Some nextItem) (mkCtx closed (this c))
      /\ menubarItem (state (this (snd handled))) = Some nextItem
      /\ forall p, popup current = Some p ->
                   Popup.isExpanded p (world (snd handled)) = false
  | None => handled = (Normal tt, c)
  end.
Proof.
  intros Hk current handled.
  assert (Hh : handled = handle ev c) by reflexivity.
  unfold handleMenuBarKeydown, bind at 1, gets at 1 in Hh.
  cbn beta iota in Hh. fold current in Hh.
  assert (Hb : ((keyCode ev =? LEFT kc)%Z || (keyCode ev =? RIGHT kc)%Z)
               = true).
  { destruct Hk as [-> | ->]; rewrite Z.eqb_refl; [done|apply orb_true_r]. }
  rewrite Hb in Hh.
  destruct (nextPrev (keyCode ev) (menubarItem current)
              (menuBarItems (this c))) as [nextItem|] eqn:Hnext.
  - assert (Hrun : handled
                   = setState (Some nextItem)
                       (mkCtx
                          match popup current with
                          | Some p =>
                              Popup.setState p false
                                (preventDefault (stopPropagation (world c)))
                          | None =>
                              preventDefault (stopPropagation (world c))
                          end (this c))).
    { rewrite Hh. unfold bind, onWorld, modify. cbn.
      by destruct (popup current). }
    split; [exact Hrun|]. split.
    + rewrite Hrun. apply selected_setState.
    + intros p Hp. rewrite Hrun, popupOf_unfold_isExpanded.
      rewrite Hp. cbn [world].
      destruct (popupOf (preventDefault (stopPropagation (world c)))
                  !! ident p) as [o|] eqn:Ho.
      * apply isExpanded_setState. by rewrite Ho.
      * unfold Popup.setState. rewrite Ho.
        unfold Popup.isExpanded. by rewrite Ho.
  - rewrite Hh. by destruct c.
Qed.

(** C8. A key that is none of LEFT, RIGHT, DOWN, HOME, END, SPACE and
    RETURN appends its character to the search string; the first
    collected link that matches the new search string, if there is one,
    becomes the selected item, and otherwise the selection stays. *)
Theorem MenuBar_type_ahead (c : Ctx MenuBar) (ev : Event) :
  keyCode ev ∉ [LEFT kc; RIGHT kc; DOWN kc; HOME kc; END kc; SPACE kc;
                RETURN kc] ->
  let search := (searchString (this c) ++ fromCharCode (keyCode ev))%string in
  let typed := mkCtx (world c) (setSearchString search (this c)) in
  let handled := handle ev c in
  let selected := menubarItem (state (this (snd handled))) in
  searchString (this (snd handled)) = search
  /\ match find (matches search) (menuBarItems (this c)) with
     | Some item =>
         handled = setState (Some item) typed /\ selected = Some item
     | None =>
         handled = (Normal tt, typed)
         /\ selected = menubarItem (state (this c))
     end.
Proof.
  intros Hk search typed handled selected.
  repeat (apply not_elem_of_cons in Hk as [? Hk]).
  assert (Hh : handled
               = match find (matches search) (menuBarItems (this c)) with
                 | Some item => setState (Some item) typed
                 | None => (Normal tt, typed)
                 end).
  { unfold handled, handleMenuBarKeydown, bind at 1, gets at 1.
    cbn beta iota. decide_keys. cbn [orb].
    unfold typeAhead, bind, onThis, modify, gets, ret. cbn.
    fold search. by destruct (find (matches search) (menuBarItems (this c))). }
  destruct (find (matches search) (menuBarItems (this c))) as [item|] eqn:Hf.
  - split; [|split; [done|]].
    + rewrite Hh, setState_Some. reflexivity.
    + subst selected. rewrite Hh. apply selected_setState.
  - subst selected. rewrite Hh. done.
Qed.

End MenuBarKeys.

(** ** MenuBar: the roving tabindex invariant *)

Section MenuBarInvariant.
Import MenuBar RovingTabIndex MenuBarSpec.
Context (kc : KeyCodes).
Context (nextPrev : Z -> option Element -> list Element -> option Element).
Context (matches : string -> Element -> bool).
Context (Menu_new : Element -> M World Menu.Menu).

Local Abbreviation handle := (handleMenuBarKeydown kc nextPrev matches).

Lemma collectLinks_idents (l : list Element) (link : Element) :
  link ∈ MenuItem.collectLinks l -> ident link ∈ flat_map idents l.
Proof.
  intros (item & Hitem & Hfirst & _)%collectLinks_elem.
  eapply idents_in_flat_map; [exact Hitem|].
  eapply idents_child; [|apply ident_in_idents].
  unfold firstElementChild in Hfirst.
  destruct (children item) as [|a l']; [done|].
  injection Hfirst as ->. left.
Qed.

Lemma collectLinks_NoDup (l : list Element) :
  NoDup (flat_map idents l) -> NoDup (map ident (MenuItem.collectLinks l)).
Proof.
  induction l as [|item rest IH]; intros Hnd; [constructor|].
  cbn in Hnd. apply NoDup_app in Hnd as (Hitem & Hdisj & Hrest).
  rewrite collectLinks_cons. unfold linkOf, firstElementChild.
  destruct (children item) as [|link after] eqn:Hch; [by apply IH|].
  cbn [head]. destruct (String.eqb "A" (nodeName link)); [|by apply IH].
  cbn. apply NoDup_cons. split; [|by apply IH].
  intros (x & Hx & Hin)%list_elem_of_fmap.
  apply (Hdisj (ident link)).
  - eapply idents_child; [|apply ident_in_idents]. rewrite Hch. left.
  - rewrite Hx. by apply collectLinks_idents.
Qed.

(** [init], when it completes, leaves the first collected link selected
    and alone in the tab order. *)
Lemma init_establishes (menu : Element) (w : World) (c : Ctx MenuBar) :
  wellFormed menu ->
  init Menu_new (mkCtx w (blank (Some menu))) = (Normal tt, c) ->
  collected c /\ rovingInvariant c.
Proof.
  intros Hwf Hinit.
  assert (Hnd : NoDup (map ident (MenuItem.collectLinks (children menu)))).
  { apply collectLinks_NoDup. destruct menu as [j nm cs].
    unfold wellFormed in Hwf. simpl in *.
    by apply NoDup_cons in Hwf as [_ Hwf]. }
  unfold init, bind, gets, onWorld, onThis, modify, liftWorld in Hinit.
  cbn [world this MenuBar.menu blank fst snd setCollected menuBarItems]
    in Hinit.
  destruct (initPopups Menu_new (children menu) [] _) as [[ps|e] w4];
    [|discriminate].
  destruct (head (MenuItem.collectLinks (children menu))) as [item|] eqn:Hhead;
    cbn in Hinit; [|discriminate].
  injection Hinit as <-. split; [split|].
  - exact Hnd.
  - reflexivity.
  - exists item. split; [reflexivity|].
    unfold tabOrder. cbn [world this menuBarItems].
    apply tabOrder_rovingTabIndex; [done|].
    by apply head_Some_elem_of.
Qed.

Lemma handle_cases (c : Ctx MenuBar) (ev : Event) :
  collected c ->
  menuBarItems (this c) <> [] ->
  resolvesItems nextPrev ->
  (exists x c1,
      x ∈ menuBarItems (this c)
      /\ menuBarItems (this c1) = menuBarItems (this c)
      /\ lastIndex (this c1) = lastIndex (this c)
      /\ handle ev c = setState (Some x) c1)
  \/ (let c' := snd (handle ev c) in
      menuBarItems (this c') = menuBarItems (this c)
      /\ lastIndex (this c') = lastIndex (this c)
      /\ state (this c') = state (this c)
      /\ forall n, attributes (world c') !! (n, "tabindex"%string)
                   = attributes (world c) !! (n, "tabindex"%string)).
Proof.
  intros [Hnd Hlast] Hne Hres.
  set (r := handle ev c).
  assert (Hr : r = handle ev c) by reflexivity.
  unfold handleMenuBarKeydown, bind at 1, gets at 1 in Hr.
  cbn beta iota in Hr. rewrite Hr. clear Hr r.
  destruct ((keyCode ev =? LEFT kc)%Z || (keyCode ev =? RIGHT kc)%Z).
  { destruct (nextPrev _ _ _) as [nextItem|] eqn:Hnext.
    - left.
      exists nextItem,
        (mkCtx match popup (state (this c)) with
               | Some p => Popup.setState p false
                             (preventDefault (stopPropagation (world c)))
               | None => preventDefault (stopPropagation (world c))
               end (this c)).
      split; [by eapply Hres|]. do 2 (split; [reflexivity|]).
      unfold bind, onWorld, modify. cbn.
      by destruct (popup (state (this c))).
    - right. unfold ret. cbn. done. }
  destruct ((keyCode ev =? SPACE kc)%Z || (keyCode ev =? RETURN kc)%Z
            || (keyCode ev =? DOWN kc)%Z).
  { right. destruct (popup (state (this c))) as [p|];
      [|unfold ret; cbn; done].
    unfold bind, onWorld, modify, gets, when, focusOrThrow, ret, throw.
    cbn.
    destruct (negb (Popup.isExpanded p _));
      destruct (popupOf (world c) !! ident p) as [o|];
      try destruct (PopupInstance.firstChild o);
      cbn; repeat split; try done; intros n;
      by rewrite ?tabindex_Popup_setState. }
  destruct (keyCode ev =? HOME kc)%Z.
  { left. destruct (menuBarItems (this c)) as [|x l] eqn:Hitems; [done|].
    exists x, (mkCtx (preventDefault (world c)) (this c)).
    cbn [this]. rewrite Hitems. split; [left|]. done. }
  destruct (keyCode ev =? END kc)%Z.
  { left. rewrite Hlast, item_last.
    destruct (last (menuBarItems (this c))) as [x|] eqn:Hl.
    2:{ by apply last_None in Hl. }
    exists x, (mkCtx (preventDefault (world c)) (this c)).
    split; [by apply last_Some_elem_of|]. done. }
  unfold typeAhead, bind, onThis, modify, gets, ret. cbn.
  destruct (find _ _) as [x|] eqn:Hf.
  - left.
    exists x,
      (mkCtx (world c)
         (setSearchString
            (searchString (this c) ++ fromCharCode (keyCode ev)) (this c))).
    split; [|done].
    apply find_some in Hf as [Hin _]. by apply list_elem_of_In.
  - right. cbn. done.
Qed.

(** Every operation keeps the invariant, and moves focus to the selected
    item whenever it selects another one. *)
Lemma step_preserves (c c' : Ctx MenuBar) :
  resolvesItems nextPrev ->
  collected c -> rovingInvariant c ->
  step kc nextPrev matches true c c' ->
  collected c' /\ rovingInvariant c'
  /\ (menubarItem (state (this c')) <> menubarItem (state (this c)) ->
      activeElement (world c') = menubarItem (state (this c'))).
Proof.
  intros Hres Hcol Hinv Hstep.
  assert (Hne : menuBarItems (this c) <> []).
  { destruct Hinv as (cur & _ & Htab). unfold tabOrder in Htab.
    intros E. rewrite E in Htab. discriminate. }
  assert (Hset : forall x c1,
             x ∈ menuBarItems (this c) ->
             menuBarItems (this c1) = menuBarItems (this c) ->
             lastIndex (this c1) = lastIndex (this c) ->
             let c2 := snd (setState (Some x) c1) in
             collected c2 /\ rovingInvariant c2
             /\ (menubarItem (state (this c2))
                 <> menubarItem (state (this c)) ->
                 activeElement (world c2) = menubarItem (state (this c2)))).
  { intros x c1 Hx Hitems Hlast c2.
    assert (Hcol1 : collected c1).
    { destruct Hcol. split; [by rewrite Hitems | by rewrite Hlast, Hitems]. }
    rewrite <- Hitems in Hx.
    destruct (setState_roving x c1 Hcol1 Hx)
      as (_ & Hcol2 & Hinv2 & Hsel & Hact).
    fold c2 in Hcol2, Hinv2, Hsel, Hact.
    split; [exact Hcol2|]. split; [exact Hinv2|].
    intros _. by rewrite Hsel, Hact. }
  inversion Hstep as [ev c0 E1 E2 | ev c0 Hin E1 E2 | x c0 Hin E1 E2];
    subst.
  - destruct (handle_cases c ev Hcol Hne Hres)
      as [(x & c1 & Hx & Hitems & Hlast & Hrun)
         | (Hitems & Hlast & Hstate & Htab)].
    + rewrite Hrun. by apply Hset.
    + destruct Hcol as [Hnd Hl]. destruct Hinv as (cur & Hcur & Hto).
      repeat split.
      * by rewrite Hitems.
      * by rewrite Hlast, Hitems.
      * exists cur. split; [by rewrite Hstate|].
        rewrite <- Hto. unfold tabOrder. rewrite Hitems.
        apply list_filter_iff. intros e.
        by rewrite (inTabOrder_attributes (world c)).
      * intros Hchg. by rewrite Hstate in Hchg.
  - unfold handleMenuBarClick. apply Hset; [by apply Hin|done|done].
  - apply Hset; [by apply Hin|done|done].
Qed.

End MenuBarInvariant.

(** ** MenuButton *)

Section MenuButtonProps.
Import MenuButton MenuButtonSpec.
Context (kc : KeyCodes).
Context (Menu_new : Element -> M World Menu.Menu).

Local Abbreviation handleKey := (handleControllerKeydown kc).

(** The handler on a key that opens the menu. *)
Lemma handle_open (property : Menu.Menu -> option Element)
  (b : MenuButton) (p : Element) (w : World) :
  popup b = Some p ->
  (onWorld preventDefault;;
   show;;
   b' <- gets this;;
   x <- readMenu (menu b') property;;
   focusIfAny x) (mkCtx w b)
  = (readCompletion (menu b),
     mkCtx (focusIfSome (menuItemOfField (menu b) property)
              (Popup.show p (preventDefault w))) b).
Proof.
  intros Hp. unfold bind, onWorld, modify, show, gets. cbn. rewrite Hp. cbn.
  destruct (menu b) as [|e|o]; cbn; try reflexivity.
  by destruct (property o).
Qed.

(** C5. On an initialised button (one whose popup exists), RETURN, SPACE
    and DOWN prevent the default action, show the popup and focus the
    first item of the menu when there is one; UP does the same with the
    last item; every other key changes nothing.  The handler completes
    normally unless [this.menu] is [null]. *)
Theorem MenuButton_open_and_focus (b : MenuButton) (p : Element)
  (w : World) (ev : Event) :
  UP kc <> RETURN kc -> UP kc <> SPACE kc -> UP kc <> DOWN kc ->
  popup b = Some p ->
  is_Some (popupOf w !! ident p) ->
  let shown := Popup.show p (preventDefault w) in
  let completion := readCompletion (menu b) in
  (keyCode ev ∈ [RETURN kc; SPACE kc; DOWN kc] ->
   handleKey ev (mkCtx w b)
   = (completion,
      mkCtx (focusIfSome (menuItemOfField (menu b) Menu.firstItem) shown) b))
  /\
  (keyCode ev = UP kc ->
   handleKey ev (mkCtx w b)
   = (completion,
      mkCtx (focusIfSome (menuItemOfField (menu b) Menu.lastItem) shown) b))
  /\
  (keyCode ev ∉ [RETURN kc; SPACE kc; DOWN kc; UP kc] ->
   handleKey ev (mkCtx w b) = (Normal tt, mkCtx w b))
  /\
  defaultPrevented shown = true
  /\ Popup.isExpanded p shown = true
  /\ (forall x, activeElement (focusIfSome (Some x) shown) = Some x)
  /\ activeElement shown = activeElement w.
Proof.
  intros HUR HUS HUD Hp Hreg shown completion.
  split; [|split; [|split]].
  - intros Hk.
    assert (Hb : ((keyCode ev =? RETURN kc)%Z || (keyCode ev =? SPACE kc)%Z
                  || (keyCode ev =? DOWN kc)%Z) = true).
    { repeat (apply elem_of_cons in Hk as [->|Hk]);
        [| | |by apply elem_of_nil in Hk];
        rewrite Z.eqb_refl; rewrite ?orb_true_r; reflexivity. }
    unfold handleControllerKeydown. rewrite Hb.
    by apply handle_open.
  - intros Hk. unfold handleControllerKeydown. rewrite Hk.
    decide_keys. cbn [orb]. by apply handle_open.
  - intros Hk. repeat (apply not_elem_of_cons in Hk as [? Hk]).
    unfold handleControllerKeydown. decide_keys. reflexivity.
  - subst shown. unfold Popup.show.
    destruct (flags_setState p true (preventDefault w)) as [-> _].
    split; [reflexivity|]. split; [by apply isExpanded_setState|].
    split; [reflexivity|]. by rewrite activeElement_setState.
Qed.

Lemma new_with_list (controller target lst : Element)
  (menuOption : option Element) (w : World) :
  menuList menuOption target = Some lst ->
  new Menu_new (Some controller) (Some target) menuOption w
  = match Menu_new lst (Popup.new controller target w) with
    | (Normal m, w2) =>
        (Normal tt,
         mkCtx (addEventListener controller "keydown"
                  (MenuButton_handleControllerKeydown (ident controller)) w2)
           {| controller := Some controller; target := Some target;
              menu := MenuObject m; popup := Some controller |})
    | (Throw e, w2) =>
        (Throw e,
         mkCtx w2
           {| controller := Some controller; target := Some target;
              menu := menuField menuOption; popup := Some controller |})
    end.
Proof.
  intros Hl. unfold new, init, initMenu, attachListener, bind, gets,
    onWorld, onThis, modify, liftWorld, menuIsUl. cbn -[String.eqb].
  unfold menuList in Hl. fold (menuField menuOption).
  destruct menuOption as [e|]; cbn -[String.eqb] in *.
  - destruct (String.eqb "UL" (nodeName e)).
    + injection Hl as <-.
      by destruct (Menu_new e _) as [[m|err] w2].
    + destruct (String.eqb "UL" (nodeName target)); [|discriminate].
      injection Hl as <-.
      by destruct (Menu_new target _) as [[m|err] w2].
  - destruct (String.eqb "UL" (nodeName target)); [|discriminate].
    injection Hl as <-.
    by destruct (Menu_new target _) as [[m|err] w2].
Qed.

Lemma new_without_list (controller target : Element)
  (menuOption : option Element) (w : World) :
  menuList menuOption target = None ->
  new Menu_new (Some controller) (Some target) menuOption w
  = (Normal tt,
     mkCtx (addEventListener controller "keydown"
              (MenuButton_handleControllerKeydown (ident controller))
              (Popup.new controller target w))
       {| controller := Some controller; target := Some target;
          menu := menuField menuOption; popup := Some controller |}).
Proof.
  intros Hl. unfold new, init, initMenu, attachListener, bind, gets,
    onWorld, onThis, modify, liftWorld, menuIsUl. cbn -[String.eqb].
  unfold menuList in Hl. fold (menuField menuOption).
  destruct menuOption as [e|]; cbn -[String.eqb] in *.
  - destruct (String.eqb "UL" (nodeName e)); [discriminate|].
    by destruct (String.eqb "UL" (nodeName target)).
  - by destruct (String.eqb "UL" (nodeName target)).
Qed.

(** A key that opens the menu completes as the read of [this.menu]
    does. *)
Lemma handle_opening_completion (b : MenuButton) (p : Element) (w : World)
  (ev : Event) :
  UP kc <> RETURN kc -> UP kc <> SPACE kc -> UP kc <> DOWN kc ->
  popup b = Some p ->
  keyCode ev ∈ [RETURN kc; SPACE kc; UP kc; DOWN kc] ->
  fst (handleKey ev (mkCtx w b)) = readCompletion (menu b).
Proof.
  intros HUR HUS HUD Hp Hk. unfold handleControllerKeydown.
  repeat (apply elem_of_cons in Hk as [->|Hk]);
    [| | | |by apply elem_of_nil in Hk].
  - rewrite Z.eqb_refl. cbn [orb]. by rewrite (handle_open _ _ p).
  - rewrite Z.eqb_refl, orb_true_r. cbn [orb].
    by rewrite (handle_open _ _ p).
  - decide_keys. cbn [orb]. by rewrite (handle_open _ _ p).
  - rewrite Z.eqb_refl, orb_true_r. by rewrite (handle_open _ _ p).
Qed.

(** C9. With a controller and a target, the constructor runs [init].
    When the [menu] option or else the target is a [UL] and the [Menu]
    built on it completes normally, [this.menu] is that [Menu] instance,
    the keydown listener is registered last, after the menu was built,
    and every later RETURN, SPACE, UP or DOWN completes normally.
    Otherwise [this.menu] keeps the option it was given, [null] or an
    element that is no [UL]; the handler reads a property of it all the
    same, and completes as that read does: it throws on [null]. *)
Theorem MenuButton_keydown_safety (controller target : Element)
  (menuOption : option Element) (w : World) :
  UP kc <> RETURN kc -> UP kc <> SPACE kc -> UP kc <> DOWN kc ->
  let constructed :=
    new Menu_new (Some controller) (Some target) menuOption w in
  let b := this (snd constructed) in
  let opening (ev : Event) :=
    keyCode ev ∈ [RETURN kc; SPACE kc; UP kc; DOWN kc] in
  (forall lst m w2,
     menuList menuOption target = Some lst ->
     Menu_new lst (Popup.new controller target w) = (Normal m, w2) ->
     fst constructed = Normal tt
     /\ menu b = MenuObject m
     /\ listeners (world (snd constructed))
        = listeners w2 ++ [listener controller]
     /\ forall ev w', opening ev ->
                      fst (handleKey ev (mkCtx w' b)) = Normal tt)
  /\
  (menuList menuOption target = None ->
   fst constructed = Normal tt
   /\ menu b = menuField menuOption
   /\ (forall m, menu b <> MenuObject m)
   /\ forall ev w', opening ev ->
                    fst (handleKey ev (mkCtx w' b))
                    = readCompletion (menuField menuOption)).
Proof.
  intros HUR HUS HUD constructed b opening. split.
  - intros lst m w2 Hl Hnew.
    assert (Hc : constructed
                 = (Normal tt,
                    mkCtx (addEventListener controller "keydown"
                             (MenuButton_handleControllerKeydown
                                (ident controller)) w2)
                      {| controller := Some controller;
                         target := Some target;
                         menu := MenuObject m;
                         popup := Some controller |})).
    { unfold constructed. rewrite (new_with_list _ _ lst) by done.
      by rewrite Hnew. }
    subst b. rewrite Hc. cbn [fst snd this world menu].
    repeat split.
    intros ev w' Hk.
    by rewrite (handle_opening_completion _ controller).
  - intros Hl.
    assert (Hc : constructed
                 = (Normal tt,
                    mkCtx (addEventListener controller "keydown"
                             (MenuButton_handleControllerKeydown
                                (ident controller))
                             (Popup.new controller target w))
                      {| controller := Some controller;
                         target := Some target;
                         menu := menuField menuOption;
                         popup := Some controller |})).
    { unfold constructed. by apply new_without_list. }
    subst b. rewrite Hc. cbn [fst snd this world menu].
    repeat split.
    + intros m. by destruct menuOption.
    + intros ev w' Hk.
      by rewrite (handle_opening_completion _ controller).
Qed.

End MenuButtonProps.

(** ** Dialog: the focus trap *)

Section DialogTrap.
Import Dialog.
Context (kc : KeyCodes).

Lemma contains_ident (e a b : Element) :
  ident a = ident b -> contains e a = contains e b.
Proof.
  intros Hab. induction e as [e IH] using Element_children_ind.
  destruct e as [j nm cs]. cbn [contains children] in *.
  f_equal; [unfold same; by rewrite Hab|].
  induction cs as [|c cs IHcs]; [done|].
  apply Forall_cons in IH as [Hc Hcs]. cbn [existsb].
  by rewrite Hc, IHcs.
Qed.

Lemma contains_self (e : Element) : contains e e = true.
Proof. destruct e. cbn [contains]. by rewrite same_refl. Qed.

Lemma contains_child (e c x : Element) :
  c ∈ children e -> contains c x = true -> contains e x = true.
Proof.
  intros Hc Hx. destruct e as [j nm cs]. cbn [contains children] in *.
  apply orb_true_iff. right. apply existsb_exists. exists c.
  split; [by apply list_elem_of_In|done].
Qed.

Lemma descendants_contains (e x : Element) :
  x ∈ descendants e -> contains e x = true.
Proof.
  induction e as [e IH] using Element_children_ind.
  intros Hx. destruct e as [j nm cs]. cbn [descendants children] in *.
  apply list_elem_of_In, in_flat_map in Hx as (c & Hc & Hx).
  apply list_elem_of_In in Hc.
  rewrite Forall_forall in IH.
  apply (contains_child _ c); [done|].
  destruct Hx as [<-|Hx]; [apply contains_self|].
  apply IH; [done|]. by apply list_elem_of_In.
Qed.

Lemma interactive_contains (e x : Element) :
  x ∈ Popup.interactiveChildElements e -> contains e x = true.
Proof.
  unfold Popup.interactiveChildElements.
  intros [_ Hx]%list_elem_of_filter. by apply descendants_contains.
Qed.

(** The neighbour of the element at position [i] of a tab sequence of
    distinct elements. *)
Lemma tabNeighbour_lookup (shift : bool) (a x : Element)
  (previous : option Element) (order : list Element) (i : nat) :
  NoDup (map ident order) ->
  order !! i = Some x ->
  ident a = ident x ->
  tabNeighbour shift a previous order
  = if shift then match i with
                  | O => previous
                  | S j => order !! j
                  end
    else order !! S i.
Proof.
  revert previous i.
  induction order as [|e rest IH]; intros previous i Hnd Hi Ha; [done|].
  cbn in Hnd. apply NoDup_cons in Hnd as [He Hnd].
  cbn [tabNeighbour]. destruct i as [|i].
  - cbn in Hi. injection Hi as ->.
    rewrite (proj2 (same_eq x a)) by done.
    destruct shift; [done|]. by rewrite head_lookup.
  - cbn in Hi. destruct (same e a) eqn:Hs.
    + apply same_eq in Hs. exfalso. apply He.
      apply list_elem_of_fmap. exists x.
      split; [congruence|by eapply list_elem_of_lookup_2].
    + rewrite (IH (Some e) i) by done.
      destruct shift; [|done]. by destruct i.
Qed.

(** Two elements of an array of distinct elements share an identity only
    at the same position. *)
Lemma same_position (items : list Element) (i j : nat) (x y : Element) :
  NoDup (map ident items) ->
  items !! i = Some x -> items !! j = Some y ->
  ident x = ident y -> i = j.
Proof.
  intros Hnd Hi Hj Hid.
  eapply (NoDup_lookup (map ident items)); [done| |].
  - rewrite list_lookup_fmap, Hi. reflexivity.
  - rewrite list_lookup_fmap, Hj. cbn. by rewrite Hid.
Qed.

(** The keydown handler on Tab, by cases on where the focus is. *)
Lemma handleTargetKeydown_tab (d : Dialog) (w : World) (shift : bool)
  (a x : Element) (i : nat) :
  TAB kc <> ESC kc ->
  visible d = true ->
  NoDup (map ident (interactiveChildElements d)) ->
  activeElement w = Some a ->
  interactiveChildElements d !! i = Some x ->
  ident a = ident x ->
  let n := length (interactiveChildElements d) in
  handleTargetKeydown kc (tabEvent kc shift a) (mkCtx w d)
  = if shift && Nat.eqb i 0 then
      (Normal tt,
       mkCtx (focusIfSome (last (interactiveChildElements d))
                (preventDefault w)) d)
    else if negb shift && Nat.eqb (S i) n then
      (Normal tt,
       mkCtx (focusIfSome (head (interactiveChildElements d))
                (preventDefault w)) d)
    else (Normal tt, mkCtx w d).
Proof.
  intros Hkeys Hvis Hnd Hact Hi Ha n.
  assert (Hlt : (i < n)%nat) by (by eapply lookup_lt_Some).
  remember (Nat.eqb i 0) as isFirst eqn:HisFirst.
  remember (Nat.eqb (S i) n) as isLast eqn:HisLast.
  unfold handleTargetKeydown, bind, gets. cbn. rewrite Hvis. cbn [andb].
  destruct (Z.eqb_spec (TAB kc) (ESC kc)) as [E|_]; [congruence|].
  rewrite Z.eqb_refl.
  destruct (head (interactiveChildElements d)) as [f|] eqn:Hf.
  2:{ apply head_None in Hf. rewrite Hf in Hi. done. }
  destruct (last (interactiveChildElements d)) as [l|] eqn:Hl.
  2:{ apply last_None in Hl. rewrite Hl in Hi. done. }
  rewrite head_lookup in Hf. rewrite last_lookup in Hl. fold n in Hl.
  unfold isActive. rewrite Hact.
  assert (Hfirst : same f a = isFirst).
  { subst isFirst. destruct (Nat.eqb_spec i 0) as [->|Hne].
    - rewrite Hf in Hi. injection Hi as ->. by apply same_eq.
    - apply not_true_is_false. intros Hs%same_eq. apply Hne.
      eapply same_position; [done|exact Hi|exact Hf|congruence]. }
  assert (Hlast : same l a = isLast).
  { subst isLast. destruct (Nat.eqb_spec (S i) n) as [E|Hne].
    - replace (pred n) with i in Hl by lia.
      rewrite Hl in Hi. injection Hi as ->. by apply same_eq.
    - apply not_true_is_false. intros Hs%same_eq. apply Hne.
      assert (i = pred n); [|lia].
      eapply same_position; [done|exact Hi|exact Hl|congruence]. }
  rewrite Hfirst, Hlast.
  unfold focusOrThrow, focusIfSome, onWorld, modify, ret.
  destruct shift; cbn [andb negb].
  - destruct isFirst; reflexivity.
  - destruct isLast; reflexivity.
Qed.

(** C6. With the dialog visible and the focus on one of its focusable
    elements: a Tab keydown on the last of them suppresses the default
    action and focuses the first, the close button; a Shift+Tab keydown
    on the first focuses the last; and after a Tab or Shift+Tab key
    press, the browser's default move included, the focus is again on a
    focusable element of the dialog. *)
Theorem Dialog_focus_trap (d : Dialog) (w : World) (a x : Element)
  (i : nat) (pre post : list Element) :
  TAB kc <> ESC kc ->
  visible d = true ->
  interactiveChildElements d = Popup.interactiveChildElements (target d) ->
  head (interactiveChildElements d) = Some (close d) ->
  Popup.interactiveChildElements (document w)
  = pre ++ interactiveChildElements d ++ post ->
  NoDup (map ident (Popup.interactiveChildElements (document w))) ->
  activeElement w = Some a ->
  interactiveChildElements d !! i = Some x ->
  ident a = ident x ->
  let n := length (interactiveChildElements d) in
  (S i = n ->
   dispatchKeydown kc (tabEvent kc false a) (mkCtx w d)
   = (Normal tt, mkCtx (focus (close d) (preventDefault w)) d))
  /\
  (i = 0%nat ->
   exists lastChild,
     last (interactiveChildElements d) = Some lastChild
     /\ dispatchKeydown kc (tabEvent kc true a) (mkCtx w d)
        = (Normal tt, mkCtx (focus lastChild (preventDefault w)) d))
  /\
  (forall shift,
   exists y,
     y ∈ interactiveChildElements d
     /\ contains (target d) y = true
     /\ activeElement (world (snd (pressTab kc shift (mkCtx w d))))
        = Some y).
Proof.
  intros Hkeys Hvis Hice Hclose Hseq Hnd Hact Hi Ha n.
  assert (Hlt : (i < n)%nat) by (by eapply lookup_lt_Some).
  assert (Hnd' : NoDup (map ident (interactiveChildElements d))).
  { rewrite Hseq, !map_app in Hnd.
    apply NoDup_app in Hnd as (_ & _ & Hnd).
    by apply NoDup_app in Hnd as (Hnd & _ & _). }
  assert (Hx : x ∈ interactiveChildElements d)
    by (by eapply list_elem_of_lookup_2).
  assert (Hinside : forall y,
             y ∈ interactiveChildElements d -> contains (target d) y = true).
  { intros y Hy. apply interactive_contains. by rewrite <- Hice. }
  assert (Hcontains : contains (target d) a = true).
  { rewrite (contains_ident _ a x) by done. by apply Hinside. }
  assert (Hdispatch : forall shift w0,
             activeElement w0 = Some a ->
             dispatchKeydown kc (tabEvent kc shift a) (mkCtx w0 d)
             = handleTargetKeydown kc (tabEvent kc shift a) (mkCtx w0 d)).
  { intros shift w0 _. unfold dispatchKeydown, bind, gets. cbn.
    by rewrite Hcontains. }
  destruct (last (interactiveChildElements d)) as [l|] eqn:Hl.
  2:{ apply last_None in Hl. rewrite Hl in Hi. done. }
  split; [|split].
  - intros Hlast. rewrite Hdispatch by done.
    rewrite (handleTargetKeydown_tab d w false a x i) by done.
    cbn [andb negb]. fold n. rewrite (proj2 (Nat.eqb_eq (S i) n) Hlast).
    by rewrite Hclose.
  - intros ->. exists l. split; [done|].
    rewrite Hdispatch by done.
    rewrite (handleTargetKeydown_tab d w true a x 0) by done.
    cbn [andb Nat.eqb]. by rewrite Hl.
  - intros shift.
    unfold pressTab, bind at 1, gets at 1. cbn beta iota. cbn [world].
    rewrite Hact.
    unfold bind at 1, onWorld at 1, modify at 1. cbn [world this].
    unfold bind at 1. rewrite Hdispatch by done.
    rewrite (handleTargetKeydown_tab d (clearFlags w) shift a x i) by done.
    fold n.
    assert (Hpos : (pre ++ interactiveChildElements d ++ post)
                     !! (length pre + i)%nat = Some x).
    { rewrite lookup_app_r by lia.
      replace (length pre + i - length pre)%nat with i by lia.
      by apply lookup_app_l_Some. }
    destruct shift; cbn [andb negb].
    + destruct (Nat.eqb_spec i 0) as [->|Hne].
      * rewrite Hl. cbn. exists l.
        split; [by apply last_Some_elem_of|].
        split; [apply Hinside; by apply last_Some_elem_of|done].
      * unfold bind, gets, onWorld, modify, ret.
        cbn -[Popup.interactiveChildElements]. rewrite Hseq.
        rewrite (tabNeighbour_lookup true a x None _ (length pre + i))
          by (try done; by rewrite <- Hseq).
        destruct i as [|j]; [done|].
        replace (length pre + S j)%nat with (S (length pre + j)) by lia.
        rewrite lookup_app_r by lia.
        replace (length pre + j - length pre)%nat with j by lia.
        destruct (interactiveChildElements d !! j) as [y|] eqn:Hy.
        2:{ apply lookup_ge_None in Hy. fold n in Hy. lia. }
        rewrite (lookup_app_l_Some _ _ _ _ Hy).
        exists y. split; [by eapply list_elem_of_lookup_2|].
        split; [apply Hinside; by eapply list_elem_of_lookup_2|done].
    + destruct (Nat.eqb_spec (S i) n) as [Hlast|Hne].
      * rewrite Hclose. cbn. exists (close d).
        assert (close d ∈ interactiveChildElements d)
          by (by apply head_Some_elem_of).
        split; [done|]. split; [by apply Hinside|done].
      * unfold bind, gets, onWorld, modify, ret.
        cbn -[Popup.interactiveChildElements]. rewrite Hseq.
        rewrite (tabNeighbour_lookup false a x None _ (length pre + i))
          by (try done; by rewrite <- Hseq).
        replace (S (length pre + i))%nat with (length pre + S i)%nat by lia.
        rewrite lookup_app_r by lia.
        replace (length pre + S i - length pre)%nat with (S i) by lia.
        destruct (interactiveChildElements d !! S i) as [y|] eqn:Hy.
        2:{ apply lookup_ge_None in Hy. fold n in Hy. lia. }
        rewrite (lookup_app_l_Some _ _ _ _ Hy).
        exists y. split; [by eapply list_elem_of_lookup_2|].
        split; [apply Hinside; by eapply list_elem_of_lookup_2|done].
Qed.

End DialogTrap.

(** ** Dismissal *)

Section Dismissal.
Context (kc : KeyCodes).

Lemma Dialog_hide_visible (c : Ctx Dialog.Dialog) :
  fst (Dialog.hide c) = Normal tt
  /\ Dialog.visible (this (snd (Dialog.hide c))) = false.
Proof. split; reflexivity. Qed.

(** C7. While a dialog is visible, an Escape keydown whose target lies
    inside the dialog, and a click on the overlay, each set [visible] to
    false.  While a popup is expanded, an Escape keydown on it, and a
    click outside its target and its controller, each set [expanded] to
    false. *)
Theorem close_on_escape_and_outside_click (d : Dialog.Dialog)
  (ref : Element) (p : PopupInstance.Popup) (w : World) (ev : Event) :
  Dialog.visible d = true ->
  popupOf w !! ident ref = Some p ->
  PopupInstance.expanded p = true ->
  (keyCode ev = ESC kc ->
   contains (Dialog.target d) (DomEvent.target ev) = true ->
   let closed := Dialog.dispatchKeydown kc ev (mkCtx w d) in
   fst closed = Normal tt /\ Dialog.visible (this (snd closed)) = false)
  /\
  (contains (Dialog.overlay d) (DomEvent.target ev) = true ->
   let closed := Dialog.handleClick ev (mkCtx w d) in
   fst closed = Normal tt /\ Dialog.visible (this (snd closed)) = false)
  /\
  (keyCode ev = ESC kc ->
   Popup.isExpanded ref (Popup.handleKeydown kc ref ev w) = false)
  /\
  (contains (PopupInstance.target p) (DomEvent.target ev) = false ->
   contains (PopupInstance.controller p) (DomEvent.target ev) = false ->
   Popup.isExpanded ref (Popup.handleOutsideClick ref ev w) = false).
Proof.
  intros Hvis Hp Hexp. split; [|split; [|split]].
  - intros Hk Hin closed. subst closed.
    unfold Dialog.dispatchKeydown, Dialog.handleTargetKeydown, bind, gets.
    cbn [this world fst snd]. rewrite Hin. cbn [this world].
    rewrite Hvis, Hk, Z.eqb_refl. cbn [andb].
    apply Dialog_hide_visible.
  - intros Hin closed. subst closed.
    unfold Dialog.handleClick, bind, gets. cbn [this world fst snd].
    rewrite Hin. cbn [orb]. apply Dialog_hide_visible.
  - intros Hk. unfold Popup.handleKeydown.
    rewrite Hp, Hexp, Hk, Z.eqb_refl. cbn [andb].
    apply isExpanded_setState. by rewrite Hp.
  - intros Ht Hc. unfold Popup.handleOutsideClick.
    rewrite Hp, Hexp, Ht, Hc. cbn [andb negb].
    apply isExpanded_setState. by rewrite Hp.
Qed.

End Dismissal.

(** ** MenuBar: roving tabindex *)

Section MenuBarRoving.
Import MenuBar RovingTabIndex MenuBarSpec.
Context (kc : KeyCodes).
Context (nextPrev : Z -> option Element -> list Element -> option Element).
Context (matches : string -> Element -> bool).
Context (Menu_new : Element -> M World Menu.Menu).

Lemma reachable_invariant (menu : Element) (w : World) (c : Ctx MenuBar) :
  wellFormed menu ->
  resolvesItems nextPrev ->
  reachable kc nextPrev matches Menu_new true menu w c ->
  collected c /\ rovingInvariant c.
Proof.
  intros Hwf Hres Hreach.
  induction Hreach as [c Hinit | c c' Hreach [Hcol Hinv] Hstep].
  - by eapply init_establishes.
  - destruct (step_preserves kc nextPrev matches c c' Hres Hcol Hinv Hstep)
      as (? & ? & _).
    done.
Qed.

(** The invariant along the operations that select a collected link.
    In every state of a menubar that [init] built on a well-formed list
    and that was reached by key presses, by clicks whose target is a
    collected link itself and by state updates that select a collected
    link, exactly one collected link is in the tab order, and it is
    [state.menubarItem]; every such operation keeps it so, and when it
    selects another item it moves focus to that item.  A click whose
    target is an element inside a link is not among these
    operations. *)
Theorem MenuBar_roving_tabindex (menu : Element) (w : World)
  (c : Ctx MenuBar) :
  wellFormed menu ->
  resolvesItems nextPrev ->
  reachable kc nextPrev matches Menu_new true menu w c ->
  rovingInvariant c
  /\ forall c',
       step kc nextPrev matches true c c' ->
       rovingInvariant c'
       /\ (menubarItem (state (this c')) <> menubarItem (state (this c)) ->
           activeElement (world c') = menubarItem (state (this c'))).
Proof.
  intros Hwf Hres Hreach.
  destruct (reachable_invariant menu w c Hwf Hres Hreach) as [Hcol Hinv].
  split; [exact Hinv|].
  intros c' Hstep.
  destruct (step_preserves kc nextPrev matches c c' Hres Hcol Hinv Hstep)
    as (_ & ? & ?).
  done.
Qed.

End MenuBarRoving.

Lemma nextPrevious_resolvesItems (kc : KeyCodes) :
  MenuBarSpec.resolvesItems (NextPrevious.nextPreviousFromLeftRight kc).
Proof.
  intros keyCode active items x.
  unfold NextPrevious.nextPreviousFromLeftRight, item.
  destruct active as [a|]; [|done].
  destruct (indexOf items a <? 0)%Z; [done|].
  destruct (keyCode =? LEFT kc)%Z.
  - destruct (_ <? 0)%Z; [done|]. apply list_elem_of_lookup_2.
  - destruct (keyCode =? RIGHT kc)%Z; [|done].
    destruct (_ <? 0)%Z; [done|]. apply list_elem_of_lookup_2.
Qed.

Lemma nextPrevious_resolvesNeighbours (kc : KeyCodes) :
  LEFT kc <> RIGHT kc ->
  MenuBarSpec.resolvesNeighbours kc (NextPrevious.nextPreviousFromLeftRight kc).
Proof.
  intros Hlr items i active x y Hnd Hi Hid.
  unfold NextPrevious.nextPreviousFromLeftRight.
  rewrite (indexOf_lookup items i x active Hnd Hi Hid).
  destruct (Z.ltb_spec (Z.of_nat i) 0); [lia|]. split.
  - intros Hy.
    destruct (Z.eqb_spec (RIGHT kc) (LEFT kc)); [congruence|].
    rewrite Z.eqb_refl.
    replace (Z.of_nat i + 1)%Z with (Z.of_nat (S i)) by lia.
    by rewrite item_of_nat.
  - intros j -> Hy. rewrite Z.eqb_refl.
    replace (Z.of_nat (S j) - 1)%Z with (Z.of_nat j) by lia.
    by rewrite item_of_nat.
Qed.

Lemma Menu_new_framed : menuFramed Menu.new.
Proof.
  intros target w n name Hn. unfold Menu.new. cbn.
  apply lookup_insert_ne. intros [= E _]. apply Hn. rewrite <- E.
  apply ident_in_idents.
Qed.

(** ** The sample menus *)

Section Samples.
Import Sample MenuBar MenuBarSpec.

Lemma wellFormed_menu : wellFormed Sample.menu.
Proof. apply (bool_decide_unpack _). vm_compute. exact I. Qed.

Lemma wellFormed_menubar : wellFormed menubar.
Proof. apply (bool_decide_unpack _). vm_compute. exact I. Qed.

Lemma bar_reachable (onLink : bool) :
  reachable domKeyCodes helper startsWith Menu.new onLink menubar
    (page [menubar]) bar.
Proof. apply reach_init. vm_compute. reflexivity. Qed.

(** C1.  The roving tabindex at the failing input.  The claim asks
    that after every state update exactly one menubar link, the selected
    item, is in the tab order.  [handleMenuBarClick] selects
    [event.target] as it is: a click on the [<span>] inside the first
    link of the sample menubar, a state [init] and one click reach, makes
    the span [state.menubarItem]; the span is none of the collected
    links, every link gets [tabindex="-1"], and no link is left in the
    tab order. *)
Lemma MenuBar_roving_tabindex_counterexample :
  exists c,
    reachable domKeyCodes helper startsWith Menu.new false menubar
      (page [menubar]) c
    /\ menubarItem (state (this c)) = Some label
    /\ (ident label ∉ map ident (menuBarItems (this c)))
    /\ tabOrder c = []
    /\ ~ rovingInvariant c.
Proof.
  exists (snd (handleMenuBarClick (keydown 0 label) bar)).
  assert (Htab : tabOrder (snd (handleMenuBarClick (keydown 0 label)
                                  bar)) = [])
    by (vm_compute; reflexivity).
  split; [|split; [|split; [|split]]].
  - eapply reach_step; [apply bar_reachable|].
    apply step_click. discriminate.
  - vm_compute. reflexivity.
  - apply (bool_decide_unpack _). vm_compute. exact I.
  - exact Htab.
  - intros (cur & _ & Hcur). rewrite Htab in Hcur. discriminate.
Qed.

End Samples.

(** ** The theorems at the sample documents *)

Section AtSamples.
Import Sample.

Lemma distinct_domKeyCodes : distinctCodes domKeyCodes.
Proof. apply (bool_decide_unpack _). vm_compute. exact I. Defined.

Lemma MenuBar_roving_tabindex_witness :
  wellFormed menubar
  /\ MenuBarSpec.resolvesItems helper
  /\ MenuBarSpec.rovingInvariant bar.
Proof.
  assert (Hwf : wellFormed menubar)
    by (apply (bool_decide_unpack _); vm_compute; exact I).
  assert (Hreach : MenuBarSpec.reachable domKeyCodes helper startsWith
                     Menu.new true menubar (page [menubar]) bar)
    by (apply MenuBarSpec.reach_init; vm_compute; reflexivity).
  split; [exact Hwf|].
  split; [apply nextPrevious_resolvesItems|].
  destruct (MenuBar_roving_tabindex domKeyCodes helper startsWith Menu.new
              menubar (page [menubar]) bar Hwf
              (nextPrevious_resolvesItems domKeyCodes) Hreach)
    as [Hinv _].
  exact Hinv.
Defined.

Lemma MenuBar_type_ahead_witness :
  MenuBar.menubarItem
    (MenuBar.state
       (this (snd (MenuBar.handleMenuBarKeydown domKeyCodes helper
                     startsWith (keydown 69 (a 22 [])) bar))))
  = Some (a 29 []).
Proof.
  destruct (MenuBar_type_ahead domKeyCodes helper startsWith bar
              (keydown 69 (a 22 []))) as [_ Hfound].
  - apply (bool_decide_unpack _). vm_compute. exact I.
  - vm_compute in Hfound. destruct Hfound as [_ Hsel].
    vm_compute. exact Hsel.
Defined.

Lemma MenuButton_open_and_focus_witness :
  MenuButton.handleControllerKeydown domKeyCodes (keydown 40 trigger) button
  = (Normal tt,
     mkCtx (focus (a 3 [])
              (Popup.show trigger (preventDefault (world button))))
       (this button)).
Proof.
  destruct (MenuButton_open_and_focus domKeyCodes (this button) trigger
              (world button) (keydown 40 trigger)) as (Hopen & _);
    try (vm_compute; discriminate).
  - reflexivity.
  - eexists. vm_compute. reflexivity.
  - apply Hopen. vm_compute. right. right. left.
Defined.

Lemma MenuButton_keydown_safety_witness :
  MenuButton.menu (this button)
  = MenuButton.MenuObject
      {| Menu.firstItem := Some (a 3 []); Menu.lastItem := Some (a 14 []) |}
  /\ fst (MenuButton.handleControllerKeydown domKeyCodes
            (keydown 38 trigger) (mkCtx (world button) (this button)))
     = Normal tt.
Proof.
  destruct (MenuButton_keydown_safety domKeyCodes Menu.new trigger menu None
              (page [trigger; menu])) as [Hsafe _];
    try (vm_compute; discriminate).
  destruct (Hsafe menu
              {| Menu.firstItem := Some (a 3 []);
                 Menu.lastItem := Some (a 14 []) |}
              (setAttribute menu "role" (Str "menu")
                 (Popup.new trigger menu (page [trigger; menu])))
              eq_refl eq_refl)
    as (_ & Hmenu & _ & Hkeys).
  split; [exact Hmenu|].
  apply (Hkeys (keydown 38 trigger) (world button)).
  vm_compute. right. right. left.
Defined.

Lemma Dialog_focus_trap_witness :
  Dialog.dispatchKeydown domKeyCodes DialogTest.keydownShiftTab
    DialogTest.opened
  = (Normal tt,
     mkCtx (focus DialogTest.lastItem
              (preventDefault (world DialogTest.opened)))
       (this DialogTest.opened)).
Proof.
  assert (Hkeys : TAB domKeyCodes <> ESC domKeyCodes)
    by (vm_compute; discriminate).
  assert (Hnd : NoDup (map ident (Popup.interactiveChildElements
                                    (document (world DialogTest.opened)))))
    by (apply (bool_decide_unpack _); vm_compute; exact I).
  destruct (Dialog_focus_trap domKeyCodes (this DialogTest.opened)
              (world DialogTest.opened) DialogTest.close DialogTest.close
              0 [DialogTest.controller] [] Hkeys eq_refl eq_refl eq_refl
              eq_refl Hnd eq_refl eq_refl eq_refl)
    as (_ & Hfirst & _).
  destruct (Hfirst eq_refl) as (l & Hl & Hrun).
  vm_compute in Hl. injection Hl as <-. exact Hrun.
Defined.

Lemma close_on_escape_and_outside_click_witness :
  Dialog.visible
    (this (snd (Dialog.dispatchKeydown domKeyCodes DialogTest.keydownEsc
                  (mkCtx (Popup.show (a 22 [label]) (world bar))
                     (this DialogTest.opened))))) = false.
Proof.
  destruct (close_on_escape_and_outside_click domKeyCodes
              (this DialogTest.opened) (a 22 [label])
              {| PopupInstance.controller := a 22 [label];
                 PopupInstance.target := ul 25 [li 26 [a 27 []]];
                 PopupInstance.firstChild := Some (a 27 []);
                 PopupInstance.expanded := true |}
              (Popup.show (a 22 [label]) (world bar))
              DialogTest.keydownEsc eq_refl eq_refl eq_refl)
    as (Hesc & _).
  destruct (Hesc eq_refl eq_refl) as [_ Hclosed].
  exact Hclosed.
Defined.

Lemma aria_setsize_posinset_witness :
  wellFormed menu /\ wellFormed menubar /\ menuFramed Menu.new
  /\ getAttribute (a 14 []) "aria-posinset" menuWorld = Some (Num 3)
  /\ getAttribute (a 14 []) "aria-setsize" menuWorld = Some (Num 3).
Proof.
  assert (H1 : wellFormed menu)
    by (apply (bool_decide_unpack _); vm_compute; exact I).
  assert (H2 : wellFormed menubar)
    by (apply (bool_decide_unpack _); vm_compute; exact I).
  split; [exact H1|]. split; [exact H2|].
  split; [exact Menu_new_framed|].
  destruct (aria_setsize_posinset Menu.new menu menubar (page [menu])
              H1 H2 Menu_new_framed) as [Hitem _].
  destruct (Hitem 2%nat (a 14 []) eq_refl) as (Hs & Hp & _).
  split; [exact Hp | exact Hs].
Defined.

End AtSamples.

(** ** The tests of [src/Dialog/Dialog.test.js], run on the model *)

Section DialogTests.
Import DialogTest.

(** "Should reflect the accurate state" *)
Example Dialog_test_state :
  let hidden := snd (Dialog.setState false modal) in
  let shown := snd (Dialog.show hidden) in
  let closed := snd (Dialog.hide shown) in
  Dialog.visible (this shown) = true
  /\ activeIdent shown = Some (ident close)
  /\ Dialog.visible (this closed) = false
  /\ activeIdent closed = Some (ident controller).
Proof. vm_compute. repeat split. Qed.

(** "Should trap keyboard tabs within the modal" *)
Example Dialog_test_trap :
  let back := snd (Dialog.dispatchKeydown domKeyCodes keydownShiftTab
                     opened) in
  let forth := snd (Dialog.dispatchKeydown domKeyCodes keydownTab back) in
  activeIdent back = Some (ident lastItem)
  /\ activeIdent forth = Some (ident close).
Proof. vm_compute. repeat split. Qed.

(** "Should close when the ESC key is pressed" *)
Example Dialog_test_escape :
  let focused := mkCtx (focus lastItem (world opened)) (this opened) in
  Dialog.visible
    (this (snd (Dialog.dispatchKeydown domKeyCodes keydownEsc focused)))
  = false.
Proof. vm_compute. reflexivity. Qed.

(** "Should close on outside click" *)
Example Dialog_test_overlay :
  Dialog.visible (this (snd (Dialog.handleClick (click overlay) opened)))
  = false.
Proof. vm_compute. reflexivity. Qed.

End DialogTests.

(** ** The walk of [MenuItem.init] and the DOM *)

Section AsWritten.
Import MenuItemInstance.

Lemma descendants_idents (e d : Element) :
  d ∈ descendants e -> ident d ∈ flat_map idents (children e).
Proof.
  induction e as [e IH] using Element_children_ind.
  intros Hd. destruct e as [j nm cs]. cbn [descendants children] in *.
  apply list_elem_of_In, in_flat_map in Hd as (c & Hc & Hd).
  apply list_elem_of_In in Hc.
  eapply idents_in_flat_map; [exact Hc|].
  destruct Hd as [<-|Hd]; [apply ident_in_idents|].
  rewrite Forall_forall in IH.
  destruct c as [k nm' cs']. cbn. right.
  apply (IH _ Hc). by apply list_elem_of_In.
Qed.

Lemma inTree_idents (x e : Element) : inTree x e -> ident x ∈ idents e.
Proof.
  intros [->|Hd]; [apply ident_in_idents|].
  destruct e as [j nm cs]. cbn. right. by apply (descendants_idents (Elem j nm cs)).
Qed.

Lemma wellFormed_child (e c : Element) :
  wellFormed e -> c ∈ children e -> wellFormed c.
Proof.
  unfold wellFormed. intros Hwf Hc. destruct e as [j nm cs]. cbn in *.
  apply NoDup_cons in Hwf as [_ Hwf].
  induction cs as [|a cs IH]; [by apply elem_of_nil in Hc|].
  cbn in Hwf. apply NoDup_app in Hwf as (Ha & _ & Hcs).
  apply elem_of_cons in Hc as [->|Hc]; [done|by apply IH].
Qed.

(** The identity of a child of a descendant occurs strictly below the
    root. *)
Lemma child_below (e p x : Element) :
  inTree p e -> x ∈ children p -> ident x ∈ flat_map idents (children e).
Proof.
  intros [->|Hp] Hx.
  - eapply idents_in_flat_map; [exact Hx|apply ident_in_idents].
  - apply descendants_idents.
    induction e as [e IH] using Element_children_ind.
    destruct e as [j nm cs]. cbn [descendants children] in *.
    apply list_elem_of_In, in_flat_map in Hp as (c & Hc & Hp).
    apply list_elem_of_In, in_flat_map. exists c. split; [done|].
    apply list_elem_of_In in Hc. right. apply list_elem_of_In.
    destruct Hp as [<-|Hp]; [by apply child_descendant|].
    rewrite Forall_forall in IH. apply (IH _ Hc).
    by apply list_elem_of_In.
Qed.

(** What [parentIn] finds has a child with the identity searched for. *)
Lemma parentIn_below (e x q : Element) :
  parentIn e x = Some q -> ident x ∈ flat_map idents (children e).
Proof.
  induction e as [e IH] using Element_children_ind.
  destruct e as [j nm cs]. cbn [parentIn children] in *.
  destruct (existsb (fun c => same c x) cs) eqn:Hex.
  - intros _. apply existsb_exists in Hex as (c & Hc & Hs).
    apply same_eq in Hs. rewrite <- Hs.
    eapply idents_in_flat_map; [by apply list_elem_of_In|].
    apply ident_in_idents.
  - clear Hex. induction cs as [|c cs IHcs]; [done|].
    apply Forall_cons in IH as [Hc Hcs]. intros Hq.
    cbn [flat_map]. apply elem_of_app.
    destruct (parentIn c x) as [q'|] eqn:Hc'.
    + left. destruct c as [k nm' cs']. cbn. right. by apply Hc.
    + right. by apply IHcs.
Qed.

(** In a well-formed tree, the parent that the search finds for a child
    of [p] is [p]. *)
Lemma parentIn_found (e p x : Element) :
  wellFormed e -> inTree p e -> x ∈ children p -> parentIn e x = Some p.
Proof.
  induction e as [e IH] using Element_children_ind.
  intros Hwf Hp Hx.
  pose proof (fun c Hc => wellFormed_child e c Hwf Hc) as Hwfc.
  destruct e as [j nm cs]. unfold wellFormed in Hwf.
  cbn [idents parentIn children] in *.
  apply NoDup_cons in Hwf as [Hj Hnd].
  destruct Hp as [->|Hp].
  { cbn [children] in Hx.
    assert (existsb (fun c => same c x) cs = true) as ->; [|done].
    apply existsb_exists. exists x.
    split; [by apply list_elem_of_In|apply same_refl]. }
  cbn [descendants children] in Hp.
  assert (existsb (fun c => same c x) cs = false) as ->.
  { apply not_true_is_false. intros (c & Hc & Hs)%existsb_exists.
    apply same_eq in Hs. apply list_elem_of_In in Hc.
    apply list_elem_of_In, in_flat_map in Hp as (c' & Hc' & Hp).
    apply list_elem_of_In in Hc'.
    assert (Hbelow : ident x ∈ flat_map idents (children c')).
    { apply (child_below c' p x); [|done].
      destruct Hp as [<-|Hp]; [by left|right; by apply list_elem_of_In]. }
    clear IH Hwfc Hj Hp.
    induction cs as [|a cs IHcs]; [by apply elem_of_nil in Hc|].
    cbn in Hnd. apply NoDup_app in Hnd as (Ha & Hd & Hcs).
    apply elem_of_cons in Hc as [->|Hc];
      apply elem_of_cons in Hc' as [->|Hc'].
    - destruct a as [k nm' cs']. cbn in *.
      apply NoDup_cons in Ha as [Hk _]. apply Hk. by rewrite Hs.
    - apply (Hd (ident a)); [apply ident_in_idents|].
      rewrite Hs. eapply idents_in_flat_map; [exact Hc'|].
      destruct c' as [k nm' cs']. cbn. by right.
    - apply (Hd (ident x)).
      + destruct a as [k nm' cs']. cbn. by right.
      + rewrite <- Hs. eapply idents_in_flat_map; [exact Hc|].
        apply ident_in_idents.
    - by apply IHcs. }
  clear Hj.
  induction cs as [|c cs IHcs]; [by apply elem_of_nil in Hp|].
  apply Forall_cons in IH as [Hc Hcs].
  cbn in Hnd. apply NoDup_app in Hnd as (Hndc & Hd & Hndcs).
  cbn [flat_map] in Hp. apply elem_of_app in Hp as [Hp|Hp].
  - rewrite (Hc (Hwfc c ltac:(left))); [done| |done].
    apply elem_of_cons in Hp as [->|Hp]; [by left|by right].
  - destruct (parentIn c x) as [q|] eqn:Hq.
    + exfalso. apply (Hd (ident x)).
      * destruct c as [k nm' cs']. cbn. right.
        by apply (parentIn_below (Elem k nm' cs') x q).
      * apply list_elem_of_In, in_flat_map in Hp as (c' & Hc' & Hp).
        apply list_elem_of_In in Hc'.
        eapply idents_in_flat_map; [exact Hc'|].
        destruct c' as [k nm' cs']. cbn. right.
        apply (child_below (Elem k nm' cs') p x); [|done].
        destruct Hp as [<-|Hp]; [by left|right; by apply list_elem_of_In].
    + apply IHcs; try done. intros c' Hc'. apply Hwfc. by right.
Qed.

(** The next element sibling of a first child is the second child. *)
Lemma nextElementSibling_first (doc p link : Element)
  (after : list Element) :
  wellFormed doc -> inTree p doc -> children p = link :: after ->
  nextElementSibling doc link = head after.
Proof.
  intros Hwf Hp Hch. unfold nextElementSibling.
  rewrite (parentIn_found doc p link) by (try done; rewrite Hch; left).
  rewrite Hch. cbn. by rewrite same_refl.
Qed.

Lemma inTree_child (e p c : Element) :
  inTree p e -> c ∈ children p -> inTree c e.
Proof.
  intros [->|Hp] Hc; right; [by apply child_descendant|].
  induction e as [e IH] using Element_children_ind.
  destruct e as [j nm cs]. cbn [descendants children] in *.
  apply list_elem_of_In, in_flat_map in Hp as (a & Ha & Hp).
  apply list_elem_of_In, in_flat_map. exists a. split; [done|].
  apply list_elem_of_In in Ha. right. apply list_elem_of_In.
  destruct Hp as [<-|Hp]; [by apply child_descendant|].
  rewrite Forall_forall in IH. apply (IH _ Ha).
  by apply list_elem_of_In.
Qed.

Lemma forEachLink_as_written (rec : Element -> World -> World)
  (this : MenuItem) (doc : Element) (items : list Element) (index : Z)
  (w : World) :
  wellFormed doc ->
  (forall item, item ∈ items -> inTree item doc) ->
  MenuItem.forEachLink rec this items index w
  = MenuItem.forEach rec this doc (MenuItem.collectLinks items) index w.
Proof.
  intros Hwf. revert index w.
  induction items as [|item rest IH]; intros index w Hin; [done|].
  assert (Hrest : forall it, it ∈ rest -> inTree it doc).
  { intros it Hit. apply Hin. by right. }
  rewrite collectLinks_cons. unfold linkOf, firstElementChild.
  cbn [MenuItem.forEachLink].
  destruct (children item) as [|link after] eqn:Hch; [by apply IH|].
  cbn [head]. destruct (String.eqb "A" (nodeName link)); [|by apply IH].
  cbn [app MenuItem.forEach]. rewrite IH by done. f_equal.
  unfold MenuItem.initCallback, MenuItem.nextElementIsUl,
    MenuItem.initSubList.
  rewrite (nextElementSibling_first doc item link after)
    by (try done; apply Hin; left).
  destruct after as [|next after]; [reflexivity|]. cbn [head].
  destruct (String.eqb "UL" (nodeName next)); reflexivity.
Qed.

(** [new MenuItem(list)] runs the [forEach] of the source: over the
    collected links with their indices, descending into the list that
    [nextElementIsUl] reads from the document. *)
Lemma MenuItem_new_as_written (doc lst : Element) (w : World) :
  wellFormed doc ->
  inTree lst doc ->
  let this := MenuItem.instance lst in
  MenuItem.new lst w
  = MenuItem.forEach MenuItem.new this doc (menuItems this) 0
      (setMenuItemOf (<[ident lst := this]> (menuItemOf w)) w).
Proof.
  intros Hwf Hlst this. destruct lst as [j nm cs].
  cbn [MenuItem.new]. apply forEachLink_as_written; [done|].
  intros item Hitem. by apply (inTree_child doc (Elem j nm cs)).
Qed.

(** The walk of [MenuBar.init] over the children builds the popups that
    the [reduce] of the source builds over the collected links. *)
Lemma initPopups_as_written (Menu_new : Element -> M World Menu.Menu)
  (doc : Element) (items acc : list Element) (w : World) :
  wellFormed doc ->
  (forall item, item ∈ items -> inTree item doc) ->
  MenuBar.initPopups Menu_new items acc w
  = MenuBar.reducePopups Menu_new doc (MenuItem.collectLinks items) acc w.
Proof.
  intros Hwf. revert acc w.
  induction items as [|item rest IH]; intros acc w Hin; [done|].
  assert (Hrest : forall it, it ∈ rest -> inTree it doc).
  { intros it Hit. apply Hin. by right. }
  rewrite collectLinks_cons. unfold linkOf, firstElementChild.
  cbn [MenuBar.initPopups].
  destruct (children item) as [|controller after] eqn:Hch; [by apply IH|].
  cbn [head].
  pose proof (nextElementSibling_first doc item controller after Hwf
                (Hin item ltac:(left)) Hch) as Hnext.
  destruct (String.eqb "A" (nodeName controller)).
  - cbn [app MenuBar.reducePopups]. rewrite Hnext.
    destruct after as [|target after]; [by apply IH|].
    cbn [head andb].
    destruct (String.eqb "UL" (nodeName target)); [|by apply IH].
    unfold bind, modify.
    destruct (Menu_new target _) as [[m|e] w1]; [by apply IH|done].
  - destruct after as [|target after]; by apply IH.
Qed.

End AsWritten.


(** * Further properties of the menu widgets *)

(** ** MenuItem: the arrow keys wherever the focus is *)

Section MenuItemAnyFocus.
Import MenuItemInstance.
Context (kc : KeyCodes).

Lemma activeIndex_range (this : MenuItem) (w : World) :
  (-1 <= MenuItem.activeIndex this w
   < Z.of_nat (length (menuItems this)))%Z.
Proof.
  unfold MenuItem.activeIndex.
  destruct (MenuItem.activeDescendant this w) as [a|];
    [apply indexOf_range|].
  lia.
Qed.

(** What UP and DOWN do, by the index the handler computes. *)
Lemma handle_vertical (this : MenuItem) (w : World) (ev : Event) :
  keyCode ev = UP kc \/ keyCode ev = DOWN kc ->
  let n := Z.of_nat (length (menuItems this)) in
  let active := MenuItem.activeIndex this w in
  let next :=
    if (keyCode ev =? UP kc)%Z
    then (if (active - 1 <? 0)%Z then n - 1 else active - 1)%Z
    else (if (n - 1 <? active + 1)%Z then 0 else active + 1)%Z in
  MenuItem.handleListKeydown kc ev (mkCtx w this)
  = focusOrThrow (item (menuItems this) next)
      (mkCtx (preventDefault (stopPropagation w)) this).
Proof.
  intros Hk n active next.
  pose proof (activeIndex_range this w) as Hr. fold active n in Hr.
  unfold MenuItem.handleListKeydown, bind, gets, onWorld, modify. cbn.
  fold active n.
  assert (Hb : ((keyCode ev =? UP kc)%Z || (keyCode ev =? DOWN kc)%Z) = true).
  { destruct Hk as [-> | ->]; rewrite Z.eqb_refl; [done|apply orb_true_r]. }
  rewrite Hb. subst next.
  rewrite (Z.eqb_sym (UP kc)), (Z.eqb_sym (DOWN kc)).
  destruct (keyCode ev =? UP kc)%Z eqn:HU; cbn [andb].
  - destruct (active - 1 <? 0)%Z eqn:Hlt.
    + destruct (keyCode ev =? DOWN kc)%Z; cbn [andb]; [|done].
      destruct (Z.ltb_spec (n - 1) (n - 1)); [lia|done].
    + destruct (keyCode ev =? DOWN kc)%Z; cbn [andb]; [|done].
      destruct (Z.ltb_spec (n - 1) (active - 1)); [lia|done].
  - destruct Hk as [Hk|Hk]; [rewrite Hk, Z.eqb_refl in HU; done|].
    rewrite Hk, Z.eqb_refl. cbn [andb].
    by destruct (n - 1 <? active + 1)%Z.
Qed.

(** X1. On a list with at least one collected link, UP and DOWN never
    throw, whatever has the focus: they suppress the event and focus one
    of the collected links. *)
Theorem MenuItem_vertical_lands_on_link (this : MenuItem) (w : World)
  (ev : Event) :
  menuItems this <> [] ->
  keyCode ev = UP kc \/ keyCode ev = DOWN kc ->
  exists y,
    y ∈ menuItems this
    /\ MenuItem.handleListKeydown kc ev (mkCtx w this)
       = (Normal tt,
          mkCtx (focus y (preventDefault (stopPropagation w))) this).
Proof.
  intros Hne Hk. rewrite handle_vertical by done.
  pose proof (activeIndex_range this w) as Hr.
  set (n := Z.of_nat (length (menuItems this))) in *.
  set (active := MenuItem.activeIndex this w) in *.
  assert (Hn : (0 < n)%Z).
  { subst n. destruct (menuItems this); [done|]. cbn [length]. lia. }
  set (next := if (keyCode ev =? UP kc)%Z
               then (if (active - 1 <? 0)%Z then n - 1 else active - 1)%Z
               else (if (n - 1 <? active + 1)%Z then 0 else active + 1)%Z).
  assert (Hnext : (0 <= next < n)%Z).
  { subst next. destruct (keyCode ev =? UP kc)%Z.
    - destruct (Z.ltb_spec (active - 1) 0); lia.
    - destruct (Z.ltb_spec (n - 1) (active + 1)); lia. }
  unfold item. destruct (Z.ltb_spec next 0); [lia|].
  destruct (menuItems this !! Z.to_nat next) as [y|] eqn:Hy.
  - exists y. split; [by eapply list_elem_of_lookup_2|done].
  - apply lookup_ge_None in Hy. subst n. lia.
Qed.

(** X2. When the focus is inside the list but on none of the collected
    links, DOWN focuses the first collected link and UP the last. *)
Theorem MenuItem_vertical_from_uncollected (this : MenuItem) (w : World)
  (ev : Event) (a first lastLink : Element) :
  UP kc <> DOWN kc ->
  activeElement w = Some a ->
  contains (list_ this) a = true ->
  ident a ∉ map ident (menuItems this) ->
  head (menuItems this) = Some first ->
  last (menuItems this) = Some lastLink ->
  let suppressed := preventDefault (stopPropagation w) in
  (keyCode ev = DOWN kc ->
   MenuItem.handleListKeydown kc ev (mkCtx w this)
   = (Normal tt, mkCtx (focus first suppressed) this))
  /\
  (keyCode ev = UP kc ->
   MenuItem.handleListKeydown kc ev (mkCtx w this)
   = (Normal tt, mkCtx (focus lastLink suppressed) this)).
Proof.
  intros Hkeys Hact Hin Hnot Hfirst Hlast suppressed.
  assert (Hidx : MenuItem.activeIndex this w = (-1)%Z).
  { unfold MenuItem.activeIndex, MenuItem.activeDescendant.
    rewrite Hact, Hin. by apply indexOf_absent. }
  assert (Hn : (0 < Z.of_nat (length (menuItems this)))%Z).
  { destruct (menuItems this); [done|]. cbn [length]. lia. }
  split; intros Hk.
  - rewrite handle_vertical by (by right). cbn zeta. rewrite Hidx, Hk.
    destruct (Z.eqb_spec (DOWN kc) (UP kc)); [congruence|].
    destruct (Z.ltb_spec (Z.of_nat (length (menuItems this)) - 1) (-1 + 1));
      [lia|].
    change (-1 + 1)%Z with (Z.of_nat 0).
    by rewrite item_of_nat, <- head_lookup, Hfirst.
  - rewrite handle_vertical by (by left). cbn zeta.
    rewrite Hidx, Hk, Z.eqb_refl. cbn.
    by rewrite item_last, Hlast.
Qed.

(** X3. On a list without a collected link, UP and DOWN throw a
    [TypeError] after they have suppressed the event. *)
Theorem MenuItem_vertical_on_empty_list (this : MenuItem) (w : World)
  (ev : Event) :
  menuItems this = [] ->
  keyCode ev = UP kc \/ keyCode ev = DOWN kc ->
  MenuItem.handleListKeydown kc ev (mkCtx w this)
  = (Throw TypeError, mkCtx (preventDefault (stopPropagation w)) this).
Proof.
  intros Hempty Hk. rewrite handle_vertical by done.
  rewrite Hempty. unfold item.
  by destruct (_ <? 0)%Z; [|rewrite lookup_nil].
Qed.

(** X4. The handler leaves alone what it does not handle.  A key that is
    none of the four arrows changes nothing, and neither does LEFT on a
    list without a previous sibling.  RIGHT changes nothing when the
    active item, the focused element inside the list or else the first
    collected link, has no next element sibling, when that sibling is not
    a [UL], whatever is saved on it, and when no [MenuItem] instance is
    saved on it.  None of these suppresses the event. *)
Theorem MenuItem_unhandled_keys (this : MenuItem) (w : World) (ev : Event) :
  LEFT kc <> RIGHT kc ->
  keyCode ev <> UP kc -> keyCode ev <> DOWN kc ->
  (keyCode ev <> LEFT kc -> keyCode ev <> RIGHT kc ->
   MenuItem.handleListKeydown kc ev (mkCtx w this) = (Normal tt, mkCtx w this))
  /\
  (keyCode ev = LEFT kc -> previousSibling this = None ->
   MenuItem.handleListKeydown kc ev (mkCtx w this) = (Normal tt, mkCtx w this))
  /\
  (keyCode ev = RIGHT kc ->
   forall active,
     MenuItemFocus.activeItem this w active ->
     nextElementSibling (document w) active = None
     \/ (exists sibling,
           nextElementSibling (document w) active = Some sibling
           /\ (nodeName sibling <> "UL"%string
               \/ menuItemOf w !! ident sibling = None)) ->
     MenuItem.handleListKeydown kc ev (mkCtx w this) = (Normal tt, mkCtx w this)).
Proof.
  intros Hlr HU HD.
  assert (Hb : ((keyCode ev =? UP kc)%Z || (keyCode ev =? DOWN kc)%Z) = false).
  { destruct (Z.eqb_spec (keyCode ev) (UP kc)); [done|].
    by destruct (Z.eqb_spec (keyCode ev) (DOWN kc)). }
  split; [|split].
  - intros HL HR.
    unfold MenuItem.handleListKeydown, bind, gets. cbn. rewrite Hb.
    destruct (Z.eqb_spec (RIGHT kc) (keyCode ev)); [congruence|].
    by destruct (Z.eqb_spec (LEFT kc) (keyCode ev)); [congruence|].
  - intros HL Hprev.
    unfold MenuItem.handleListKeydown, bind, gets. cbn. rewrite Hb, Hprev.
    destruct (Z.eqb_spec (RIGHT kc) (keyCode ev)); [congruence|].
    by destruct (Z.eqb_spec (LEFT kc) (keyCode ev)); [|congruence].
  - intros HR active Hactive Hsibling.
    assert (Hact : MenuItem.activeDescendant this w = Some active).
    { unfold MenuItem.activeDescendant.
      destruct Hactive as [[Hfocus Hin]|[Hout Hfirst]].
      - by rewrite Hfocus, Hin.
      - unfold MenuItemFocus.focusOutside in Hout.
        destruct (activeElement w) as [e|]; [by rewrite Hout|done]. }
    unfold MenuItem.handleListKeydown, bind, gets. cbn.
    rewrite Hb, Hact.
    destruct (Z.eqb_spec (RIGHT kc) (keyCode ev)); [|congruence].
    unfold MenuItem.nextElementIsUl.
    destruct Hsibling as [->|(sibling & -> & Hno)]; [done|].
    destruct (String.eqb_spec "UL" (nodeName sibling)) as [E|E]; [|done].
    destruct Hno as [Hname|Hnone]; [congruence|].
    by rewrite Hnone.
Qed.

End MenuItemAnyFocus.

(** ** MenuItem: DOWN and UP undo each other *)

Section MenuItemCycle.
Import MenuItemInstance.
Context (kc : KeyCodes).

(** UP and DOWN from the collected link at position [i]. *)
Lemma handle_vertical_at (this : MenuItem) (w : World) (ev : Event)
  (i : nat) (x a : Element) :
  UP kc <> DOWN kc ->
  NoDup (map ident (menuItems this)) ->
  menuItems this !! i = Some x ->
  MenuItem.activeDescendant this w = Some a ->
  ident a = ident x ->
  keyCode ev = UP kc \/ keyCode ev = DOWN kc ->
  let n := length (menuItems this) in
  let j := if (keyCode ev =? UP kc)%Z
           then ((i + n - 1) mod n)%nat else ((i + 1) mod n)%nat in
  exists y,
    menuItems this !! j = Some y
    /\ MenuItem.handleListKeydown kc ev (mkCtx w this)
       = (Normal tt,
          mkCtx (focus y (preventDefault (stopPropagation w))) this).
Proof.
  intros Hkeys Hnd Hi Ha Hid Hk n j.
  pose proof (activeIndex_collected this w i x a Hnd Hi Ha Hid) as Hidx.
  assert (Hlt : (i < n)%nat) by (by eapply lookup_lt_Some).
  assert (Hj : (j < n)%nat).
  { subst j. destruct (keyCode ev =? UP kc)%Z;
      apply Nat.mod_upper_bound; lia. }
  destruct (menuItems this !! j) as [y|] eqn:Hy.
  2:{ apply lookup_ge_None in Hy. fold n in Hy. lia. }
  exists y. split; [done|].
  rewrite (handle_vertical kc this w ev Hk). cbn zeta.
  rewrite Hidx. fold n.
  assert (Hnext : (if (keyCode ev =? UP kc)%Z
                   then if (Z.of_nat i - 1 <? 0)%Z
                        then Z.of_nat n - 1 else Z.of_nat i - 1
                   else if (Z.of_nat n - 1 <? Z.of_nat i + 1)%Z
                        then 0 else Z.of_nat i + 1)%Z
                  = Z.of_nat j).
  { subst j. destruct (keyCode ev =? UP kc)%Z.
    - destruct (Z.ltb_spec (Z.of_nat i - 1) 0).
      + assert (i = 0)%nat as -> by lia.
        replace (0 + n - 1)%nat with (n - 1)%nat by lia.
        rewrite Nat.mod_small by lia. lia.
      + replace (i + n - 1)%nat with ((i - 1) + 1 * n)%nat by lia.
        rewrite Nat.Div0.mod_add, Nat.mod_small by lia. lia.
    - destruct (Z.ltb_spec (Z.of_nat n - 1) (Z.of_nat i + 1)).
      + assert (i + 1 = n)%nat as -> by lia.
        by rewrite Nat.Div0.mod_same.
      + rewrite Nat.mod_small by lia. lia. }
  rewrite Hnext, item_of_nat, Hy. reflexivity.
Qed.

(** X5. DOWN and UP undo each other.  On the instance of a list with
    distinct elements, with the focus on a collected link, DOWN followed
    by UP, and UP followed by DOWN, complete normally and leave the focus
    on the link they started from, also across the wrap from the last
    link to the first and back. *)
Theorem MenuItem_down_then_up (lst : Element) (w : World)
  (down up : Event) (i : nat) (x : Element) :
  UP kc <> DOWN kc ->
  wellFormed lst ->
  menuItems (MenuItem.instance lst) !! i = Some x ->
  activeElement w = Some x ->
  keyCode down = DOWN kc ->
  keyCode up = UP kc ->
  let this := MenuItem.instance lst in
  let press ev c := MenuItem.handleListKeydown kc ev c in
  let start := mkCtx w this in
  fst (press down start) = Normal tt
  /\ fst (press up (snd (press down start))) = Normal tt
  /\ activeElement (world (snd (press up (snd (press down start)))))
     = Some x
  /\ fst (press up start) = Normal tt
  /\ fst (press down (snd (press up start))) = Normal tt
  /\ activeElement (world (snd (press down (snd (press up start)))))
     = Some x.
Proof.
  intros Hkeys Hwf Hi Hact Hdown Hup this press start.
  fold this in Hi.
  assert (Hnd : NoDup (map ident (menuItems this))).
  { apply collectLinks_NoDup. destruct lst as [j nm cs].
    unfold wellFormed in Hwf. simpl in *.
    by apply NoDup_cons in Hwf as [_ Hwf]. }
  assert (Hin : forall y, y ∈ menuItems this -> contains lst y = true).
  { intros y (item & Hitem & Hfirst & _)%collectLinks_elem.
    apply (contains_child lst item); [done|].
    apply (contains_child item y); [|apply contains_self].
    unfold firstElementChild in Hfirst.
    destruct (children item) as [|l0 rest]; [done|].
    injection Hfirst as ->. left. }
  assert (Hactive : forall (w0 : World) y,
             y ∈ menuItems this -> activeElement w0 = Some y ->
             MenuItem.activeDescendant this w0 = Some y).
  { intros w0 y Hy Hw0. unfold MenuItem.activeDescendant.
    rewrite Hw0. cbn [this list_ MenuItem.instance].
    by rewrite (Hin y Hy). }
  set (n := length (menuItems this)).
  assert (Hlt : (i < n)%nat) by (by eapply lookup_lt_Some).
  assert (Hx : x ∈ menuItems this) by (by eapply list_elem_of_lookup_2).
  assert (HDU : (keyCode down =? UP kc)%Z = false).
  { rewrite Hdown. apply Z.eqb_neq. congruence. }
  assert (HUU : (keyCode up =? UP kc)%Z = true).
  { rewrite Hup. apply Z.eqb_refl. }
  (* one press from position [k] *)
  assert (Hpress : forall ev (w0 : World) k y,
             keyCode ev = UP kc \/ keyCode ev = DOWN kc ->
             menuItems this !! k = Some y ->
             activeElement w0 = Some y ->
             exists z,
               menuItems this
                 !! (if (keyCode ev =? UP kc)%Z
                     then ((k + n - 1) mod n)%nat else ((k + 1) mod n)%nat)
               = Some z
               /\ press ev (mkCtx w0 this)
                  = (Normal tt,
                     mkCtx (focus z (preventDefault (stopPropagation w0)))
                       this)).
  { intros ev w0 k y Hk Hy Hw0.
    apply (handle_vertical_at this w0 ev k y y); try done.
    apply Hactive; [by eapply list_elem_of_lookup_2|done]. }
  (* DOWN, then UP *)
  destruct (Hpress down w i x (or_intror Hdown) Hi Hact)
    as (y & Hy & Hrun1).
  rewrite HDU in Hy.
  destruct (Hpress up (focus y (preventDefault (stopPropagation w)))
              ((i + 1) mod n)%nat y (or_introl Hup) Hy eq_refl)
    as (z & Hz & Hrun2).
  rewrite HUU in Hz.
  assert (Eback : (((i + 1) mod n + n - 1) mod n = i)%nat).
  { destruct (decide (i + 1 = n)%nat) as [E|E].
    - rewrite E, Nat.Div0.mod_same.
      replace (0 + n - 1)%nat with (n - 1)%nat by lia.
      rewrite Nat.mod_small by lia. lia.
    - rewrite (Nat.mod_small (i + 1)) by lia.
      replace (i + 1 + n - 1)%nat with (i + 1 * n)%nat by lia.
      rewrite Nat.Div0.mod_add, Nat.mod_small by lia. lia. }
  rewrite Eback, Hi in Hz. injection Hz as <-.
  (* UP, then DOWN *)
  destruct (Hpress up w i x (or_introl Hup) Hi Hact)
    as (y' & Hy' & Hrun3).
  rewrite HUU in Hy'.
  destruct (Hpress down (focus y' (preventDefault (stopPropagation w)))
              ((i + n - 1) mod n)%nat y' (or_intror Hdown) Hy' eq_refl)
    as (z' & Hz' & Hrun4).
  rewrite HDU in Hz'.
  assert (Eforth : (((i + n - 1) mod n + 1) mod n = i)%nat).
  { destruct (decide (i = 0)%nat) as [E|E].
    - subst i. replace (0 + n - 1)%nat with (n - 1)%nat by lia.
      rewrite (Nat.mod_small (n - 1)) by lia.
      replace (n - 1 + 1)%nat with n by lia.
      by rewrite Nat.Div0.mod_same.
    - replace (i + n - 1)%nat with ((i - 1) + 1 * n)%nat by lia.
      rewrite Nat.Div0.mod_add, (Nat.mod_small (i - 1)) by lia.
      replace (i - 1 + 1)%nat with i by lia.
      by rewrite Nat.mod_small by lia. }
  rewrite Eforth, Hi in Hz'. injection Hz' as <-.
  fold start in Hrun1, Hrun3.
  rewrite Hrun1, Hrun3. cbn [fst snd].
  rewrite Hrun2, Hrun4. cbn [fst snd world focus activeElement].
  repeat split.
Qed.

End MenuItemCycle.

(** ** MenuItem.init: what it keeps and what it wires *)

Section MenuItemWiring.
Import MenuItemInstance MenuItemSpec.

Lemma initLink_keeps (this : MenuItem) (link : Element) (index : Z)
  (w : World) :
  document (MenuItem.initLink this link index w) = document w
  /\ activeElement (MenuItem.initLink this link index w) = activeElement w
  /\ popupOf (MenuItem.initLink this link index w) = popupOf w
  /\ listeners (MenuItem.initLink this link index w)
     = listeners w ++ [listener (list_ this) link]
  /\ menuItemOf (MenuItem.initLink this link index w) = menuItemOf w.
Proof. repeat split. Qed.

Section Walk.
Context (rec : Element -> World -> World) (this : MenuItem).

Lemma initSubList_keeps (link : Element) (after : list Element)
  (w : World) :
  (forall c, c ∈ after -> keeps rec c) ->
  let w' := MenuItem.initSubList rec link after w in
  document w' = document w
  /\ activeElement w' = activeElement w
  /\ popupOf w' = popupOf w
  /\ (exists more, listeners w' = listeners w ++ more)
  /\ forall n, n ∉ flat_map idents after ->
               menuItemOf w' !! n = menuItemOf w !! n.
Proof.
  intros Hrec w'. subst w'. unfold MenuItem.initSubList.
  destruct after as [|next after].
  { repeat split. exists []. by rewrite app_nil_r. }
  destruct (String.eqb "UL" (nodeName next)).
  2:{ repeat split. exists []. by rewrite app_nil_r. }
  destruct (Hrec next ltac:(left) w) as (Hd & Ha & Hp & Hl & Hm).
  unfold MenuItem.assignPreviousSibling. cbn.
  repeat split; try done.
  intros n Hn. cbn in Hn. apply not_elem_of_app in Hn as [Hn _].
  rewrite lookup_alter_ne
    by (intros E; apply Hn; rewrite <- E; apply ident_in_idents).
  by apply Hm.
Qed.

Lemma forEachLink_keeps (items : list Element) (index : Z) (w : World) :
  (forall item c, item ∈ items -> c ∈ children item -> keeps rec c) ->
  let w' := MenuItem.forEachLink rec this items index w in
  document w' = document w
  /\ activeElement w' = activeElement w
  /\ popupOf w' = popupOf w
  /\ (exists more, listeners w' = listeners w ++ more)
  /\ forall n, n ∉ flat_map idents items ->
               menuItemOf w' !! n = menuItemOf w !! n.
Proof.
  revert index w.
  induction items as [|item rest IH]; intros index w Hrec.
  { repeat split. exists []. by rewrite app_nil_r. }
  assert (Hrec' : forall item c,
             item ∈ rest -> c ∈ children item -> keeps rec c).
  { intros it c Hit. apply Hrec. by right. }
  assert (Hskip : forall index,
             let w' := MenuItem.forEachLink rec this rest index w in
             document w' = document w
             /\ activeElement w' = activeElement w
             /\ popupOf w' = popupOf w
             /\ (exists more, listeners w' = listeners w ++ more)
             /\ forall n, n ∉ flat_map idents (item :: rest) ->
                          menuItemOf w' !! n = menuItemOf w !! n).
  { intros idx. destruct (IH idx w Hrec') as (? & ? & ? & ? & Hm).
    repeat split; try done. intros n Hn. apply Hm.
    cbn in Hn. by apply not_elem_of_app in Hn as [_ Hn]. }
  cbn [MenuItem.forEachLink].
  destruct (children item) as [|link after] eqn:Hch; [apply Hskip|].
  destruct (String.eqb "A" (nodeName link)); [|apply Hskip].
  set (w1 := MenuItem.initLink this link index w).
  set (w2 := MenuItem.initSubList rec link after w1).
  destruct (IH (index + 1)%Z w2 Hrec') as (Hd & Ha & Hp & [m3 Hl] & Hm).
  destruct (initSubList_keeps link after w1) as (Hd2 & Ha2 & Hp2 & [m2 Hl2] & Hm2).
  { intros c Hc. apply (Hrec item); [left|]. rewrite Hch. by right. }
  fold w2 in Hd2, Ha2, Hp2, Hl2, Hm2.
  cbn zeta. rewrite Hd, Ha, Hp, Hd2, Ha2, Hp2.
  repeat split.
  - exists ([listener (list_ this) link] ++ m2 ++ m3).
    rewrite Hl, Hl2. subst w1. cbn. by rewrite <- !app_assoc.
  - intros n Hn. cbn in Hn. apply not_elem_of_app in Hn as [Hitem Hrest].
    rewrite Hm by done. rewrite Hm2; [done|].
    intros Hin. apply Hitem.
    destruct item as [j nm cs]. cbn in *. subst cs. right.
    cbn. apply elem_of_app. by right.
Qed.
End Walk.

Lemma MenuItem_new_keeps_all (lst : Element) : keeps MenuItem.new lst.
Proof.
  induction lst as [lst IH] using Element_descendants_ind.
  intros w. destruct lst as [j nm cs]. cbn [MenuItem.new].
  set (this := MenuItem.instance (Elem j nm cs)).
  set (w0 := setMenuItemOf (<[ident (Elem j nm cs) := this]> (menuItemOf w)) w).
  destruct (forEachLink_keeps MenuItem.new this cs 0 w0)
    as (Hd & Ha & Hp & Hl & Hm).
  { intros item c Hitem Hc. apply IH. by eapply grandchild_descendant. }
  repeat split; try done.
  intros n Hn. cbn in Hn. apply not_elem_of_cons in Hn as [Hj Hn].
  rewrite Hm by done. subst w0. cbn.
  by rewrite lookup_insert_ne.
Qed.

(** X6. [new MenuItem(list)] never moves the focus, never touches a popup
    and never removes a registered listener; the [MenuItem] instances it
    saves are all on elements of the list, so those saved elsewhere
    stay. *)
Theorem MenuItem_new_keeps (lst : Element) (w : World) :
  let w' := MenuItem.new lst w in
  document w' = document w
  /\ activeElement w' = activeElement w
  /\ popupOf w' = popupOf w
  /\ (exists more, listeners w' = listeners w ++ more)
  /\ forall n, n ∉ idents lst -> menuItemOf w' !! n = menuItemOf w !! n.
Proof. apply MenuItem_new_keeps_all. Qed.

Lemma wellFormed_inTree (e d : Element) :
  wellFormed e -> inTree d e -> wellFormed d.
Proof.
  intros Hwf [->|Hd]; [done|]. revert Hwf Hd.
  induction e as [e IH] using Element_children_ind. intros Hwf Hd.
  pose proof (fun c Hc => wellFormed_child e c Hwf Hc) as Hwfc.
  destruct e as [j nm cs]. cbn [descendants children] in *.
  apply list_elem_of_In, in_flat_map in Hd as (c & Hc & Hd).
  apply list_elem_of_In in Hc. rewrite Forall_forall in IH.
  destruct Hd as [<-|Hd]; [by apply Hwfc|].
  apply (IH c Hc); [by apply Hwfc|by apply list_elem_of_In].
Qed.

(** The constructor saves its instance on the list. *)
Lemma MenuItem_new_registers (lst : Element) (w : World) :
  wellFormed lst ->
  menuItemOf (MenuItem.new lst w) !! ident lst
  = Some (MenuItem.instance lst).
Proof.
  intros Hwf. destruct lst as [j nm cs]. cbn [MenuItem.new].
  unfold wellFormed in Hwf. cbn in Hwf. apply NoDup_cons in Hwf as [Hj _].
  destruct (forEachLink_keeps MenuItem.new
              (MenuItem.instance (Elem j nm cs)) cs 0
              (setMenuItemOf
                 (<[j := MenuItem.instance (Elem j nm cs)]> (menuItemOf w)) w))
    as (_ & _ & _ & _ & Hm).
  { intros item c _ _. apply MenuItem_new_keeps_all. }
  cbn [ident]. rewrite Hm by done. cbn. apply lookup_insert_eq.
Qed.

Lemma forEachLink_wires (this : MenuItem) (items : list Element)
  (index : Z) (w : World) (item link next : Element)
  (after : list Element) :
  NoDup (flat_map idents items) ->
  item ∈ items ->
  children item = link :: next :: after ->
  nodeName link = "A"%string ->
  nodeName next = "UL"%string ->
  menuItemOf (MenuItem.forEachLink MenuItem.new this items index w)
    !! ident next
  = Some (setPreviousSibling link (MenuItem.instance next)).
Proof.
  intros Hnd Hitem Hch Hlink Hnext. revert index w.
  induction items as [|it rest IH]; intros index w;
    [by apply elem_of_nil in Hitem|].
  cbn in Hnd. apply NoDup_app in Hnd as (Hit & Hdisj & Hrest).
  assert (Hkeeps : forall (l : list Element) idx w0 n,
             n ∉ flat_map idents l ->
             menuItemOf (MenuItem.forEachLink MenuItem.new this l idx w0) !! n
             = menuItemOf w0 !! n).
  { intros l idx w0 n Hn.
    destruct (forEachLink_keeps MenuItem.new this l idx w0)
      as (_ & _ & _ & _ & Hm); [|by apply Hm].
    intros ? c _ _. apply MenuItem_new_keeps_all. }
  assert (Hbelow : item = it -> ident next ∈ idents it).
  { intros <-. destruct item as [j nm cs]. cbn in *. subst cs. right.
    cbn. apply elem_of_app. right. apply elem_of_app. left.
    apply ident_in_idents. }
  apply elem_of_cons in Hitem as [Heq|Hitem].
  - subst it. cbn [MenuItem.forEachLink]. rewrite Hch, Hlink. cbn -[MenuItem.new].
    rewrite Hkeeps by (intros Hin; by apply (Hdisj (ident next)); [apply Hbelow|]).
    rewrite Hnext. cbn -[MenuItem.new].
    rewrite lookup_alter_eq, MenuItem_new_registers; [done|].
    apply (wellFormed_child item next); [done|].
    rewrite Hch. right. left.
  - cbn [MenuItem.forEachLink].
    destruct (children it) as [|l a]; [by apply IH|].
    destruct (String.eqb "A" (nodeName l)); by apply IH.
Qed.

(** The instance saved on a list that follows a collected link. *)
Lemma MenuItem_new_wires (lst item link next : Element)
  (after : list Element) (w : World) :
  wellFormed lst ->
  item ∈ children lst ->
  children item = link :: next :: after ->
  nodeName link = "A"%string ->
  nodeName next = "UL"%string ->
  menuItemOf (MenuItem.new lst w) !! ident next
  = Some (setPreviousSibling link (MenuItem.instance next)).
Proof.
  intros Hwf Hitem Hch Hlink Hnext. destruct lst as [j nm cs].
  cbn [MenuItem.new]. unfold wellFormed in Hwf. cbn in Hwf.
  apply NoDup_cons in Hwf as [_ Hwf].
  by eapply forEachLink_wires.
Qed.

(** X7. After [new MenuItem(list)] on a well-formed list, the instance
    is saved on the list, and every list that follows a collected link
    carries its own instance, whose [previousSibling] is that link and
    whose [firstItem] is its first collected link. *)
Theorem MenuItem_new_wires_nested_lists (lst item link next : Element)
  (after : list Element) (w : World) :
  wellFormed lst ->
  item ∈ children lst ->
  children item = link :: next :: after ->
  nodeName link = "A"%string ->
  nodeName next = "UL"%string ->
  let w' := MenuItem.new lst w in
  menuItemOf w' !! ident lst = Some (MenuItem.instance lst)
  /\ exists sub,
       menuItemOf w' !! ident next = Some sub
       /\ previousSibling sub = Some link
       /\ list_ sub = next
       /\ menuItems sub = MenuItem.collectLinks (children next)
       /\ firstItem sub = head (MenuItem.collectLinks (children next)).
Proof.
  intros Hwf Hitem Hch Hlink Hnext w'. split.
  - by apply MenuItem_new_registers.
  - exists (setPreviousSibling link (MenuItem.instance next)).
    split; [|done]. subst w'. by eapply MenuItem_new_wires.
Qed.

Lemma forEachLink_prepared (this : MenuItem) (items : list Element)
  (index : Z) (w : World) (k : nat) (link : Element) :
  NoDup (flat_map idents items) ->
  MenuItem.collectLinks items !! k = Some link ->
  let w' := MenuItem.forEachLink MenuItem.new this items index w in
  getAttribute link "aria-describedby" w'
  = Some (Str MenuItem.describedby)
  /\ listener (list_ this) link ∈ listeners w'.
Proof.
  revert index w k.
  induction items as [|item rest IH]; intros index w k Hnd Hk; [done|].
  cbn [flat_map] in Hnd. apply NoDup_app in Hnd as (Hitem & Hdisj & Hrest).
  rewrite collectLinks_cons in Hk. unfold linkOf, firstElementChild in Hk.
  cbn [MenuItem.forEachLink].
  destruct (children item) as [|l after] eqn:Hch; [by apply (IH _ _ k)|].
  cbn [head] in Hk.
  destruct (String.eqb "A" (nodeName l)); [|by apply (IH _ _ k)].
  destruct k as [|k]; [|by apply (IH _ _ k)].
  cbn in Hk. injection Hk as ->.
  assert (Hframed : forall c, framed MenuItem.new c)
    by apply MenuItem_new_framed.
  assert (Hlink : ident link ∈ idents item).
  { destruct item as [j nm cs]. cbn in *. subst cs. right. cbn.
    apply elem_of_app. left. apply ident_in_idents. }
  assert (Hafter : ident link ∉ flat_map idents after).
  { destruct item as [j nm cs]. simpl in Hch. subst cs.
    simpl in Hitem. apply NoDup_cons in Hitem as [_ Hitem].
    cbn [flat_map] in Hitem. apply NoDup_app in Hitem as (_ & Hd & _).
    apply Hd. apply ident_in_idents. }
  cbn zeta. split.
  - unfold getAttribute.
    rewrite forEachLink_frame by (try done; by apply Hdisj).
    rewrite initSubList_frame by done.
    unfold MenuItem.initLink. cbn.
    rewrite !lookup_insert_ne by (intros [=]). apply lookup_insert_eq.
  - set (w1 := MenuItem.initLink this link index w).
    set (w2 := MenuItem.initSubList MenuItem.new link after w1).
    destruct (forEachLink_keeps MenuItem.new this rest (index + 1) w2)
      as (_ & _ & _ & [m3 Hl3] & _).
    { intros ? c _ _. apply MenuItem_new_keeps_all. }
    destruct (initSubList_keeps MenuItem.new link after w1)
      as (_ & _ & _ & [m2 Hl2] & _).
    { intros c _. apply MenuItem_new_keeps_all. }
    fold w2 in Hl2. rewrite Hl3, Hl2. subst w1. cbn.
    apply elem_of_app. left. apply elem_of_app. left.
    apply elem_of_app. right. left.
Qed.

(** X8. After [new MenuItem(list)] on a well-formed list, every collected
    link refers to the help text through [aria-describedby] and has the
    keydown handler of its list registered; the lists nested below do not
    undo either. *)
Theorem MenuItem_new_prepares_links (lst link : Element) (k : nat)
  (w : World) :
  wellFormed lst ->
  menuItems (MenuItem.instance lst) !! k = Some link ->
  getAttribute link "aria-describedby" (MenuItem.new lst w)
  = Some (Str MenuItem.describedby)
  /\ listener lst link ∈ listeners (MenuItem.new lst w).
Proof.
  intros Hwf Hk. destruct lst as [j nm cs].
  unfold wellFormed in Hwf. cbn in Hwf. apply NoDup_cons in Hwf as [_ Hwf].
  cbn [MenuItem.new].
  by apply (forEachLink_prepared (MenuItem.instance (Elem j nm cs)) cs 0 _ k).
Qed.

End MenuItemWiring.

(** ** MenuItem: into a nested list and back *)

Section MenuItemRoundTrip.
Import MenuItemInstance.
Context (kc : KeyCodes).

Lemma handle_right_into (this : MenuItem) (w : World) (ev : Event)
  (active sibling : Element) (sub : MenuItem) (first : Element) :
  RIGHT kc <> UP kc -> RIGHT kc <> DOWN kc ->
  keyCode ev = RIGHT kc ->
  MenuItem.activeDescendant this w = Some active ->
  nextElementSibling (document w) active = Some sibling ->
  nodeName sibling = "UL"%string ->
  menuItemOf w !! ident sibling = Some sub ->
  firstItem sub = Some first ->
  MenuItem.handleListKeydown kc ev (mkCtx w this)
  = (Normal tt,
     mkCtx (focus first (preventDefault (stopPropagation w))) this).
Proof.
  intros HRU HRD Hk Ha Hs Hul Hsub Hfirst.
  unfold MenuItem.handleListKeydown, bind, gets, onWorld, modify; simpl.
  rewrite Hk, Ha.
  destruct (Z.eqb_spec (RIGHT kc) (UP kc)) as [E|_]; [congruence|].
  destruct (Z.eqb_spec (RIGHT kc) (DOWN kc)) as [E|_]; [congruence|].
  rewrite Z.eqb_refl. simpl.
  unfold MenuItem.nextElementIsUl. rewrite Hs, Hul. simpl.
  rewrite Hsub, Hfirst. reflexivity.
Qed.

Lemma handle_left_back (this : MenuItem) (w : World) (ev : Event)
  (previous : Element) :
  LEFT kc <> UP kc -> LEFT kc <> DOWN kc -> LEFT kc <> RIGHT kc ->
  keyCode ev = LEFT kc ->
  previousSibling this = Some previous ->
  exists closed,
    MenuItem.handleListKeydown kc ev (mkCtx w this)
    = (Normal tt, mkCtx (focus previous closed) this)
    /\ document closed = document w
    /\ menuItemOf closed = menuItemOf w.
Proof.
  intros HLU HLD HLR Hk Hprev.
  unfold MenuItem.handleListKeydown, bind, gets, onWorld, modify; simpl.
  rewrite Hk, Hprev.
  destruct (Z.eqb_spec (LEFT kc) (UP kc)) as [E|_]; [congruence|].
  destruct (Z.eqb_spec (LEFT kc) (DOWN kc)) as [E|_]; [congruence|].
  destruct (Z.eqb_spec (RIGHT kc) (LEFT kc)) as [E|_]; [congruence|].
  rewrite Z.eqb_refl. simpl.
  destruct (popupOf w !! ident previous) as [p|] eqn:Hp; simpl.
  - destruct (PopupInstance.expanded p) eqn:He; simpl.
    + eexists. split; [reflexivity|].
      unfold Popup.setExpandedState, Popup.setState. simpl.
      rewrite Hp. done.
    + eexists. split; [reflexivity|]. done.
  - eexists. split; [reflexivity|]. done.
Qed.

(** X9. Into a nested list and back.  After [new MenuItem(list)] on a
    list of a well-formed document, with the focus on a collected link
    that is followed by a nested list with a collected link of its own,
    RIGHT handled by the instance of the list focuses the first link of
    the nested list, and LEFT handled there by the instance saved on the
    nested list brings the focus back to the link it came from. *)
Theorem MenuItem_right_then_left (lst item link next first : Element)
  (after : list Element) (w : World) (right left : Event) :
  RIGHT kc <> UP kc -> RIGHT kc <> DOWN kc ->
  LEFT kc <> UP kc -> LEFT kc <> DOWN kc -> LEFT kc <> RIGHT kc ->
  wellFormed (document w) ->
  inTree lst (document w) ->
  item ∈ children lst ->
  children item = link :: next :: after ->
  nodeName link = "A"%string ->
  nodeName next = "UL"%string ->
  head (MenuItem.collectLinks (children next)) = Some first ->
  keyCode right = RIGHT kc ->
  keyCode left = LEFT kc ->
  let w1 := focus link (MenuItem.new lst w) in
  exists sub w2 w3,
    menuItemOf w1 !! ident lst = Some (MenuItem.instance lst)
    /\ menuItemOf w1 !! ident next = Some sub
    /\ MenuItem.handleListKeydown kc right
         (mkCtx w1 (MenuItem.instance lst))
       = (Normal tt, mkCtx w2 (MenuItem.instance lst))
    /\ activeElement w2 = Some first
    /\ MenuItem.handleListKeydown kc left (mkCtx w2 sub)
       = (Normal tt, mkCtx w3 sub)
    /\ activeElement w3 = Some link.
Proof.
  intros HRU HRD HLU HLD HLR Hdoc Hlst Hitem Hch Hlink Hnext Hfirst
    Hright Hleft w1.
  assert (Hwf : wellFormed lst) by (by eapply wellFormed_inTree).
  destruct (MenuItem_new_keeps_all lst w) as (Hd & _ & _ & _ & _).
  set (sub := setPreviousSibling link (MenuItem.instance next)).
  assert (Hsub : menuItemOf w1 !! ident next = Some sub)
    by (by eapply MenuItem_new_wires).
  assert (Hactive : MenuItem.activeDescendant (MenuItem.instance lst) w1
                    = Some link).
  { unfold MenuItem.activeDescendant. cbn [w1 focus activeElement list_
                                             MenuItem.instance].
    assert (contains lst link = true) as ->; [|done].
    apply (contains_child lst item); [done|].
    apply (contains_child item link); [rewrite Hch; left|].
    apply contains_self. }
  assert (Hsibling : nextElementSibling (document w1) link = Some next).
  { cbn [w1 focus document]. rewrite Hd.
    rewrite (nextElementSibling_first (document w) item link
               (next :: after)); try done.
    by apply (inTree_child (document w) lst). }
  pose proof (handle_right_into (MenuItem.instance lst) w1 right link next
                sub first HRU HRD Hright Hactive Hsibling Hnext Hsub Hfirst)
    as Hrun1.
  destruct (handle_left_back sub
              (focus first (preventDefault (stopPropagation w1))) left
              link HLU HLD HLR Hleft eq_refl)
    as (closed & Hrun2 & _).
  exists sub, (focus first (preventDefault (stopPropagation w1))),
    (focus link closed).
  split; [by apply MenuItem_new_registers|].
  repeat split; done.
Qed.

End MenuItemRoundTrip.

(** ** MenuBar.init: when it completes *)

Section MenuBarInitCompletes.
Import MenuBar MenuBarSpec.
Context (Menu_new : Element -> M World Menu.Menu).

(** Without a collected link, the loop over the children builds no
    popup and calls no constructor. *)
Lemma initPopups_no_links (items acc : list Element) (w : World) :
  MenuItem.collectLinks items = [] ->
  initPopups Menu_new items acc w = (Normal acc, w).
Proof.
  induction items as [|item rest IH]; intros Hnone; [done|].
  rewrite collectLinks_cons in Hnone.
  unfold linkOf, firstElementChild in Hnone.
  cbn [initPopups].
  destruct (children item) as [|controller [|target after]];
    cbn [head] in Hnone.
  - by apply IH.
  - destruct (String.eqb "A" (nodeName controller)); [done|by apply IH].
  - destruct (String.eqb "A" (nodeName controller)); [done|].
    cbn [andb]. by apply IH.
Qed.

Lemma initPopups_completes (items acc : list Element) (w : World) :
  (forall target w0, exists m, fst (Menu_new target w0) = Normal m) ->
  exists ps, fst (initPopups Menu_new items acc w) = Normal ps.
Proof.
  intros Hmenu. revert acc w.
  induction items as [|item rest IH]; intros acc w; [by exists acc|].
  cbn [initPopups].
  destruct (children item) as [|controller [|target after]];
    [apply IH|apply IH|].
  destruct (String.eqb "A" (nodeName controller)
            && String.eqb "UL" (nodeName target)); [|apply IH].
  unfold bind, modify. cbn.
  destruct (Hmenu target (Popup.new controller target w)) as [m Hm].
  destruct (Menu_new target (Popup.new controller target w)) as [r w2].
  cbn in Hm. subst r. apply IH.
Qed.

(** X10. [init] needs a collected link.  On a list none of whose children
    has an anchor as its first element child it throws a [TypeError],
    whatever the nested constructors do, and leaves no item selected.  On
    a list with such a child it completes normally whenever the
    constructors of the nested menus do, and has then collected the links
    and selected the first of them. *)
Theorem MenuBar_init_needs_a_link (menu : Element) (w : World) :
  let built := init Menu_new (mkCtx w (blank (Some menu))) in
  let links := MenuItem.collectLinks (children menu) in
  (links = [] ->
   fst built = Throw TypeError
   /\ menubarItem (state (this (snd built))) = None)
  /\
  (forall first,
     head links = Some first ->
     (forall target w0, exists m, fst (Menu_new target w0) = Normal m) ->
     fst built = Normal tt
     /\ menuBarItems (this (snd built)) = links
     /\ menubarItem (state (this (snd built))) = Some first).
Proof.
  intros built links. subst built.
  unfold init, bind, gets, onWorld, onThis, modify, liftWorld.
  cbn [world this MenuBar.menu blank fst snd setCollected menuBarItems].
  fold links. split.
  - intros Hnone. rewrite initPopups_no_links by done.
    rewrite Hnone. cbn. done.
  - intros first Hfirst Hmenu.
    match goal with
    | |- context [initPopups Menu_new ?l ?a ?w0] =>
        destruct (initPopups_completes l a w0 Hmenu) as [ps Hps];
        destruct (initPopups Menu_new l a w0) as [r w4]
    end.
    cbn in Hps. subst r. rewrite Hfirst. cbn. done.
Qed.

End MenuBarInitCompletes.

(** ** MenuBar.init: roles and help text *)

Section MenuBarRoles.
Import MenuBar RovingTabIndex.
Context (Menu_new : Element -> M World Menu.Menu).

Lemma childrenLoop_role (menu : Element) (menuLength : Z)
  (children : list Element) (index : Z) (w : World) (child : Element) :
  ident child ∈ map ident children ->
  getAttribute child "role"
    (snd (childrenLoop menu menuLength children (index, w)))
  = Some (Str "menuitem").
Proof.
  revert index w.
  induction children as [|a l IH]; intros index w Hin;
    [by apply elem_of_nil in Hin|].
  rewrite childrenLoop_cons.
  destruct (decide (ident child ∈ map ident l)) as [Hl|Hl];
    [by apply IH|].
  cbn in Hin. apply elem_of_cons in Hin as [Ha|Hin]; [|done].
  unfold getAttribute. rewrite childrenLoop_other by done. cbn.
  rewrite Ha. apply lookup_insert_eq.
Qed.

Lemma initLinks_describedby (menu : Element) (links : list Element)
  (w : World) (link : Element) :
  ident link ∈ map ident links ->
  getAttribute link "aria-describedby" (initLinks menu links w)
  = Some (Str describedby).
Proof.
  unfold initLinks. revert w.
  induction links as [|a l IH]; intros w Hin;
    [by apply elem_of_nil in Hin|].
  cbn [fold_left].
  destruct (decide (ident link ∈ map ident l)) as [Hl|Hl];
    [by apply IH|].
  cbn in Hin. apply elem_of_cons in Hin as [Ha|Hin]; [|done].
  fold (initLinks menu l
          (addEventListener a "click"
             (MenuBar_handleMenuBarClick (ident menu))
             (setAttribute a "aria-describedby" (Str describedby) w))).
  assert (Hother : forall (l0 : list Element) w0,
             ident link ∉ map ident l0 ->
             getAttribute link "aria-describedby" (initLinks menu l0 w0)
             = getAttribute link "aria-describedby" w0).
  { clear. unfold initLinks, getAttribute.
    induction l0 as [|b l0 IH0]; intros w0 Hb; [done|].
    cbn in Hb. apply not_elem_of_cons in Hb as [Hb Hl0].
    cbn [fold_left]. rewrite IH0 by done. cbn.
    apply lookup_insert_ne. congruence. }
  rewrite Hother by done. unfold getAttribute. cbn.
  rewrite Ha. apply lookup_insert_eq.
Qed.

(** The popups and nested menus leave alone every attribute of an
    element outside the nested lists, except the two a popup renders its
    state into. *)
Lemma attributes_initPopups_outside (items acc : list Element) (w : World)
  (n : Node) (name : string) :
  menuFramed Menu_new ->
  name <> "aria-expanded"%string -> name <> "aria-hidden"%string ->
  (forall item controller target after,
     item ∈ items -> children item = controller :: target :: after ->
     n ∉ idents target) ->
  attributes (snd (initPopups Menu_new items acc w)) !! (n, name)
  = attributes w !! (n, name).
Proof.
  intros Hframe H1 H2. revert acc w.
  induction items as [|item rest IH]; intros acc w Hn; [done|].
  assert (Hn' : forall item controller target after,
             item ∈ rest -> children item = controller :: target :: after ->
             n ∉ idents target).
  { intros it ? ? ? Hit. apply Hn. by right. }
  cbn [initPopups].
  destruct (children item) as [|controller [|target after]] eqn:Hch;
    [by apply IH | by apply IH |].
  destruct (String.eqb "A" (nodeName controller)
            && String.eqb "UL" (nodeName target)); [|by apply IH].
  assert (Htarget : n ∉ idents target).
  { by apply (Hn item controller target after); [left|]. }
  unfold bind at 1. unfold modify at 1.
  unfold bind at 1.
  pose proof (Hframe target (Popup.new controller target w) n name Htarget)
    as Hm.
  destruct (Menu_new target (Popup.new controller target w))
    as [[m|e] w1] eqn:Hnew; cbn [snd] in *.
  - rewrite IH by done. rewrite Hm, attributes_Popup_new by done.
    reflexivity.
  - rewrite Hm, attributes_Popup_new by done. reflexivity.
Qed.

(** In a well-formed list, the nested list of one child holds neither
    the list, nor a child, nor the first element of a child. *)
Lemma outside_targets (menu item controller target : Element)
  (after : list Element) (n : Node) :
  wellFormed menu ->
  item ∈ children menu ->
  children item = controller :: target :: after ->
  n = ident menu
  \/ n ∈ map ident (children menu)
  \/ n ∈ map ident (MenuItem.collectLinks (children menu)) ->
  n ∉ idents target.
Proof.
  intros Hwf Hitem Hch Hn Htarget.
  assert (Hnd : NoDup (flat_map idents (children menu))).
  { destruct menu as [j nm cs]. unfold wellFormed in Hwf. simpl in *.
    by apply NoDup_cons in Hwf as [_ Hwf]. }
  assert (Hbelow : n ∈ flat_map idents (children menu)).
  { eapply idents_in_flat_map; [exact Hitem|].
    eapply idents_child; [|exact Htarget]. rewrite Hch. right. left. }
  destruct Hn as [->|[Hn|Hn]].
  - destruct menu as [j nm cs]. unfold wellFormed in Hwf. simpl in *.
    by apply NoDup_cons in Hwf as [Hj _].
  - apply list_elem_of_fmap in Hn as (child & -> & Hchild).
    apply (sibling_not_below (children menu) child item target Hnd Hchild
             Hitem); [rewrite Hch; right; left|done].
  - apply list_elem_of_fmap in Hn as (link & -> & Hlink).
    apply collectLinks_elem in Hlink as (it & Hit & Hfirst & _).
    unfold firstElementChild in Hfirst.
    destruct (children it) as [|l0 rest0] eqn:Hch0; [done|].
    cbn in Hfirst. injection Hfirst as ->.
    (* [link] is the first child of [it], [target] the second of [item] *)
    assert (Hitwf : wellFormed item) by (by eapply wellFormed_child).
    destruct (list_elem_of_lookup_1 _ _ Hitem) as [i Hi].
    destruct (list_elem_of_lookup_1 _ _ Hit) as [k Hk].
    destruct (decide (i = k)) as [->|Hik].
    + rewrite Hi in Hk. injection Hk as <-.
      rewrite Hch in Hch0. injection Hch0 as <- <-.
      destruct item as [j nm cs]. unfold wellFormed in Hitwf.
      simpl in *. subst cs. apply NoDup_cons in Hitwf as [_ Hitwf].
      cbn [flat_map] in Hitwf. apply NoDup_app in Hitwf as (_ & Hd & _).
      apply (Hd (ident controller)); [apply ident_in_idents|].
      apply elem_of_app. by left.
    + assert (Hin1 : ident link ∈ idents it).
      { eapply idents_child; [|apply ident_in_idents]. rewrite Hch0. left. }
      assert (Hin2 : ident link ∈ idents item).
      { eapply idents_child; [|exact Htarget]. rewrite Hch. right. left. }
      clear -Hnd Hi Hk Hik Hin1 Hin2.
      revert i k Hi Hk Hik.
      induction (children menu) as [|a l IH]; intros i k Hi Hk Hik;
        [done|].
      cbn in Hnd. apply NoDup_app in Hnd as (_ & Hd & Hl).
      destruct i as [|i], k as [|k]; cbn in Hi, Hk; try done.
      * injection Hi as ->.
        apply (Hd (ident link)); [done|].
        eapply idents_in_flat_map; [|exact Hin1].
        by eapply list_elem_of_lookup_2.
      * injection Hk as ->.
        apply (Hd (ident link)); [done|].
        eapply idents_in_flat_map; [|exact Hin2].
        by eapply list_elem_of_lookup_2.
      * apply (IH Hl i k); try done. congruence.
Qed.

(** X11. After [init] on a well-formed list whose nested menus keep to
    their own lists, the list has the role [menubar], every child has the
    role [menuitem], whether it holds a link or not, and every collected
    link refers to the help text through [aria-describedby]; this holds
    as well when [init] throws for want of a link. *)
Theorem MenuBar_init_roles (menu : Element) (w : World) :
  wellFormed menu ->
  menuFramed Menu_new ->
  let w' := world (snd (init Menu_new (mkCtx w (blank (Some menu))))) in
  getAttribute menu "role" w' = Some (Str "menubar")
  /\ (forall child,
        child ∈ children menu ->
        getAttribute child "role" w' = Some (Str "menuitem"))
  /\ (forall link,
        link ∈ MenuItem.collectLinks (children menu) ->
        getAttribute link "aria-describedby" w' = Some (Str describedby)).
Proof.
  intros Hwf Hframe w'.
  set (links := MenuItem.collectLinks (children menu)).
  set (w1 := setAttribute menu "role" (Str "menubar") w).
  set (w2 := initChildren menu (Z.of_nat (length links)) (children menu) w1).
  set (w3 := initLinks menu links w2).
  assert (Hlate : forall n name,
             name <> "aria-expanded"%string ->
             name <> "aria-hidden"%string ->
             name <> "tabindex"%string ->
             n = ident menu
             \/ n ∈ map ident (children menu)
             \/ n ∈ map ident links ->
             attributes w' !! (n, name) = attributes w3 !! (n, name)).
  { intros n name H1 H2 H3 Hn.
    assert (Hout : forall item controller target after,
               item ∈ children menu ->
               children item = controller :: target :: after ->
               n ∉ idents target).
    { intros item controller target after Hitem Hch.
      by eapply outside_targets. }
    destruct (init_world Menu_new menu w) as [Hw|(item & _ & Hw)];
      subst w'; rewrite Hw.
    - by rewrite attributes_initPopups_outside.
    - rewrite attributes_rovingTabIndex by done.
      by rewrite attributes_initPopups_outside. }
  assert (Hself : ident menu ∉ map ident (children menu)).
  { intros (child & Hid & Hchild)%list_elem_of_fmap.
    destruct menu as [j nm cs]. unfold wellFormed in Hwf. simpl in *.
    apply NoDup_cons in Hwf as [Hj _]. apply Hj.
    eapply idents_in_flat_map; [exact Hchild|]. rewrite Hid.
    apply ident_in_idents. }
  unfold getAttribute. split; [|split].
  - rewrite Hlate by (try done; by left).
    subst w3. rewrite attributes_initLinks by done.
    subst w2. unfold initChildren. rewrite childrenLoop_other by done.
    subst w1. cbn. apply lookup_insert_eq.
  - intros child Hchild.
    rewrite Hlate
      by (try done; right; left; apply list_elem_of_fmap; by exists child).
    subst w3. rewrite attributes_initLinks by done.
    apply childrenLoop_role. apply list_elem_of_fmap. by exists child.
  - intros link Hlink.
    rewrite Hlate
      by (try done; right; right; apply list_elem_of_fmap; by exists link).
    apply initLinks_describedby. apply list_elem_of_fmap. by exists link.
Qed.

End MenuBarRoles.

(** ** MenuBar: the popup of the selected item *)

Section MenuBarPopupState.
Import MenuBar RovingTabIndex MenuBarSpec MenuBarPopups.
Context (kc : KeyCodes).
Context (nextPrev : Z -> option Element -> list Element -> option Element).
Context (matches : string -> Element -> bool).
Context (Menu_new : Element -> M World Menu.Menu).

Local Abbreviation handle := (handleMenuBarKeydown kc nextPrev matches).

Lemma popupOn_Popup_setState (p : Element) (b : bool) (w : World)
  (item : Element) :
  popupOn (Popup.setState p b w) item = popupOn w item.
Proof.
  unfold popupOn, Popup.setState.
  destruct (popupOf w !! ident p) as [o|] eqn:Ho; [|done].
  cbn. destruct (decide (ident item = ident p)) as [E|E].
  - by rewrite E, lookup_insert_eq, Ho.
  - by rewrite lookup_insert_ne.
Qed.

Lemma popupOn_focus (e : Element) (w : World) (item : Element) :
  popupOn (focus e w) item = popupOn w item.
Proof. reflexivity. Qed.

Lemma popupOn_rovingTabIndex (items : list Element) (x : Element)
  (w : World) (item : Element) :
  popupOn (rovingTabIndex items x w) item = popupOn w item.
Proof.
  unfold popupOn. revert w.
  induction items as [|a l IH]; intros w; [done|].
  rewrite rovingTabIndex_cons, IH. by destruct (same a x).
Qed.

(** Selecting an item records its popup. *)
Lemma setState_tracks (x : Element) (c : Ctx MenuBar) :
  let c' := snd (setState (Some x) c) in
  menuBarItems (this c') = menuBarItems (this c)
  /\ lastIndex (this c') = lastIndex (this c)
  /\ popupTracksItem c'.
Proof.
  rewrite setState_Some. cbn [snd]. repeat split.
  exists x. split; [reflexivity|].
  cbn [world this state assignPopup assignMenubarItem setStateOf popup].
  unfold popupOn at 2. cbn [focus popupOf].
  fold (popupOn (rovingTabIndex (menuBarItems (this c)) x (world c)) x).
  by rewrite popupOn_rovingTabIndex.
Qed.

Lemma handle_tracks (c : Ctx MenuBar) (ev : Event) :
  menuBarItems (this c) <> [] ->
  lastIndex (this c) = (Z.of_nat (length (menuBarItems (this c))) - 1)%Z ->
  popupTracksItem c ->
  let c' := snd (handle ev c) in
  menuBarItems (this c') = menuBarItems (this c)
  /\ lastIndex (this c') = lastIndex (this c)
  /\ popupTracksItem c'.
Proof.
  intros Hne Hlast Htrack.
  assert (Hset : forall x c1,
             menuBarItems (this c1) = menuBarItems (this c) ->
             lastIndex (this c1) = lastIndex (this c) ->
             let c2 := snd (setState (Some x) c1) in
             menuBarItems (this c2) = menuBarItems (this c)
             /\ lastIndex (this c2) = lastIndex (this c)
             /\ popupTracksItem c2).
  { intros x c1 Hi Hl c2.
    destruct (setState_tracks x c1) as (Hi2 & Hl2 & Ht2).
    fold c2 in Hi2, Hl2, Ht2. by rewrite Hi2, Hl2. }
  assert (Hkeep : forall c1 : Ctx MenuBar,
             menuBarItems (this c1) = menuBarItems (this c) ->
             lastIndex (this c1) = lastIndex (this c) ->
             state (this c1) = state (this c) ->
             (forall item, popupOn (world c1) item = popupOn (world c) item) ->
             menuBarItems (this c1) = menuBarItems (this c)
             /\ lastIndex (this c1) = lastIndex (this c)
             /\ popupTracksItem c1).
  { intros c1 Hi Hl Hs Hp. repeat split; try done.
    destruct Htrack as (item & Hitem & Hpop).
    exists item. by rewrite Hs, Hp. }
  set (r := handle ev c).
  assert (Hr : r = handle ev c) by reflexivity.
  unfold handleMenuBarKeydown, bind at 1, gets at 1 in Hr.
  cbn beta iota in Hr. rewrite Hr. clear Hr r.
  destruct ((keyCode ev =? LEFT kc)%Z || (keyCode ev =? RIGHT kc)%Z).
  { destruct (nextPrev _ _ _) as [nextItem|].
    - unfold bind, onWorld, modify. cbn.
      destruct (popup (state (this c))); by apply Hset.
    - unfold ret. cbn. by apply Hkeep. }
  destruct ((keyCode ev =? SPACE kc)%Z || (keyCode ev =? RETURN kc)%Z
            || (keyCode ev =? DOWN kc)%Z).
  { destruct (popup (state (this c))) as [p|];
      [|unfold ret; cbn; by apply Hkeep].
    unfold bind, onWorld, modify, gets, when, focusOrThrow, ret, throw.
    cbn.
    destruct (negb (Popup.isExpanded p _));
      destruct (popupOf (world c) !! ident p) as [o|];
      try destruct (PopupInstance.firstChild o);
      cbn; refine (Hkeep (mkCtx _ (this c)) _ _ _ _); try done;
      intros item; cbn [world];
      rewrite ?popupOn_focus, ?popupOn_Popup_setState; reflexivity. }
  destruct (keyCode ev =? HOME kc)%Z.
  { destruct (menuBarItems (this c)) as [|x l] eqn:Hitems; [done|].
    unfold bind, onWorld, modify. cbn [fst snd head].
    apply Hset; cbn; by rewrite ?Hitems. }
  destruct (keyCode ev =? END kc)%Z.
  { replace (item (menuBarItems (this c)) (lastIndex (this c)))
      with (last (menuBarItems (this c))) by (by rewrite Hlast, item_last).
    destruct (last (menuBarItems (this c))) as [x|] eqn:Hl.
    2:{ by apply last_None in Hl. }
    unfold bind, onWorld, modify. cbn [fst snd].
    by apply Hset. }
  unfold typeAhead, bind, onThis, modify, gets, ret. cbn.
  destruct (find _ _) as [x|].
  - by apply Hset.
  - cbn. by refine (Hkeep (mkCtx (world c) _) _ _ _ _).
Qed.

Lemma init_tracks (menu : Element) (w : World) (c : Ctx MenuBar) :
  init Menu_new (mkCtx w (blank (Some menu))) = (Normal tt, c) ->
  menuBarItems (this c) <> []
  /\ lastIndex (this c) = (Z.of_nat (length (menuBarItems (this c))) - 1)%Z
  /\ popupTracksItem c.
Proof.
  intros Hinit.
  unfold init, bind, gets, onWorld, onThis, modify, liftWorld in Hinit.
  cbn [world this MenuBar.menu blank fst snd setCollected menuBarItems]
    in Hinit.
  destruct (initPopups Menu_new (children menu) [] _) as [[ps|e] w4];
    [|discriminate].
  destruct (head (MenuItem.collectLinks (children menu))) as [item|] eqn:Hhead;
    cbn in Hinit; [|discriminate].
  injection Hinit as <-. cbn [this world menuBarItems lastIndex].
  split; [|split; [reflexivity|]].
  - cbn. intros E. by rewrite E in Hhead.
  - exists item. split; [reflexivity|].
    cbn [this world state popup]. by rewrite popupOn_rovingTabIndex.
Qed.

(** X12. In every state of a menubar that [init] built, reached by key
    presses, by clicks on any element and by state updates that select
    any element, an item is selected and [state.popup] is the popup saved
    on that item, or none when the item has no popup. *)
Theorem MenuBar_popup_tracks_item (onLink : bool) (menu : Element)
  (w : World) (c : Ctx MenuBar) :
  reachable kc nextPrev matches Menu_new onLink menu w c ->
  popupTracksItem c.
Proof.
  intros Hreach.
  enough (menuBarItems (this c) <> []
          /\ lastIndex (this c)
             = (Z.of_nat (length (menuBarItems (this c))) - 1)%Z
          /\ popupTracksItem c) as (_ & _ & H) by exact H.
  induction Hreach as [c Hinit | c c' Hreach (Hne & Hlast & Htrack) Hstep].
  - by eapply init_tracks.
  - assert (Hset : forall x,
               let c2 := snd (setState (Some x) c) in
               menuBarItems (this c2) <> []
               /\ lastIndex (this c2)
                  = (Z.of_nat (length (menuBarItems (this c2))) - 1)%Z
               /\ popupTracksItem c2).
    { intros x c2. destruct (setState_tracks x c) as (Hi & Hl & Ht).
      fold c2 in Hi, Hl, Ht. by rewrite Hi, Hl. }
    inversion Hstep as [ev c0 E1 E2 | ev c0 Hin E1 E2 | x c0 Hin E1 E2];
      subst.
    + destruct (handle_tracks c ev Hne Hlast Htrack) as (Hi & Hl & Ht).
      by rewrite Hi, Hl.
    + apply Hset.
    + apply Hset.
Qed.

End MenuBarPopupState.

(** ** MenuBar: the keys that open a popup, and what can throw *)

Section MenuBarOpening.
Import MenuBar RovingTabIndex MenuBarSpec MenuBarPopups.
Context (kc : KeyCodes).
Context (nextPrev : Z -> option Element -> list Element -> option Element).
Context (matches : string -> Element -> bool).

Local Abbreviation handle := (handleMenuBarKeydown kc nextPrev matches).

(** The handler in its second case. *)
Lemma handle_opening (c : Ctx MenuBar) (ev : Event) :
  ((keyCode ev =? LEFT kc)%Z || (keyCode ev =? RIGHT kc)%Z) = false ->
  ((keyCode ev =? SPACE kc)%Z || (keyCode ev =? RETURN kc)%Z
   || (keyCode ev =? DOWN kc)%Z) = true ->
  handle ev c
  = match popup (state (this c)) with
    | None => (Normal tt, c)
    | Some p =>
        let suppressed := preventDefault (stopPropagation (world c)) in
        let opened :=
          if Popup.isExpanded p (world c) then suppressed
          else Popup.setState p true suppressed in
        focusOrThrow (firstChildOf (world c) p) (mkCtx opened (this c))
    end.
Proof.
  intros Hlr Hopen.
  set (r := handle ev c).
  assert (Hr : r = handle ev c) by reflexivity.
  unfold handleMenuBarKeydown, bind at 1, gets at 1 in Hr.
  cbn beta iota in Hr. rewrite Hlr, Hopen in Hr. rewrite Hr. clear Hr r.
  destruct (popup (state (this c))) as [p|]; [|by destruct c].
  unfold bind, onWorld, modify, gets, when, ret. cbn.
  unfold firstChildOf.
  change (Popup.isExpanded p (preventDefault (stopPropagation (world c))))
    with (Popup.isExpanded p (world c)).
  by destruct (Popup.isExpanded p (world c)).
Qed.

Lemma opens_tests (ev : Event) :
  LEFT kc <> SPACE kc -> LEFT kc <> RETURN kc -> LEFT kc <> DOWN kc ->
  RIGHT kc <> SPACE kc -> RIGHT kc <> RETURN kc -> RIGHT kc <> DOWN kc ->
  opens kc ev ->
  ((keyCode ev =? LEFT kc)%Z || (keyCode ev =? RIGHT kc)%Z) = false
  /\ ((keyCode ev =? SPACE kc)%Z || (keyCode ev =? RETURN kc)%Z
      || (keyCode ev =? DOWN kc)%Z) = true.
Proof.
  intros ? ? ? ? ? ? [Hk|[Hk|Hk]]; rewrite Hk; split;
    rewrite ?Z.eqb_refl, ?orb_true_r; try reflexivity;
    decide_keys; reflexivity.
Qed.

(** X13. SPACE, RETURN and DOWN act on the popup of the selected item.
    Without a popup they do nothing, and do not suppress the event.  With
    one they suppress the event, leave the selection and the tab order as
    they are, expand the popup, and focus its first child; a popup
    without a first child is expanded all the same, and only then the
    handler throws a [TypeError], with the focus where it was. *)
Theorem MenuBar_opening_keys (c : Ctx MenuBar) (ev : Event) :
  distinctCodes kc ->
  opens kc ev ->
  let c' := snd (handle ev c) in
  (popup (state (this c)) = None -> handle ev c = (Normal tt, c))
  /\
  (forall p,
     popup (state (this c)) = Some p ->
     is_Some (popupOf (world c) !! ident p) ->
     this c' = this c
     /\ defaultPrevented (world c') = true
     /\ propagationStopped (world c') = true
     /\ tabOrder c' = tabOrder c
     /\ Popup.isExpanded p (world c') = true
     /\ match firstChildOf (world c) p with
        | Some first =>
            fst (handle ev c) = Normal tt
            /\ activeElement (world c') = Some first
        | None =>
            fst (handle ev c) = Throw TypeError
            /\ activeElement (world c') = activeElement (world c)
        end).
Proof.
  intros Hkeys Hopen c'. subst c'.
  assert (Htests : ((keyCode ev =? LEFT kc)%Z || (keyCode ev =? RIGHT kc)%Z)
                   = false
                   /\ ((keyCode ev =? SPACE kc)%Z
                       || (keyCode ev =? RETURN kc)%Z
                       || (keyCode ev =? DOWN kc)%Z) = true).
  { distinct_codes Hkeys. apply opens_tests; try done; congruence. }
  destruct Htests as [Hlr Hop].
  rewrite (handle_opening c ev Hlr Hop). split.
  - by intros ->.
  - intros p -> Hsaved. cbn zeta.
    set (suppressed := preventDefault (stopPropagation (world c))).
    set (opened := if Popup.isExpanded p (world c) then suppressed
                   else Popup.setState p true suppressed).
    assert (Hflags : defaultPrevented opened = true
                     /\ propagationStopped opened = true).
    { subst opened. destruct (Popup.isExpanded p (world c)); [done|].
      by destruct (flags_setState p true suppressed) as [-> ->]. }
    assert (Hexp : Popup.isExpanded p opened = true).
    { subst opened. destruct (Popup.isExpanded p (world c)) eqn:He;
        [exact He|]. by apply isExpanded_setState. }
    assert (Hact : activeElement opened = activeElement (world c)).
    { subst opened. destruct (Popup.isExpanded p (world c)); [done|].
      by rewrite activeElement_setState. }
    assert (Htab : forall w' : World,
               (forall n, attributes w' !! (n, "tabindex"%string)
                          = attributes opened !! (n, "tabindex"%string)) ->
               tabOrder (mkCtx w' (this c)) = tabOrder c).
    { intros w' Hw'. unfold tabOrder. cbn [world this].
      apply list_filter_iff. intros e.
      rewrite (inTabOrder_attributes opened w' e Hw').
      rewrite (inTabOrder_attributes (world c) opened e); [done|].
      intros n. subst opened.
      destruct (Popup.isExpanded p (world c)); [done|].
      by rewrite tabindex_Popup_setState. }
    destruct Hflags as [Hd Hs].
    destruct (firstChildOf (world c) p) as [first|]; cbn.
    + repeat split; try done. by apply Htab.
    + repeat split; try done. by apply Htab.
Qed.

(** X14. On a menubar with collected links, the keydown handler throws
    in one case only: an opening key on a selected item whose popup has
    no first child.  Every other key press completes normally. *)
Theorem MenuBar_keydown_throws_only_on_empty_popup (c : Ctx MenuBar)
  (ev : Event) :
  menuBarItems (this c) <> [] ->
  lastIndex (this c) = (Z.of_nat (length (menuBarItems (this c))) - 1)%Z ->
  fst (handle ev c) = Normal tt
  \/ (fst (handle ev c) = Throw TypeError
      /\ opens kc ev
      /\ exists p, popup (state (this c)) = Some p
                   /\ firstChildOf (world c) p = None).
Proof.
  intros Hne Hlast.
  destruct ((keyCode ev =? LEFT kc)%Z || (keyCode ev =? RIGHT kc)%Z)
    eqn:Hlr.
  { left.
    assert (Hk : keyCode ev = LEFT kc \/ keyCode ev = RIGHT kc).
    { apply orb_true_iff in Hlr as [H|H]; apply Z.eqb_eq in H; auto. }
    pose proof (handle_left_right kc nextPrev matches c ev Hk) as H.
    cbn zeta in H.
    destruct (nextPrev _ _ _) as [nextItem|];
      [destruct H as [-> _]; by rewrite setState_Some|by rewrite H]. }
  destruct ((keyCode ev =? SPACE kc)%Z || (keyCode ev =? RETURN kc)%Z
            || (keyCode ev =? DOWN kc)%Z) eqn:Hop.
  { rewrite (handle_opening c ev Hlr Hop).
    destruct (popup (state (this c))) as [p|]; [|by left].
    cbn zeta. destruct (firstChildOf (world c) p) as [first|] eqn:Hf;
      [by left|].
    right. split; [done|]. split; [|by exists p].
    unfold opens.
    apply orb_true_iff in Hop as [Hop|Hop];
      [apply orb_true_iff in Hop as [Hop|Hop]|];
      apply Z.eqb_eq in Hop; auto. }
  left.
  set (r := handle ev c).
  assert (Hr : r = handle ev c) by reflexivity.
  unfold handleMenuBarKeydown, bind at 1, gets at 1 in Hr.
  cbn beta iota in Hr. rewrite Hlr, Hop in Hr. rewrite Hr. clear Hr r.
  destruct (keyCode ev =? HOME kc)%Z.
  { destruct (menuBarItems (this c)) as [|x l] eqn:Hitems; [done|].
    unfold bind, onWorld, modify. cbn [fst snd head].
    by rewrite setState_Some. }
  destruct (keyCode ev =? END kc)%Z.
  { rewrite Hlast, item_last.
    destruct (last (menuBarItems (this c))) as [x|] eqn:Hl.
    2:{ by apply last_None in Hl. }
    unfold bind, onWorld, modify. cbn [fst snd].
    by rewrite setState_Some. }
  unfold typeAhead, bind, onThis, modify, gets, ret. cbn.
  by destruct (find _ _) as [x|].
Qed.

(** X15. RIGHT and then LEFT return to where they started.  With a
    helper that resolves neighbours as the spec says, on a menubar whose
    selected item is the collected link at position [i] and has a link
    after it, RIGHT selects that next link, and LEFT pressed there
    selects the link at position [i] again: both complete normally, and
    in the end that link has the focus and is the one link in the tab
    order. *)
Theorem MenuBar_right_then_left (c : Ctx MenuBar) (right left : Event)
  (i : nat) (active x y : Element) :
  collected c ->
  resolvesNeighbours kc nextPrev ->
  keyCode right = RIGHT kc ->
  keyCode left = LEFT kc ->
  menubarItem (state (this c)) = Some active ->
  menuBarItems (this c) !! i = Some x ->
  ident active = ident x ->
  menuBarItems (this c) !! S i = Some y ->
  let c1 := snd (handle right c) in
  let c2 := snd (handle left c1) in
  fst (handle right c) = Normal tt
  /\ menubarItem (state (this c1)) = Some y
  /\ activeElement (world c1) = Some y
  /\ fst (handle left c1) = Normal tt
  /\ menubarItem (state (this c2)) = Some x
  /\ activeElement (world c2) = Some x
  /\ tabOrder c2 = [x].
Proof.
  intros Hcol Hres Hright Hleft Hsel Hx Hid Hy c1 c2.
  assert (Hnd : NoDup (map ident (menuBarItems (this c))))
    by apply Hcol.
  (* RIGHT *)
  pose proof (handle_left_right kc nextPrev matches c right
                (or_intror Hright)) as H1.
  cbn zeta in H1. rewrite Hright, Hsel in H1.
  destruct (Hres _ i active x y Hnd Hx Hid) as [Hr _].
  rewrite (Hr Hy) in H1. destruct H1 as (Hrun1 & _ & _).
  set (closed := match popup (state (this c)) with
                 | Some p =>
                     Popup.setState p false
                       (preventDefault (stopPropagation (world c)))
                 | None => preventDefault (stopPropagation (world c))
                 end) in Hrun1.
  assert (Hcol0 : collected (mkCtx closed (this c))) by exact Hcol.
  destruct (setState_roving y (mkCtx closed (this c)) Hcol0
              (list_elem_of_lookup_2 _ _ _ Hy))
    as (Hn1 & Hcol1 & _ & Hsel1 & Hact1).
  rewrite <- Hrun1 in Hn1, Hcol1, Hsel1, Hact1.
  fold c1 in Hcol1, Hsel1, Hact1.
  assert (Hitems1 : menuBarItems (this c1) = menuBarItems (this c)).
  { subst c1. rewrite Hrun1. by rewrite setState_Some. }
  (* LEFT *)
  pose proof (handle_left_right kc nextPrev matches c1 left
                (or_introl Hleft)) as H2.
  cbn zeta in H2. rewrite Hleft, Hsel1, Hitems1 in H2.
  destruct (Hres _ (S i) y y x Hnd Hy eq_refl) as [_ Hl].
  rewrite (Hl i eq_refl Hx) in H2. destruct H2 as (Hrun2 & _ & _).
  set (closed1 := match popup (state (this c1)) with
                  | Some p =>
                      Popup.setState p false
                        (preventDefault (stopPropagation (world c1)))
                  | None => preventDefault (stopPropagation (world c1))
                  end) in Hrun2.
  assert (Hcol1' : collected (mkCtx closed1 (this c1))) by exact Hcol1.
  assert (Hx1 : x ∈ menuBarItems (this (mkCtx closed1 (this c1)))).
  { cbn [this]. rewrite Hitems1. by eapply list_elem_of_lookup_2. }
  destruct (setState_roving x (mkCtx closed1 (this c1)) Hcol1' Hx1)
    as (Hn2 & _ & Hinv2 & Hsel2 & Hact2).
  rewrite <- Hrun2 in Hn2, Hinv2, Hsel2, Hact2.
  fold c2 in Hinv2, Hsel2, Hact2.
  repeat split; try done.
  destruct Hinv2 as (cur & Hcur & Htab).
  rewrite Hsel2 in Hcur. by injection Hcur as <-.
Qed.

End MenuBarOpening.

(** ** MenuBar.init: the popups of the nested lists *)

Section MenuBarInitPopups.
Import MenuBar RovingTabIndex MenuBarSpec MenuBarPopups MenuBarInitSpec.
Context (kc : KeyCodes).
Context (nextPrev : Z -> option Element -> list Element -> option Element).
Context (matches : string -> Element -> bool).
Context (Menu_new : Element -> M World Menu.Menu).

Local Abbreviation handle := (handleMenuBarKeydown kc nextPrev matches).

Lemma popupOf_Popup_new (controller target : Element) (w : World) :
  popupOf (Popup.new controller target w)
  = <[ident controller := built controller target]> (popupOf w).
Proof. reflexivity. Qed.

Lemma popupOf_rovingTabIndex (items : list Element) (x : Element)
  (w : World) :
  popupOf (rovingTabIndex items x w) = popupOf w.
Proof.
  revert w. induction items as [|a l IH]; intros w; [done|].
  rewrite rovingTabIndex_cons, IH. by destruct (same a x).
Qed.

Lemma popupOf_initLinks (menu : Element) (links : list Element)
  (w : World) :
  popupOf (initLinks menu links w) = popupOf w.
Proof.
  unfold initLinks. revert w.
  induction links as [|a l IH]; intros w; [done|].
  cbn [fold_left]. by rewrite IH.
Qed.

Lemma popupOf_childrenLoop (menu : Element) (menuLength : Z)
  (children : list Element) (index : Z) (w : World) :
  popupOf (snd (childrenLoop menu menuLength children (index, w)))
  = popupOf w.
Proof.
  revert index w. induction children as [|a l IH]; intros index w; [done|].
  by rewrite childrenLoop_cons, IH.
Qed.

(** What the loop over the children has built when it is done. *)
Lemma initPopups_built (items acc : list Element) (w : World) :
  menuKeepsPopups Menu_new ->
  NoDup (flat_map idents items) ->
  exists ps w',
    initPopups Menu_new items acc w = (Normal ps, w')
    /\ (forall x,
          x ∈ ps <->
          x ∈ acc \/ exists item target,
                       item ∈ items /\ hasPopup item x target)
    /\ (forall item controller target,
          item ∈ items -> hasPopup item controller target ->
          popupOf w' !! ident controller = Some (built controller target))
    /\ (forall n,
          (forall item controller target,
             item ∈ items -> hasPopup item controller target ->
             ident controller <> n) ->
          popupOf w' !! n = popupOf w !! n).
Proof.
  intros Hmenu. revert acc w.
  induction items as [|item rest IH]; intros acc w Hnd.
  { exists acc, w. split; [done|]. split; [|split].
    - intros x. split; [by left|].
      intros [?|(it & ? & Hit & _)]; [done|by apply elem_of_nil in Hit].
    - intros it ? ? Hit. by apply elem_of_nil in Hit.
    - done. }
  cbn [flat_map] in Hnd. apply NoDup_app in Hnd as (Hitem & Hdisj & Hrest).
  (* a child that gets no popup *)
  assert (Hskip : (forall controller target,
                     ~ hasPopup item controller target) ->
                  forall acc0,
                  (forall x, x ∈ acc0 <-> x ∈ acc) ->
                  exists ps w',
                    initPopups Menu_new rest acc0 w = (Normal ps, w')
                    /\ (forall x,
                          x ∈ ps <->
                          x ∈ acc \/ exists it target,
                                       it ∈ item :: rest
                                       /\ hasPopup it x target)
                    /\ (forall it controller target,
                          it ∈ item :: rest ->
                          hasPopup it controller target ->
                          popupOf w' !! ident controller
                          = Some (built controller target))
                    /\ (forall n,
                          (forall it controller target,
                             it ∈ item :: rest ->
                             hasPopup it controller target ->
                             ident controller <> n) ->
                          popupOf w' !! n = popupOf w !! n)).
  { intros Hno acc0 Hacc.
    destruct (IH acc0 w Hrest) as (ps & w' & Hrun & Hps & Hsaved & Hother).
    exists ps, w'. split; [done|]. split; [|split].
    - intros x. rewrite Hps, Hacc. split.
      + intros [?|(it & t & Hit & Hp)]; [by left|].
        right. exists it, t. split; [by right|done].
      + intros [?|(it & t & Hit & Hp)]; [by left|].
        apply elem_of_cons in Hit as [->|Hit]; [by apply Hno in Hp|].
        right. by exists it, t.
    - intros it controller target Hit Hp.
      apply elem_of_cons in Hit as [->|Hit]; [by apply Hno in Hp|].
      by apply (Hsaved it).
    - intros n Hn. apply Hother. intros it controller target Hit.
      apply Hn. by right. }
  cbn [initPopups].
  destruct (children item) as [|controller [|target after]] eqn:Hch.
  { apply Hskip; [|done]. intros ? ? (? & E & _). by rewrite Hch in E. }
  { apply Hskip; [|done]. intros ? ? (? & E & _). by rewrite Hch in E. }
  destruct (String.eqb_spec "A" (nodeName controller)) as [HA|HA];
    [destruct (String.eqb_spec "UL" (nodeName target)) as [HU|HU]|];
    cbn [andb].
  2:{ apply Hskip; [|done]. intros ? ? (? & E & _ & E2).
      rewrite Hch in E. injection E as <- <- <-. congruence. }
  2:{ apply Hskip; [|done]. intros ? ? (? & E & E1 & _).
      rewrite Hch in E. injection E as <- <- <-. congruence. }
  assert (Hhas : hasPopup item controller target).
  { exists after. by rewrite Hch. }
  unfold bind at 1. unfold modify at 1. unfold bind at 1.
  destruct (Hmenu target (Popup.new controller target w)) as [Hn Hkeep].
  destruct (Menu_new target (Popup.new controller target w))
    as [[m|e] w1]; [|discriminate]. cbn [snd] in Hkeep.
  destruct (IH (acc ++ [controller]) w1 Hrest)
    as (ps & w' & Hrun & Hps & Hsaved & Hother).
  exists ps, w'. split; [done|]. split; [|split].
  - intros x. rewrite Hps, elem_of_app, list_elem_of_singleton. split.
    + intros [[?| ->]|(it & t & Hit & Hp)].
      * by left.
      * right. exists item, target. split; [left|done].
      * right. exists it, t. split; [by right|done].
    + intros [?|(it & t & Hit & Hp)]; [by left; left|].
      apply elem_of_cons in Hit as [->|Hit].
      * destruct Hp as (? & E & _). rewrite Hch in E.
        injection E as <- <- <-. left. by right.
      * right. by exists it, t.
  - intros it c0 t0 Hit Hp.
    apply elem_of_cons in Hit as [->|Hit]; [|by apply (Hsaved it)].
    destruct Hp as (? & E & _). rewrite Hch in E.
    injection E as <- <- <-.
    rewrite Hother.
    + rewrite Hkeep, popupOf_Popup_new. apply lookup_insert_eq.
    + intros it c1 t1 Hit (a1 & E1 & _) Heq.
      apply (Hdisj (ident controller)).
      * eapply idents_child; [|apply ident_in_idents]. rewrite Hch. left.
      * eapply idents_in_flat_map; [exact Hit|].
        eapply idents_child; [|rewrite <- Heq; apply ident_in_idents].
        rewrite E1. left.
  - intros n Hnot. rewrite Hother.
    + rewrite Hkeep, popupOf_Popup_new. apply lookup_insert_ne.
      apply (Hnot item controller target); [left|done].
    + intros it c1 t1 Hit. apply Hnot. by right.
Qed.

(** The state [init] ends in, by what the loop has built. *)
Lemma init_popups (menu first : Element) (w : World) :
  wellFormed menu ->
  menuKeepsPopups Menu_new ->
  head (MenuItem.collectLinks (children menu)) = Some first ->
  let built_ := init Menu_new (mkCtx w (blank (Some menu))) in
  let c := snd built_ in
  fst built_ = Normal tt
  /\ menubarItem (state (this c)) = Some first
  /\ popup (state (this c)) = popupOn (world c) first
  /\ (forall x,
        x ∈ popups (this c) <->
        exists item target, item ∈ children menu /\ hasPopup item x target)
  /\ (forall item controller target,
        item ∈ children menu -> hasPopup item controller target ->
        popupOf (world c) !! ident controller
        = Some (built controller target))
  /\ (forall n,
        (forall item controller target,
           item ∈ children menu -> hasPopup item controller target ->
           ident controller <> n) ->
        popupOf (world c) !! n = popupOf w !! n).
Proof.
  intros Hwf Hmenu Hfirst built_ c.
  assert (Hnd : NoDup (flat_map idents (children menu))).
  { destruct menu as [j nm cs]. unfold wellFormed in Hwf. simpl in *.
    by apply NoDup_cons in Hwf as [_ Hwf]. }
  subst c built_.
  unfold init, bind, gets, onWorld, onThis, modify, liftWorld.
  cbn [world this MenuBar.menu blank fst snd setCollected menuBarItems].
  match goal with
  | |- context [initPopups Menu_new ?l ?a ?w0] =>
      destruct (initPopups_built l a w0 Hmenu Hnd)
        as (ps & w4 & Hrun & Hps & Hsaved & Hother);
      rewrite Hrun
  end.
  rewrite Hfirst. cbn.
  assert (Hpop : forall n,
             popupOf (rovingTabIndex
                        (MenuItem.collectLinks (children menu)) first w4)
               !! n = popupOf w4 !! n).
  { intros n. by rewrite popupOf_rovingTabIndex. }
  split; [done|]. split; [done|]. split; [|split; [|split]].
  - unfold popupOn. by rewrite Hpop.
  - intros x. rewrite Hps. split; [|by right].
    intros [Hx|Hx]; [by apply elem_of_nil in Hx|done].
  - intros item controller target Hitem Hp. rewrite Hpop.
    by apply (Hsaved item).
  - intros n Hn. rewrite Hpop, Hother by done.
    rewrite popupOf_initLinks. unfold initChildren.
    by rewrite popupOf_childrenLoop.
Qed.

(** X16. The popups [init] builds.  On a well-formed list with a
    collected link, with nested menus whose constructor completes
    normally and leaves the popups alone, [init] completes normally;
    [this.popups] holds exactly the collected links that are followed by
    a list; on each of them the popup built for that link and that list
    is saved, not yet expanded; and no popup is saved or removed anywhere
    else. *)
Theorem MenuBar_init_popups (menu : Element) (w : World) :
  wellFormed menu ->
  menuKeepsPopups Menu_new ->
  MenuItem.collectLinks (children menu) <> [] ->
  let built_ := init Menu_new (mkCtx w (blank (Some menu))) in
  let c := snd built_ in
  fst built_ = Normal tt
  /\ (forall x,
        x ∈ popups (this c) <->
        exists item target, item ∈ children menu /\ hasPopup item x target)
  /\ (forall item controller target,
        item ∈ children menu -> hasPopup item controller target ->
        popupOf (world c) !! ident controller
        = Some (built controller target)
        /\ Popup.isExpanded controller (world c) = false)
  /\ (forall n,
        n ∉ map ident (popups (this c)) ->
        popupOf (world c) !! n = popupOf w !! n).
Proof.
  intros Hwf Hmenu Hne built_ c.
  destruct (MenuItem.collectLinks (children menu)) as [|first l] eqn:Hl;
    [done|].
  destruct (init_popups menu first w Hwf Hmenu) as
    (Hn & _ & _ & Hps & Hsaved & Hother); [by rewrite Hl|].
  fold built_ in Hn. fold built_ c in Hps, Hsaved, Hother.
  split; [exact Hn|]. split; [exact Hps|]. split.
  - intros item controller target Hitem Hp.
    pose proof (Hsaved item controller target Hitem Hp) as Hs.
    split; [exact Hs|]. unfold Popup.isExpanded. by rewrite Hs.
  - intros n Hn'. apply Hother. intros item controller target Hitem Hp E.
    apply Hn'. rewrite <- E. apply list_elem_of_fmap.
    exists controller. split; [done|]. apply Hps. by exists item, target.
Qed.

(** X17. Opening the popup of the first item.  After [init] on such a
    list whose first collected link is followed by a list that holds an
    element that takes focus, SPACE, RETURN and DOWN complete normally:
    they suppress the event, expand the popup of the first link and
    focus the first such element of the nested list, and the first link
    stays selected. *)
Theorem MenuBar_opens_first_popup (menu item first target f : Element)
  (w : World) (ev : Event) :
  distinctCodes kc ->
  wellFormed menu ->
  menuKeepsPopups Menu_new ->
  head (MenuItem.collectLinks (children menu)) = Some first ->
  item ∈ children menu ->
  hasPopup item first target ->
  head (Popup.interactiveChildElements target) = Some f ->
  opens kc ev ->
  let c := snd (init Menu_new (mkCtx w (blank (Some menu)))) in
  let c' := snd (handle ev c) in
  fst (handle ev c) = Normal tt
  /\ activeElement (world c') = Some f
  /\ Popup.isExpanded first (world c) = false
  /\ Popup.isExpanded first (world c') = true
  /\ defaultPrevented (world c') = true
  /\ propagationStopped (world c') = true
  /\ menubarItem (state (this c')) = Some first.
Proof.
  intros Hkeys Hwf Hmenu Hfirst Hitem Hp Hf Hopen c c'.
  destruct (init_popups menu first w Hwf Hmenu Hfirst) as
    (_ & Hsel & Hpop & _ & Hsaved & _).
  fold c in Hsel, Hpop, Hsaved.
  pose proof (Hsaved item first target Hitem Hp) as Hs.
  assert (Hpopup : popup (state (this c)) = Some first).
  { rewrite Hpop. unfold popupOn. by rewrite Hs. }
  assert (Htests : ((keyCode ev =? LEFT kc)%Z || (keyCode ev =? RIGHT kc)%Z)
                   = false
                   /\ ((keyCode ev =? SPACE kc)%Z
                       || (keyCode ev =? RETURN kc)%Z
                       || (keyCode ev =? DOWN kc)%Z) = true).
  { distinct_codes Hkeys. apply opens_tests; try done; congruence. }
  destruct Htests as [Hlr Hop].
  assert (Hexp : Popup.isExpanded first (world c) = false).
  { unfold Popup.isExpanded. by rewrite Hs. }
  subst c'. rewrite (handle_opening kc nextPrev matches c ev Hlr Hop).
  rewrite Hpopup. cbn zeta. rewrite Hexp.
  unfold firstChildOf. rewrite Hs. cbn [PopupInstance.firstChild built].
  rewrite Hf. cbn.
  destruct (flags_setState first true
              (preventDefault (stopPropagation (world c)))) as [-> ->].
  repeat split; try done.
  apply isExpanded_setState. cbn. by rewrite Hs.
Qed.

End MenuBarInitPopups.

(** ** MenuBar.destroy: what it removes and what it leaves *)

Section MenuBarDestroy.
Import MenuBar RovingTabIndex MenuBarSpec MenuBarTeardown.
Context (destroyPopup : Element -> M World unit).

(** The callback, by the parent it finds. *)
Lemma destroyLink_run (menu link : Element) (w : World) :
  destroyLink menu link w
  = match parentIn (document w) link with
    | Some p =>
        (Normal tt,
         removeEventListener link "click"
           (MenuBar_handleMenuBarClick (ident menu))
           (removeEventListener p "keydown"
              (MenuBar_handleMenuBarKeydown (ident menu))
              (removeAttribute p "aria-posinset"
                 (removeAttribute p "aria-setsize"
                    (removeAttribute link "aria-describedby" w)))))
    | None => (Throw TypeError, removeAttribute link "aria-describedby" w)
    end.
Proof.
  unfold destroyLink, bind, modify, gets. cbn.
  by destruct (parentIn (document w) link).
Qed.

Lemma document_destroyLinks (menu : Element) (links : list Element)
  (w : World) :
  document (snd (forEach (destroyLink menu) links w)) = document w.
Proof.
  revert w. induction links as [|a l IH]; intros w; [done|].
  cbn [forEach]. unfold bind. rewrite destroyLink_run.
  destruct (parentIn (document w) a); [|done].
  rewrite IH. reflexivity.
Qed.

(** The loop only removes attributes. *)
Lemma destroyLinks_removes (menu : Element) (links : list Element)
  (w : World) (k : Node * string) :
  attributes w !! k = None ->
  attributes (snd (forEach (destroyLink menu) links w)) !! k = None.
Proof.
  revert w. induction links as [|a l IH]; intros w Hk; [done|].
  cbn [forEach]. unfold bind. rewrite destroyLink_run.
  destruct (parentIn (document w) a).
  - apply IH. cbn. rewrite !lookup_delete_None. auto.
  - cbn. rewrite lookup_delete_None. auto.
Qed.

(** It leaves an attribute alone unless it is the help text of a link
    or the size or position of the parent of a link. *)
Lemma destroyLinks_other (menu : Element) (links : list Element)
  (w : World) (n : Node) (name : string) :
  (name = "aria-describedby"%string -> n ∉ map ident links) ->
  (name = "aria-setsize"%string \/ name = "aria-posinset"%string ->
   forall link p,
     link ∈ links -> parentIn (document w) link = Some p -> ident p <> n) ->
  attributes (snd (forEach (destroyLink menu) links w)) !! (n, name)
  = attributes w !! (n, name).
Proof.
  revert w. induction links as [|a l IH]; intros w Hd Hs; [done|].
  cbn [forEach]. unfold bind. rewrite destroyLink_run.
  assert (Hfirst : attributes (removeAttribute a "aria-describedby" w)
                     !! (n, name)
                   = attributes w !! (n, name)).
  { cbn. apply lookup_delete_ne. intros [= <- <-].
    apply (Hd eq_refl). cbn. left. }
  destruct (parentIn (document w) a) as [p|] eqn:Hp; [|exact Hfirst].
  rewrite IH.
  - cbn. cbn in Hfirst.
    rewrite lookup_delete_ne.
    2:{ intros [= E <-].
        apply (Hs (or_intror eq_refl) a p); [left|done|done]. }
    rewrite lookup_delete_ne.
    2:{ intros [= E <-].
        apply (Hs (or_introl eq_refl) a p); [left|done|done]. }
    exact Hfirst.
  - intros E. specialize (Hd E). cbn in Hd.
    by apply not_elem_of_cons in Hd as [_ Hd].
  - intros E link q Hlink Hq. apply (Hs E link q); [by right|exact Hq].
Qed.

(** Where every link has a parent, the loop completes normally and has
    removed the size and the position of each of these parents. *)
Lemma destroyLinks_parents (menu : Element) (links : list Element)
  (w : World) :
  (forall link, link ∈ links -> is_Some (parentIn (document w) link)) ->
  fst (forEach (destroyLink menu) links w) = Normal tt
  /\ forall link p,
       link ∈ links -> parentIn (document w) link = Some p ->
       attributes (snd (forEach (destroyLink menu) links w))
         !! (ident p, "aria-setsize"%string) = None
       /\ attributes (snd (forEach (destroyLink menu) links w))
            !! (ident p, "aria-posinset"%string) = None.
Proof.
  revert w. induction links as [|a l IH]; intros w Hparents.
  { split; [done|]. intros link p Hlink. by apply elem_of_nil in Hlink. }
  cbn [forEach]. unfold bind. rewrite destroyLink_run.
  destruct (Hparents a ltac:(left)) as [q Hq]. rewrite Hq.
  set (w1 := removeEventListener a "click" _ _).
  assert (Hdoc : document w1 = document w) by reflexivity.
  destruct (IH w1) as [Hn Hrest].
  { intros link Hlink. rewrite Hdoc. apply Hparents. by right. }
  split; [exact Hn|].
  intros link p [->|Hlink]%elem_of_cons Hp.
  - rewrite Hq in Hp. injection Hp as <-.
    split; apply destroyLinks_removes; subst w1; cbn.
    + rewrite lookup_delete_ne by (intros [=]). apply lookup_delete_eq.
    + apply lookup_delete_eq.
  - apply (Hrest link p); [done|]. by rewrite Hdoc.
Qed.

Lemma forEach_keeps (popups : list Element) (w : World)
  (k : Node * string) :
  (forall popup w0,
     attributes (snd (destroyPopup popup w0)) !! k = attributes w0 !! k) ->
  attributes (snd (forEach destroyPopup popups w)) !! k = attributes w !! k.
Proof.
  intros Hkeep. revert w.
  induction popups as [|p l IH]; intros w; [done|].
  cbn [forEach]. unfold bind.
  pose proof (Hkeep p w) as Hp.
  destruct (destroyPopup p w) as [[[]|e] w1]; cbn [snd] in *.
  - by rewrite IH.
  - exact Hp.
Qed.

Lemma forEach_completes (popups : list Element) (w : World) :
  (forall popup w0, fst (destroyPopup popup w0) = Normal tt) ->
  fst (forEach destroyPopup popups w) = Normal tt.
Proof.
  intros Hn. revert w.
  induction popups as [|p l IH]; intros w; [done|].
  cbn [forEach]. unfold bind.
  pose proof (Hn p w) as Hp.
  destruct (destroyPopup p w) as [r w1]. cbn in Hp. subst r. apply IH.
Qed.

Lemma attributes_tabIndexAllow (items : list Element) (w : World)
  (n : Node) (name : string) :
  name <> "tabindex"%string ->
  attributes (tabIndexAllow items w) !! (n, name) = attributes w !! (n, name).
Proof.
  intros Hname. unfold tabIndexAllow. revert w.
  induction items as [|a l IH]; intros w; [done|].
  cbn [fold_left]. rewrite IH. cbn.
  apply lookup_delete_ne. congruence.
Qed.

Lemma tabIndexAllow_removes (items : list Element) (w : World)
  (link : Element) :
  link ∈ items ->
  getAttribute link "tabindex" (tabIndexAllow items w) = None.
Proof.
  unfold tabIndexAllow, getAttribute.
  assert (Hstays : forall (l : list Element) w0 k,
             attributes w0 !! k = None ->
             attributes
               (fold_left (fun w item => removeAttribute item "tabindex" w)
                  l w0) !! k = None).
  { induction l as [|b l IH]; intros w0 k Hk; [done|].
    cbn [fold_left]. apply IH. cbn. rewrite lookup_delete_None. auto. }
  revert w. induction items as [|a l IH]; intros w Hin;
    [by apply elem_of_nil in Hin|].
  cbn [fold_left]. apply elem_of_cons in Hin as [->|Hin]; [|by apply IH].
  apply Hstays. cbn. apply lookup_delete_eq.
Qed.

Lemma all_inTabOrder (items : list Element) (w : World) :
  (forall link, link ∈ items -> getAttribute link "tabindex" w = None) ->
  filter (fun link => inTabOrder w link = true) items = items.
Proof.
  induction items as [|a l IH]; intros Hnone; [done|].
  rewrite filter_cons_True.
  - f_equal. apply IH. intros link Hlink. apply Hnone. by right.
  - unfold inTabOrder. by rewrite Hnone by left.
Qed.

(** The worlds [destroy] goes through on an initialised menubar. *)
Lemma destroy_run (menu : Element) (c : Ctx MenuBar) :
  MenuBar.menu (this c) = Some menu ->
  nodeName menu = "UL"%string ->
  let w1 := removeAttribute menu "role" (world c) in
  let links := forEach (destroyLink menu) (menuBarItems (this c)) w1 in
  let popups := forEach destroyPopup (popups (this c)) (snd links) in
  destroy destroyPopup c
  = match fst links with
    | Normal _ =>
        match fst popups with
        | Normal _ =>
            (Normal tt,
             mkCtx (tabIndexAllow (menuBarItems (this c)) (snd popups))
               (this c))
        | Throw e => (Throw e, mkCtx (snd popups) (this c))
        end
    | Throw e => (Throw e, mkCtx (snd links) (this c))
    end.
Proof.
  intros Hmenu Hul w1 links popups.
  unfold destroy, bind at 1, gets at 1. cbn beta iota. rewrite Hmenu.
  unfold bind at 1, onWorld at 1, modify at 1. cbn beta iota.
  rewrite Hul. cbn [String.eqb Ascii.eqb Bool.eqb].
  unfold bind, liftWorld, onWorld, modify. cbn [world this].
  fold w1. fold links.
  destruct links as [[[]|e] w2] eqn:Hl; cbn [fst snd]; [|done].
  subst popups. cbn [snd].
  cbn [world this].
  by destruct (forEach destroyPopup _ w2) as [[[]|e] w3].
Qed.

(** In a well-formed document, the parent of a collected link is the
    child of the list that the link was collected from. *)
Lemma collected_parent (doc menu link : Element) :
  wellFormed doc -> inTree menu doc ->
  link ∈ MenuItem.collectLinks (children menu) ->
  exists item,
    item ∈ children menu
    /\ firstElementChild item = Some link
    /\ nodeName link = "A"%string
    /\ parentIn doc link = Some item.
Proof.
  intros Hwf Hmenu (item & Hitem & Hfirst & Hname)%collectLinks_elem.
  exists item. repeat split; try done.
  apply parentIn_found; [done|by apply (inTree_child doc menu)|].
  unfold firstElementChild in Hfirst.
  destruct (children item) as [|l0 rest]; [done|].
  injection Hfirst as ->. left.
Qed.

Lemma collectLinks_intro (items : list Element) (item link : Element) :
  item ∈ items ->
  firstElementChild item = Some link ->
  nodeName link = "A"%string ->
  link ∈ MenuItem.collectLinks items.
Proof.
  intros Hitem Hfirst Hname.
  induction items as [|a rest IH]; [by apply elem_of_nil in Hitem|].
  rewrite collectLinks_cons. apply elem_of_app.
  apply elem_of_cons in Hitem as [<-|Hitem]; [left|right; by apply IH].
  unfold linkOf. rewrite Hfirst, Hname. cbn. left.
Qed.

Lemma same_child (l : list Element) (a b : Element) :
  NoDup (map ident l) -> a ∈ l -> b ∈ l -> ident a = ident b -> a = b.
Proof.
  intros Hnd [i Hi]%list_elem_of_lookup_1 [j Hj]%list_elem_of_lookup_1 Hid.
  assert (i = j) as ->.
  { eapply (NoDup_lookup (map ident l)); [done| |];
      rewrite list_lookup_fmap; [by rewrite Hi|by rewrite Hj, Hid]. }
  congruence.
Qed.

(** X18. What [destroy] leaves behind.  On a menubar of a well-formed
    document, with popups whose own [destroy] keeps to the links and the
    nested lists, [destroy] removes the role of the list, and removes
    [aria-setsize] and [aria-posinset] from the children that hold a
    collected link; it never touches the role of a child, and it leaves
    the size and the position of a child without a link, which [init]
    had set on every child alike. *)
Theorem MenuBar_destroy_leftovers (menu : Element) (c : Ctx MenuBar) :
  wellFormed (document (world c)) ->
  inTree menu (document (world c)) ->
  nodeName menu = "UL"%string ->
  MenuBar.menu (this c) = Some menu ->
  menuBarItems (this c) = MenuItem.collectLinks (children menu) ->
  keepsMenubar menu destroyPopup ->
  let w := world c in
  let w' := world (snd (destroy destroyPopup c)) in
  getAttribute menu "role" w' = None
  /\ forall child,
       child ∈ children menu ->
       getAttribute child "role" w' = getAttribute child "role" w
       /\ (hasAnchorFirst child ->
           getAttribute child "aria-setsize" w' = None
           /\ getAttribute child "aria-posinset" w' = None)
       /\ (~ hasAnchorFirst child ->
           getAttribute child "aria-setsize" w'
           = getAttribute child "aria-setsize" w
           /\ getAttribute child "aria-posinset" w'
              = getAttribute child "aria-posinset" w).
Proof.
  intros Hdoc Hmenu Hul Hthis Hitems Hkeep w w'.
  assert (Hwf : wellFormed menu) by (by eapply wellFormed_inTree).
  assert (Hnd : NoDup (map ident (children menu))).
  { apply NoDup_idents_children. destruct menu as [j nm cs].
    unfold wellFormed in Hwf. simpl in *.
    by apply NoDup_cons in Hwf as [_ Hwf]. }
  set (w1 := removeAttribute menu "role" w).
  set (links := forEach (destroyLink menu) (menuBarItems (this c)) w1).
  set (popups := forEach destroyPopup (MenuBar.popups (this c)) (snd links)).
  assert (Hparents : forall link,
             link ∈ menuBarItems (this c) ->
             is_Some (parentIn (document w1) link)).
  { intros link Hlink. rewrite Hitems in Hlink.
    destruct (collected_parent _ menu link Hdoc Hmenu Hlink)
      as (item & _ & _ & _ & Hp).
    by exists item. }
  destruct (destroyLinks_parents menu _ w1 Hparents) as [Hnormal Hremoved].
  fold links in Hnormal, Hremoved.
  (* the world [destroy] ends in agrees with the world after the links
     on every attribute of the list and its children but [tabindex] *)
  assert (Hlate : forall n name,
             name <> "tabindex"%string ->
             n ∈ ident menu :: map ident (children menu) ->
             attributes w' !! (n, name) = attributes (snd links) !! (n, name)).
  { intros n name Hname Hn. subst w'.
    rewrite (destroy_run menu c Hthis Hul). cbn zeta.
    fold w w1 links popups. rewrite Hnormal.
    assert (Hp : attributes (snd popups) !! (n, name)
                 = attributes (snd links) !! (n, name)).
    { apply forEach_keeps. intros p w0. by apply Hkeep. }
    destruct (fst popups); cbn [snd world]; [|exact Hp].
    by rewrite attributes_tabIndexAllow. }
  assert (Hchildren : forall child,
             child ∈ children menu ->
             ident child ∈ ident menu :: map ident (children menu)).
  { intros child Hchild. right. apply list_elem_of_fmap. by exists child. }
  assert (Hother : forall child,
             child ∈ children menu -> ident child <> ident menu).
  { intros child Hchild E. destruct menu as [j nm cs].
    unfold wellFormed in Hwf. simpl in *.
    apply NoDup_cons in Hwf as [Hj _]. apply Hj. rewrite <- E.
    eapply idents_in_flat_map; [exact Hchild|apply ident_in_idents]. }
  unfold getAttribute. split.
  - rewrite Hlate by (try done; left).
    apply destroyLinks_removes. subst w1. cbn. apply lookup_delete_eq.
  - intros child Hchild. split; [|split].
    + rewrite Hlate by (try done; by apply Hchildren).
      subst links. rewrite destroyLinks_other; [| done | intros [|]; done].
      subst w1. cbn. apply lookup_delete_ne. intros [= E].
      by apply (Hother child).
    + intros (link & Hfirst & Hname).
      assert (Hlink : link ∈ menuBarItems (this c)).
      { rewrite Hitems. by apply (collectLinks_intro _ child). }
      assert (Hp : parentIn (document w1) link = Some child).
      { apply parentIn_found; [done|by apply (inTree_child _ menu)|].
        unfold firstElementChild in Hfirst.
        destruct (children child) as [|l0 rest]; [done|].
        injection Hfirst as ->. left. }
      rewrite !Hlate by (try done; by apply Hchildren).
      by apply (Hremoved link child).
    + intros Hnone.
      assert (Hnot : forall link p,
                 link ∈ menuBarItems (this c) ->
                 parentIn (document w1) link = Some p ->
                 ident p <> ident child).
      { intros link p Hlink Hp E. rewrite Hitems in Hlink.
        destruct (collected_parent _ menu link Hdoc Hmenu Hlink)
          as (item & Hitem & Hfirst & Hname & Hq).
        change (document w1) with (document (world c)) in Hp.
        rewrite Hq in Hp. injection Hp as <-.
        apply Hnone. exists link.
        by rewrite <- (same_child (children menu) item child Hnd Hitem
                         Hchild E). }
      rewrite !Hlate by (try done; by apply Hchildren).
      subst links.
      rewrite !destroyLinks_other by (try done; intros _; exact Hnot).
      subst w1. cbn. rewrite !lookup_delete_ne by (intros [=]). done.
Qed.

(** X19. [destroy] reverts the roving tabindex.  On a menubar of a
    well-formed document whose popups are destroyed without a throw,
    [destroy] completes normally, leaves the instance as it is, and
    removes [tabindex] from every collected link, so that all of them are
    in the tab order again. *)
Theorem MenuBar_destroy_reverts_tabindex (menu : Element)
  (c : Ctx MenuBar) :
  wellFormed (document (world c)) ->
  inTree menu (document (world c)) ->
  nodeName menu = "UL"%string ->
  MenuBar.menu (this c) = Some menu ->
  menuBarItems (this c) = MenuItem.collectLinks (children menu) ->
  (forall popup w0, fst (destroyPopup popup w0) = Normal tt) ->
  let c' := snd (destroy destroyPopup c) in
  fst (destroy destroyPopup c) = Normal tt
  /\ this c' = this c
  /\ (forall link,
        link ∈ menuBarItems (this c) ->
        getAttribute link "tabindex" (world c') = None)
  /\ tabOrder c' = menuBarItems (this c).
Proof.
  intros Hdoc Hmenu Hul Hthis Hitems Hpopups c'.
  set (w1 := removeAttribute menu "role" (world c)).
  assert (Hparents : forall link,
             link ∈ menuBarItems (this c) ->
             is_Some (parentIn (document w1) link)).
  { intros link Hlink. rewrite Hitems in Hlink.
    destruct (collected_parent _ menu link Hdoc Hmenu Hlink)
      as (item & _ & _ & _ & Hp).
    by exists item. }
  destruct (destroyLinks_parents menu _ w1 Hparents) as [Hnormal _].
  subst c'. rewrite (destroy_run menu c Hthis Hul). cbn zeta.
  fold w1. rewrite Hnormal, forEach_completes by done.
  cbn [fst snd this world].
  assert (Hnone : forall link,
             link ∈ menuBarItems (this c) ->
             getAttribute link "tabindex"
               (tabIndexAllow (menuBarItems (this c))
                  (snd (forEach destroyPopup (popups (this c))
                          (snd (forEach (destroyLink menu)
                                  (menuBarItems (this c)) w1)))))
             = None).
  { intros link Hlink. by apply tabIndexAllow_removes. }
  repeat split; try done.
  unfold tabOrder. cbn [world this]. by apply all_inTabOrder.
Qed.

End MenuBarDestroy.

(** ** MenuButton: from the constructor to the open menu *)

Section MenuButtonOpens.
Import MenuButton MenuButtonSpec.
Context (kc : KeyCodes).
Context (Menu_new : Element -> M World Menu.Menu).

(** X20. From the constructor to the open menu.  On a button built with
    a controller and a target, where the [menu] option or else the target
    is a [UL] and the [Menu] built on it completes normally and leaves
    the popups alone, the popup of the controller starts collapsed; a
    RETURN, SPACE or DOWN on the controller then completes normally,
    prevents the default action, expands that popup and leaves the focus
    on the first item of the [Menu] that [init] built, and UP does the
    same with its last item; without such an item the focus stays where
    it was. *)
Theorem MenuButton_opens_after_new (controller target lst : Element)
  (menuOption : option Element) (m : Menu.Menu) (w w2 : World)
  (ev : Event) :
  UP kc <> RETURN kc -> UP kc <> SPACE kc -> UP kc <> DOWN kc ->
  menuList menuOption target = Some lst ->
  Menu_new lst (Popup.new controller target w) = (Normal m, w2) ->
  popupOf w2 = popupOf (Popup.new controller target w) ->
  let c := snd (new Menu_new (Some controller) (Some target) menuOption w) in
  let c' := snd (handleControllerKeydown kc ev c) in
  let focused (x : option Element) :=
    match x with
    | Some el => Some el
    | None => activeElement (world c)
    end in
  Popup.isExpanded controller (world c) = false
  /\ (keyCode ev ∈ [RETURN kc; SPACE kc; DOWN kc; UP kc] ->
      fst (handleControllerKeydown kc ev c) = Normal tt
      /\ Popup.isExpanded controller (world c') = true
      /\ defaultPrevented (world c') = true)
  /\ (keyCode ev ∈ [RETURN kc; SPACE kc; DOWN kc] ->
      activeElement (world c') = focused (Menu.firstItem m))
  /\ (keyCode ev = UP kc ->
      activeElement (world c') = focused (Menu.lastItem m)).
Proof.
  intros HUR HUS HUD Hl Hnew Hkeep c c' focused.
  assert (Hc : c = mkCtx (addEventListener controller "keydown"
                            (MenuButton_handleControllerKeydown
                               (ident controller)) w2)
                     {| MenuButton.controller := Some controller;
                        MenuButton.target := Some target;
                        menu := MenuObject m;
                        popup := Some controller |}).
  { subst c. rewrite (new_with_list _ _ _ lst) by done. by rewrite Hnew. }
  assert (Hsaved : popupOf (world c) !! ident controller
                   = Some {| PopupInstance.controller := controller;
                             PopupInstance.target := target;
                             PopupInstance.firstChild :=
                               head (Popup.interactiveChildElements target);
                             PopupInstance.expanded := false |}).
  { rewrite Hc. cbn [world addEventListener popupOf]. rewrite Hkeep.
    unfold Popup.new. cbn. apply lookup_insert_eq. }
  assert (Hrun : forall property,
             (onWorld preventDefault;;
              show;;
              b' <- gets this;;
              x <- readMenu (menu b') property;;
              focusIfAny x) c
             = (Normal tt,
                mkCtx (focusIfSome (property m)
                         (Popup.show controller (preventDefault (world c))))
                  (this c))).
  { intros property. destruct c as [wc b]. injection Hc as -> ->.
    by rewrite (handle_open property _ controller). }
  assert (Hshown : forall x,
             let shown := focusIfSome x
                            (Popup.show controller
                               (preventDefault (world c))) in
             Popup.isExpanded controller shown = true
             /\ defaultPrevented shown = true
             /\ activeElement shown = focused x).
  { intros x shown. subst shown. unfold Popup.show.
    assert (He : Popup.isExpanded controller
                   (Popup.setState controller true
                      (preventDefault (world c))) = true).
    { apply isExpanded_setState. cbn. by rewrite Hsaved. }
    destruct (flags_setState controller true (preventDefault (world c)))
      as [Hd _].
    pose proof (activeElement_setState controller true
                  (preventDefault (world c))) as Ha.
    destruct x as [el|]; unfold focused; cbn [focusIfSome]; [|done].
    repeat split; try done. }
  split; [unfold Popup.isExpanded; by rewrite Hsaved|].
  assert (Hopen : keyCode ev ∈ [RETURN kc; SPACE kc; DOWN kc] ->
                  handleControllerKeydown kc ev c
                  = (Normal tt,
                     mkCtx (focusIfSome (Menu.firstItem m)
                              (Popup.show controller
                                 (preventDefault (world c))))
                       (this c))).
  { intros Hk.
    assert (Hb : ((keyCode ev =? RETURN kc)%Z || (keyCode ev =? SPACE kc)%Z
                  || (keyCode ev =? DOWN kc)%Z) = true).
    { repeat (apply elem_of_cons in Hk as [->|Hk]);
        [| | |by apply elem_of_nil in Hk];
        rewrite Z.eqb_refl; rewrite ?orb_true_r; reflexivity. }
    unfold handleControllerKeydown. rewrite Hb. apply Hrun. }
  assert (Hupk : keyCode ev = UP kc ->
                 handleControllerKeydown kc ev c
                 = (Normal tt,
                    mkCtx (focusIfSome (Menu.lastItem m)
                             (Popup.show controller
                                (preventDefault (world c))))
                      (this c))).
  { intros Hk. unfold handleControllerKeydown. rewrite Hk.
    decide_keys. cbn [orb]. apply Hrun. }
  split; [|split].
  - intros Hk.
    assert (Hcases : keyCode ev ∈ [RETURN kc; SPACE kc; DOWN kc]
                     \/ keyCode ev = UP kc).
    { repeat (apply elem_of_cons in Hk as [Hk|Hk]).
      - left. rewrite Hk. left.
      - left. rewrite Hk. right. left.
      - left. rewrite Hk. right. right. left.
      - by right.
      - by apply elem_of_nil in Hk. }
    subst c'.
    destruct Hcases as [Hk'|Hk'];
      [rewrite (Hopen Hk'); destruct (Hshown (Menu.firstItem m))
         as (He & Hd & _)
      |rewrite (Hupk Hk'); destruct (Hshown (Menu.lastItem m))
         as (He & Hd & _)];
      cbn [fst snd world]; done.
  - intros Hk. subst c'. rewrite (Hopen Hk). cbn [snd world].
    by apply (Hshown (Menu.firstItem m)).
  - intros Hk. subst c'. rewrite (Hupk Hk). cbn [snd world].
    by apply (Hshown (Menu.lastItem m)).
Qed.

End MenuButtonOpens.

(** ** MenuButton: before [init], and [destroy] *)

Section MenuButtonTeardownProps.
Import MenuButton MenuButtonSpec MenuButtonTeardown.
Context (kc : KeyCodes).
Context (Menu_new : Element -> M World Menu.Menu).
Context (Popup_destroy : Element -> M World unit).
Context (Menu_destroy : Menu.Menu -> M World unit).

(** X21. Without a controller or without a target the constructor does
    not run [init]: it changes nothing in the world, so it registers no
    listener and builds no popup.  [this.popup] stays undefined, and
    [show], [hide] and [destroy] called on such a button throw a
    [TypeError] and change nothing; a key that opens the menu prevents
    the default action and then throws. *)
Theorem MenuButton_without_elements (controller target menuOption
  : option Element) (w w' : World) (ev : Event) :
  controller = None \/ target = None ->
  let constructed := new Menu_new controller target menuOption w in
  let b := this (snd constructed) in
  constructed
  = (Normal tt,
     mkCtx w {| MenuButton.controller := controller;
                MenuButton.target := target;
                menu := menuField menuOption; popup := None |})
  /\ show (mkCtx w' b) = (Throw TypeError, mkCtx w' b)
  /\ hide (mkCtx w' b) = (Throw TypeError, mkCtx w' b)
  /\ destroy Popup_destroy Menu_destroy (mkCtx w' b)
     = (Throw TypeError, mkCtx w' b)
  /\ (keyCode ev ∈ [RETURN kc; SPACE kc; DOWN kc; UP kc] ->
      handleControllerKeydown kc ev (mkCtx w' b)
      = (Throw TypeError, mkCtx (preventDefault w') b)).
Proof.
  intros Hnone constructed b.
  assert (Hc : constructed
               = (Normal tt,
                  mkCtx w {| MenuButton.controller := controller;
                             MenuButton.target := target;
                             menu := menuField menuOption;
                             popup := None |})).
  { subst constructed. unfold new. fold (menuField menuOption).
    destruct Hnone as [-> | ->]; [done|by destruct controller]. }
  split; [exact Hc|]. subst b. rewrite Hc. cbn [snd this].
  repeat split.
  intros Hk. unfold handleControllerKeydown.
  destruct ((keyCode ev =? RETURN kc)%Z || (keyCode ev =? SPACE kc)%Z
            || (keyCode ev =? DOWN kc)%Z) eqn:Hopen; [reflexivity|].
  apply orb_false_iff in Hopen as [Hopen HD].
  apply orb_false_iff in Hopen as [HR HS].
  apply Z.eqb_neq in HR, HS, HD.
  repeat (apply elem_of_cons in Hk as [Hk|Hk]); try done.
  - by rewrite Hk, Z.eqb_refl.
  - by apply elem_of_nil in Hk.
Qed.

(** X22. [destroy] needs the [Menu] that [init] built.  On a button
    built with a controller and a target where neither the [menu] option
    nor the target is a [UL], [this.menu] is [null] or an element without
    a [destroy] method: [destroy] destroys the popup and then throws,
    with a [TypeError] when the popup's [destroy] completed normally.
    Where [init] built a [Menu], [destroy] destroys the popup and then
    that [Menu], and completes as the two do. *)
Theorem MenuButton_destroy_needs_menu (controller target : Element)
  (menuOption : option Element) (w w' : World) :
  let constructed :=
    new Menu_new (Some controller) (Some target) menuOption w in
  let b := this (snd constructed) in
  let destroyed := destroy Popup_destroy Menu_destroy (mkCtx w' b) in
  (menuList menuOption target = None ->
   isNormal (fst destroyed) = false
   /\ world (snd destroyed) = snd (Popup_destroy controller w')
   /\ (fst (Popup_destroy controller w') = Normal tt ->
       fst destroyed = Throw TypeError))
  /\
  (forall lst m w2,
     menuList menuOption target = Some lst ->
     Menu_new lst (Popup.new controller target w) = (Normal m, w2) ->
     destroyed
     = match Popup_destroy controller w' with
       | (Normal _, w3) =>
           (fst (Menu_destroy m w3), mkCtx (snd (Menu_destroy m w3)) b)
       | (Throw e, w3) => (Throw e, mkCtx w3 b)
       end).
Proof.
  intros constructed b destroyed. split.
  - intros Hl. subst destroyed b constructed.
    rewrite new_without_list by done. cbn [snd this].
    unfold destroy, bind, gets, liftWorld. cbn.
    destruct (Popup_destroy controller w') as [[[]|e] w3]; cbn.
    + by destruct menuOption.
    + done.
  - intros lst m w2 Hl Hnew. subst destroyed b constructed.
    rewrite (new_with_list _ _ _ lst) by done. rewrite Hnew.
    cbn [snd this].
    unfold destroy, bind, gets, liftWorld. cbn.
    destruct (Popup_destroy controller w') as [[[]|e] w3]; cbn; [|done].
    by destruct (Menu_destroy m w3) as [r w4].
Qed.

End MenuButtonTeardownProps.

(** ** The further properties at the sample documents *)

Section FurtherAtSamples.
Import Sample.

Local Abbreviation span := (Elem 12 "SPAN" []).
Local Abbreviation firstItem := (li 2 [a 3 []; subList]).
Local Abbreviation nestedList := (ul 25 [li 26 [a 27 []]]).
Local Abbreviation firstBarItem := (li 21 [a 22 [label]; nestedList]).

(** The sample menu as a menubar: its third child holds no link. *)
Local Abbreviation menuAsBar :=
  (snd (MenuBar.new Menu.new (Some menu) (page [menu]))).

Lemma MenuItem_vertical_lands_on_link_witness :
  exists y,
    y ∈ MenuItemInstance.menuItems (MenuItem.instance menu)
    /\ MenuItem.handleListKeydown domKeyCodes (keydown 38 (a 3 []))
         (mkCtx menuWorld (MenuItem.instance menu))
       = (Normal tt,
          mkCtx (focus y (preventDefault (stopPropagation menuWorld)))
            (MenuItem.instance menu)).
Proof.
  apply (MenuItem_vertical_lands_on_link domKeyCodes).
  - vm_compute. discriminate.
  - left. reflexivity.
Defined.

Lemma MenuItem_vertical_from_uncollected_witness :
  let this := MenuItem.instance menu in
  let w := focus span menuWorld in
  MenuItem.handleListKeydown domKeyCodes (keydown 40 span) (mkCtx w this)
  = (Normal tt,
     mkCtx (focus (a 3 []) (preventDefault (stopPropagation w))) this).
Proof.
  intros this w.
  destruct (MenuItem_vertical_from_uncollected domKeyCodes this w
              (keydown 40 span) span (a 3 []) (a 14 [])) as [Hdown _].
  - vm_compute. discriminate.
  - reflexivity.
  - reflexivity.
  - apply (bool_decide_unpack _). vm_compute. exact I.
  - reflexivity.
  - reflexivity.
  - exact (Hdown eq_refl).
Defined.

Lemma MenuItem_vertical_on_empty_list_witness :
  MenuItem.handleListKeydown domKeyCodes (keydown 40 span)
    (mkCtx menuWorld (MenuItem.instance (li 11 [span])))
  = (Throw TypeError,
     mkCtx (preventDefault (stopPropagation menuWorld))
       (MenuItem.instance (li 11 [span]))).
Proof.
  apply (MenuItem_vertical_on_empty_list domKeyCodes).
  - reflexivity.
  - right. reflexivity.
Defined.

Lemma MenuItem_unhandled_keys_witness :
  let this := MenuItem.instance EdgeSamples.plainMenu in
  let w := EdgeSamples.numberedWorld in
  nextElementSibling (document w) EdgeSamples.plainLink
  = Some EdgeSamples.numbered
  /\ is_Some (menuItemOf w !! ident EdgeSamples.numbered)
  /\ MenuItem.handleListKeydown domKeyCodes
       (keydown 39 EdgeSamples.plainLink) (mkCtx w this)
     = (Normal tt, mkCtx w this)
  /\ MenuItem.handleListKeydown domKeyCodes (keydown 9 (a 3 []))
       (mkCtx menuWorld (MenuItem.instance menu))
     = (Normal tt, mkCtx menuWorld (MenuItem.instance menu)).
Proof.
  intros this w.
  assert (H1 : LEFT domKeyCodes <> RIGHT domKeyCodes)
    by (vm_compute; discriminate).
  split; [reflexivity|]. split; [eexists; vm_compute; reflexivity|].
  split.
  - assert (H2 : keyCode (keydown 39 EdgeSamples.plainLink)
                 <> UP domKeyCodes) by (vm_compute; discriminate).
    assert (H3 : keyCode (keydown 39 EdgeSamples.plainLink)
                 <> DOWN domKeyCodes) by (vm_compute; discriminate).
    destruct (MenuItem_unhandled_keys domKeyCodes this w
                (keydown 39 EdgeSamples.plainLink) H1 H2 H3)
      as (_ & _ & Hright).
    apply (Hright eq_refl EdgeSamples.plainLink).
    + left. split; reflexivity.
    + right. exists EdgeSamples.numbered. split; [reflexivity|].
      left. discriminate.
  - assert (H2 : keyCode (keydown 9 (a 3 [])) <> UP domKeyCodes)
      by (vm_compute; discriminate).
    assert (H3 : keyCode (keydown 9 (a 3 [])) <> DOWN domKeyCodes)
      by (vm_compute; discriminate).
    destruct (MenuItem_unhandled_keys domKeyCodes
                (MenuItem.instance menu) menuWorld (keydown 9 (a 3 []))
                H1 H2 H3) as [Hother _].
    apply Hother; vm_compute; discriminate.
Defined.

Lemma MenuItem_new_wires_nested_lists_witness :
  exists sub,
    menuItemOf menuWorld !! ident subList = Some sub
    /\ MenuItemInstance.previousSibling sub = Some (a 3 [])
    /\ MenuItemInstance.firstItem sub = Some (a 6 []).
Proof.
  destruct (MenuItem_new_wires_nested_lists menu firstItem (a 3 []) subList
              [] (page [menu]) wellFormed_menu)
    as (_ & sub & Hsub & Hprev & _ & _ & Hfirst);
    try reflexivity.
  - left.
  - exists sub. split; [exact Hsub|]. split; [exact Hprev|exact Hfirst].
Defined.

Lemma MenuItem_new_prepares_links_witness :
  getAttribute (a 10 []) "aria-describedby" menuWorld
  = Some (Str MenuItem.describedby)
  /\ MenuItemSpec.listener menu (a 10 []) ∈ listeners menuWorld.
Proof.
  apply (MenuItem_new_prepares_links menu (a 10 []) 1 (page [menu])
           wellFormed_menu).
  reflexivity.
Defined.

Lemma MenuItem_right_then_left_witness :
  let w1 := focus (a 3 []) menuWorld in
  exists sub w2 w3,
    menuItemOf w1 !! ident menu = Some (MenuItem.instance menu)
    /\ menuItemOf w1 !! ident subList = Some sub
    /\ MenuItem.handleListKeydown domKeyCodes (keydown 39 (a 3 []))
         (mkCtx w1 (MenuItem.instance menu))
       = (Normal tt, mkCtx w2 (MenuItem.instance menu))
    /\ activeElement w2 = Some (a 6 [])
    /\ MenuItem.handleListKeydown domKeyCodes (keydown 37 (a 6 []))
         (mkCtx w2 sub)
       = (Normal tt, mkCtx w3 sub)
    /\ activeElement w3 = Some (a 3 []).
Proof.
  apply (MenuItem_right_then_left domKeyCodes menu firstItem (a 3 [])
           subList (a 6 []) [] (page [menu]) (keydown 39 (a 3 []))
           (keydown 37 (a 6 [])));
    try (vm_compute; discriminate); try reflexivity.
  - apply (bool_decide_unpack _). vm_compute. exact I.
  - right. left.
  - left.
Defined.

Lemma MenuBar_init_needs_a_link_witness :
  fst (MenuBar.init Menu.new
         (mkCtx (page [menubar]) (MenuBar.blank (Some menubar))))
  = Normal tt
  /\ fst (MenuBar.init Menu.new
            (mkCtx (page [li 11 [span]])
               (MenuBar.blank (Some (li 11 [span])))))
     = Throw TypeError.
Proof.
  split.
  - destruct (MenuBar_init_needs_a_link Menu.new menubar (page [menubar]))
      as [_ Hsome].
    destruct (Hsome (a 22 [label]) eq_refl) as (Hn & _).
    + intros target w0. eexists. reflexivity.
    + exact Hn.
  - destruct (MenuBar_init_needs_a_link Menu.new (li 11 [span])
                (page [li 11 [span]])) as [Hnone _].
    destruct (Hnone eq_refl) as [Hthrow _]. exact Hthrow.
Defined.

Lemma MenuBar_popup_tracks_item_witness :
  MenuBarPopups.popupTracksItem
    (snd (MenuBar.handleMenuBarClick (keydown 0 label) bar)).
Proof.
  apply (MenuBar_popup_tracks_item domKeyCodes helper startsWith Menu.new
           false menubar (page [menubar])).
  eapply MenuBarSpec.reach_step; [apply bar_reachable|].
  apply MenuBarSpec.step_click. discriminate.
Defined.

Lemma MenuBar_opening_keys_witness :
  Popup.isExpanded (a 22 [label])
    (world (snd (MenuBar.handleMenuBarKeydown domKeyCodes helper startsWith
                   (keydown 32 (a 22 [label])) bar)))
  = true.
Proof.
  destruct (MenuBar_opening_keys domKeyCodes helper startsWith bar
              (keydown 32 (a 22 [label])) distinct_domKeyCodes)
    as [_ Hpopup].
  - left. reflexivity.
  - destruct (Hpopup (a 22 [label]) eq_refl) as (_ & _ & _ & _ & Hexp & _).
    + eexists. vm_compute. reflexivity.
    + exact Hexp.
Defined.

Lemma MenuBar_keydown_throws_only_on_empty_popup_witness :
  fst (MenuBar.handleMenuBarKeydown domKeyCodes helper startsWith
         (keydown 35 (a 22 [label])) bar) = Normal tt
  \/ (fst (MenuBar.handleMenuBarKeydown domKeyCodes helper startsWith
             (keydown 35 (a 22 [label])) bar) = Throw TypeError
      /\ MenuBarPopups.opens domKeyCodes (keydown 35 (a 22 [label]))
      /\ exists p,
           MenuBar.popup (MenuBar.state (this bar)) = Some p
           /\ MenuBarPopups.firstChildOf (world bar) p = None).
Proof.
  apply (MenuBar_keydown_throws_only_on_empty_popup domKeyCodes helper
           startsWith bar (keydown 35 (a 22 [label]))).
  - vm_compute. discriminate.
  - reflexivity.
Defined.

Lemma MenuBar_right_then_left_witness :
  MenuBarSpec.tabOrder
    (snd (MenuBar.handleMenuBarKeydown domKeyCodes helper startsWith
            (keydown 37 (a 29 []))
            (snd (MenuBar.handleMenuBarKeydown domKeyCodes helper
                    startsWith (keydown 39 (a 22 [label])) bar))))
  = [a 22 [label]].
Proof.
  assert (Hcol : MenuBarSpec.collected bar).
  { split; [apply (bool_decide_unpack _); vm_compute; exact I|].
    vm_compute. reflexivity. }
  assert (Hlr : LEFT domKeyCodes <> RIGHT domKeyCodes)
    by (vm_compute; discriminate).
  destruct (MenuBar_right_then_left domKeyCodes helper startsWith bar
              (keydown 39 (a 22 [label])) (keydown 37 (a 29 [])) 0
              (a 22 [label]) (a 22 [label]) (a 29 []) Hcol
              (nextPrevious_resolvesNeighbours domKeyCodes Hlr)
              eq_refl eq_refl eq_refl eq_refl eq_refl eq_refl)
    as (_ & _ & _ & _ & _ & _ & Htab).
  exact Htab.
Defined.

Lemma MenuButton_without_elements_witness :
  MenuButton.show
    (mkCtx (page [menu])
       (this (snd (MenuButton.new Menu.new None (Some menu) None
                     (page [menu])))))
  = (Throw TypeError,
     mkCtx (page [menu])
       (this (snd (MenuButton.new Menu.new None (Some menu) None
                     (page [menu]))))).
Proof.
  destruct (MenuButton_without_elements domKeyCodes Menu.new
              (fun _ => ret tt) (fun _ => ret tt) None (Some menu) None
              (page [menu]) (page [menu]) (keydown 40 trigger)
              (or_introl eq_refl))
    as (_ & Hshow & _).
  exact Hshow.
Defined.

Lemma MenuButton_destroy_needs_menu_witness :
  fst (MenuButtonTeardown.destroy (fun _ => ret tt) (fun _ => ret tt)
         (snd (MenuButton.new Menu.new (Some trigger) (Some span) None
                 (page [trigger; span]))))
  = Throw TypeError.
Proof.
  destruct (MenuButton_destroy_needs_menu Menu.new (fun _ => ret tt)
              (fun _ => ret tt) trigger span None (page [trigger; span])
              (world (snd (MenuButton.new Menu.new (Some trigger)
                             (Some span) None (page [trigger; span])))))
    as [Hnone _].
  destruct (Hnone eq_refl) as (_ & _ & Hthrow).
  exact (Hthrow eq_refl).
Defined.

Lemma MenuBar_init_roles_witness :
  getAttribute menu "role" (world menuAsBar) = Some (Str "menubar")
  /\ getAttribute (li 11 [span]) "role" (world menuAsBar)
     = Some (Str "menuitem").
Proof.
  destruct (MenuBar_init_roles Menu.new menu (page [menu]) wellFormed_menu
              Menu_new_framed) as (Hrole & Hchildren & _).
  split; [exact Hrole|].
  apply Hchildren. right. right. left.
Defined.

Lemma MenuBar_destroy_leftovers_witness :
  let destroyed :=
    world (snd (MenuBarTeardown.destroy (fun _ => ret tt) menuAsBar)) in
  getAttribute (li 11 [span]) "role" destroyed = Some (Str "menuitem")
  /\ getAttribute (li 11 [span]) "aria-setsize" destroyed = Some (Num 3)
  /\ getAttribute (li 9 [a 10 []]) "aria-setsize" destroyed = None.
Proof.
  intros destroyed.
  assert (Hdoc : wellFormed (document (world menuAsBar)))
    by (apply (bool_decide_unpack _); vm_compute; exact I).
  assert (Hin : inTree menu (document (world menuAsBar)))
    by (right; left).
  assert (Hkeep : MenuBarTeardown.keepsMenubar menu (fun _ => ret tt))
    by (intros popup w n name _; reflexivity).
  destruct (MenuBar_destroy_leftovers (fun _ => ret tt) menu menuAsBar
              Hdoc Hin eq_refl eq_refl eq_refl Hkeep)
    as [_ Hchildren].
  - destruct (Hchildren (li 11 [span])) as (Hrole & _ & Hkept);
      [right; right; left|].
    destruct (Hchildren (li 9 [a 10 []])) as (_ & Hremoved & _);
      [right; left|].
    split; [exact Hrole|]. split.
    + destruct Hkept as [Hsize _]; [|exact Hsize].
      intros (link & Hfirst & Hname). injection Hfirst as <-.
      discriminate.
    + destruct Hremoved as [Hsize _]; [|exact Hsize].
      exists (a 10 []). split; reflexivity.
Defined.

Lemma MenuBar_destroy_reverts_tabindex_witness :
  MenuBarSpec.tabOrder (snd (MenuBarTeardown.destroy (fun _ => ret tt) bar))
  = [a 22 [label]; a 29 []; a 31 []].
Proof.
  assert (Hdoc : wellFormed (document (world bar)))
    by (apply (bool_decide_unpack _); vm_compute; exact I).
  assert (Hin : inTree menubar (document (world bar))) by (right; left).
  destruct (MenuBar_destroy_reverts_tabindex (fun _ => ret tt) menubar bar
              Hdoc Hin eq_refl eq_refl eq_refl
              (fun _ _ => eq_refl))
    as (_ & _ & _ & Htab).
  exact Htab.
Defined.

Lemma MenuBar_init_popups_witness :
  popupOf (world bar) !! ident (a 22 [label])
  = Some (MenuBarInitSpec.built (a 22 [label]) nestedList)
  /\ (a 22 [label]) ∈ MenuBar.popups (this bar).
Proof.
  destruct (MenuBar_init_popups Menu.new menubar (page [menubar])
              wellFormed_menubar) as (_ & Hps & Hsaved & _).
  - intros target w0. split; reflexivity.
  - vm_compute. discriminate.
  - assert (Hhas : MenuBarInitSpec.hasPopup firstBarItem (a 22 [label])
                     nestedList).
    { exists []. repeat split. }
    split.
    + apply (Hsaved firstBarItem); [left|exact Hhas].
    + apply Hps. exists firstBarItem, nestedList.
      split; [left|exact Hhas].
Defined.

Lemma MenuBar_opens_first_popup_witness :
  activeElement
    (world (snd (MenuBar.handleMenuBarKeydown domKeyCodes helper startsWith
                   (keydown 40 (a 22 [label])) bar)))
  = Some (a 27 []).
Proof.
  assert (Hmenu : MenuBarInitSpec.menuKeepsPopups Menu.new)
    by (intros target w0; split; reflexivity).
  assert (Hitem : firstBarItem ∈ children menubar) by left.
  assert (Hhas : MenuBarInitSpec.hasPopup firstBarItem (a 22 [label])
                   nestedList)
    by (exists []; repeat split).
  assert (Hopen : MenuBarPopups.opens domKeyCodes
                    (keydown 40 (a 22 [label])))
    by (right; right; reflexivity).
  destruct (MenuBar_opens_first_popup domKeyCodes helper startsWith
              Menu.new menubar firstBarItem (a 22 [label]) nestedList
              (a 27 []) (page [menubar]) (keydown 40 (a 22 [label]))
              distinct_domKeyCodes wellFormed_menubar Hmenu eq_refl Hitem
              Hhas eq_refl Hopen)
    as (_ & Hfocus & _).
  exact Hfocus.
Defined.

Lemma MenuItem_down_then_up_witness :
  let start := mkCtx (focus (a 14 []) menuWorld) (MenuItem.instance menu) in
  activeElement
    (world
       (snd (MenuItem.handleListKeydown domKeyCodes (keydown 38 (a 3 []))
               (snd (MenuItem.handleListKeydown domKeyCodes
                       (keydown 40 (a 14 [])) start)))))
  = Some (a 14 []).
Proof.
  intros start.
  assert (Hkeys : UP domKeyCodes <> DOWN domKeyCodes)
    by (vm_compute; discriminate).
  destruct (MenuItem_down_then_up domKeyCodes menu
              (focus (a 14 []) menuWorld) (keydown 40 (a 14 []))
              (keydown 38 (a 3 [])) 2 (a 14 []) Hkeys wellFormed_menu
              eq_refl eq_refl eq_refl eq_refl)
    as (_ & _ & Hback & _).
  exact Hback.
Defined.

Lemma MenuButton_opens_after_new_witness :
  activeElement
    (world (snd (MenuButton.handleControllerKeydown domKeyCodes
                   (keydown 38 trigger) button)))
  = Some (a 14 []).
Proof.
  assert (H1 : UP domKeyCodes <> RETURN domKeyCodes)
    by (vm_compute; discriminate).
  assert (H2 : UP domKeyCodes <> SPACE domKeyCodes)
    by (vm_compute; discriminate).
  assert (H3 : UP domKeyCodes <> DOWN domKeyCodes)
    by (vm_compute; discriminate).
  destruct (MenuButton_opens_after_new domKeyCodes Menu.new trigger menu
              menu None
              {| Menu.firstItem := Some (a 3 []);
                 Menu.lastItem := Some (a 14 []) |}
              (page [trigger; menu])
              (setAttribute menu "role" (Str "menu")
                 (Popup.new trigger menu (page [trigger; menu])))
              (keydown 38 trigger) H1 H2 H3 eq_refl eq_refl eq_refl)
    as (_ & _ & _ & Hup).
  exact (Hup eq_refl).
Defined.

End FurtherAtSamples.


(** * The arrow keys, stated on what the handlers receive *)

(** ** MenuItem: UP and DOWN *)

Section MenuItemArrows.
Import MenuItemInstance MenuItemFocus.
Context (kc : KeyCodes).

(** The [activeDescendant] constant of the handler, by where the focus
    is. *)
Lemma activeDescendant_activeItem (this : MenuItem) (w : World)
  (a : Element) :
  activeItem this w a -> MenuItem.activeDescendant this w = Some a.
Proof.
  unfold MenuItem.activeDescendant.
  intros [[Hfocus Hin]|[Hout Hfirst]].
  - by rewrite Hfocus, Hin.
  - unfold focusOutside in Hout.
    destruct (activeElement w) as [e|]; [by rewrite Hout|done].
Qed.

(** C2. On a list of distinct collected links, let the active item be the
    collected link at position [i]: the element that has the focus, when
    the focus is inside the list, and else the first collected link.
    DOWN focuses the link at position [i + 1], or the first link when
    the active one is the last; UP focuses the link at position [i - 1],
    or the last link when the active one is the first.  In both cases
    the handler calls [stopPropagation] and [preventDefault], completes
    normally and changes nothing else. *)
Theorem MenuItem_vertical_arrows_wrap (this : MenuItem) (w : World)
  (ev : Event) (i : nat) (x a : Element) :
  UP kc <> DOWN kc ->
  NoDup (map ident (menuItems this)) ->
  menuItems this !! i = Some x ->
  activeItem this w a ->
  ident a = ident x ->
  let n := length (menuItems this) in
  let suppressed := preventDefault (stopPropagation w) in
  (keyCode ev = DOWN kc ->
   exists y,
     menuItems this !! ((i + 1) mod n)%nat = Some y /\
     MenuItem.handleListKeydown kc ev (mkCtx w this)
     = (Normal tt, mkCtx (focus y suppressed) this))
  /\
  (keyCode ev = UP kc ->
   exists y,
     menuItems this !! ((i + n - 1) mod n)%nat = Some y /\
     MenuItem.handleListKeydown kc ev (mkCtx w this)
     = (Normal tt, mkCtx (focus y suppressed) this))
  /\ defaultPrevented suppressed = true
  /\ propagationStopped suppressed = true.
Proof.
  intros Hkeys Hnd Hi Hactive Hid n suppressed.
  pose proof (activeDescendant_activeItem this w a Hactive) as Ha.
  split; [|split; [|done]]; intros Hk.
  - pose proof (handle_vertical_at kc this w ev i x a Hkeys Hnd Hi Ha Hid
                  (or_intror Hk)) as Hrun.
    cbn zeta in Hrun.
    assert (Hb : (keyCode ev =? UP kc)%Z = false)
      by (rewrite Hk; apply Z.eqb_neq; congruence).
    rewrite Hb in Hrun. exact Hrun.
  - pose proof (handle_vertical_at kc this w ev i x a Hkeys Hnd Hi Ha Hid
                  (or_introl Hk)) as Hrun.
    cbn zeta in Hrun.
    assert (Hb : (keyCode ev =? UP kc)%Z = true)
      by (rewrite Hk; apply Z.eqb_refl).
    rewrite Hb in Hrun. exact Hrun.
Qed.

End MenuItemArrows.

(** ** MenuItem: RIGHT into a nested list, LEFT out of it *)

Section MenuItemNestedLists.
Import MenuItemInstance MenuItemFocus.
Context (kc : KeyCodes).

(** C4, amended.  RIGHT: when the next element sibling of the active
    item, the focused element inside the list or else the first
    collected link, is a [UL] on which a [MenuItem] instance with a first
    item is saved, the handler suppresses the event and focuses that
    first item.  LEFT: when the list has a [previousSibling], the
    handler suppresses the event, sets the expanded state of the popup
    saved on that sibling to false if it is expanded, and only then
    focuses the sibling. *)
Theorem MenuItem_nested_lists (this : MenuItem) (w : World) (ev : Event) :
  RIGHT kc <> UP kc -> RIGHT kc <> DOWN kc ->
  LEFT kc <> UP kc -> LEFT kc <> DOWN kc -> LEFT kc <> RIGHT kc ->
  let suppressed := preventDefault (stopPropagation w) in
  (keyCode ev = RIGHT kc ->
   forall active sibling sub first,
     activeItem this w active ->
     nextElementSibling (document w) active = Some sibling ->
     nodeName sibling = "UL"%string ->
     menuItemOf w !! ident sibling = Some sub ->
     firstItem sub = Some first ->
     MenuItem.handleListKeydown kc ev (mkCtx w this)
     = (Normal tt, mkCtx (focus first suppressed) this))
  /\
  (keyCode ev = LEFT kc ->
   forall previous,
     previousSibling this = Some previous ->
     let closed :=
       if Popup.isExpanded previous w
       then Popup.setExpandedState previous false suppressed
       else suppressed in
     MenuItem.handleListKeydown kc ev (mkCtx w this)
     = (Normal tt, mkCtx (focus previous closed) this)
     /\ Popup.isExpanded previous closed = false
     /\ activeElement closed = activeElement w
     /\ defaultPrevented closed = true
     /\ propagationStopped closed = true).
Proof.
  intros HRU HRD HLU HLD HLR suppressed. split; intros Hk.
  - intros active sibling sub first Hactive Hs Hul Hsub Hfirst.
    pose proof (activeDescendant_activeItem this w active Hactive) as Ha.
    unfold MenuItem.handleListKeydown, bind, gets, onWorld, modify; simpl.
    rewrite Hk, Ha.
    destruct (Z.eqb_spec (RIGHT kc) (UP kc)) as [E|_]; [congruence|].
    destruct (Z.eqb_spec (RIGHT kc) (DOWN kc)) as [E|_]; [congruence|].
    rewrite Z.eqb_refl. simpl.
    unfold MenuItem.nextElementIsUl. rewrite Hs, Hul. simpl.
    rewrite Hsub, Hfirst. reflexivity.
  - intros previous Hprev closed. subst closed.
    unfold MenuItem.handleListKeydown, bind, gets, onWorld, modify; simpl.
    rewrite Hk, Hprev.
    destruct (Z.eqb_spec (LEFT kc) (UP kc)) as [E|_]; [congruence|].
    destruct (Z.eqb_spec (LEFT kc) (DOWN kc)) as [E|_]; [congruence|].
    destruct (Z.eqb_spec (RIGHT kc) (LEFT kc)) as [E|_]; [congruence|].
    rewrite Z.eqb_refl. simpl.
    destruct (popupOf w !! ident previous) as [p|] eqn:Hp; simpl.
    + assert (Hexp : Popup.isExpanded previous w = PopupInstance.expanded p)
        by (unfold Popup.isExpanded; by rewrite Hp).
      rewrite Hexp.
      destruct (PopupInstance.expanded p) eqn:He; simpl.
      * split; [reflexivity|].
        unfold Popup.setExpandedState.
        rewrite isExpanded_setState, activeElement_setState
          by (simpl; eauto).
        destruct (flags_setState previous false suppressed) as [-> ->].
        done.
      * split; [reflexivity|].
        unfold Popup.isExpanded. simpl. rewrite Hp. done.
    + assert (Hexp : Popup.isExpanded previous w = false)
        by (unfold Popup.isExpanded; by rewrite Hp).
      rewrite Hexp. split; [reflexivity|].
      unfold Popup.isExpanded. simpl. rewrite Hp. done.
Qed.

End MenuItemNestedLists.

(** ** MenuBar: LEFT, RIGHT, HOME and END *)

Section MenuBarArrows.
Import MenuBar RovingTabIndex MenuBarSpec MenuBarPopups MenuBarLive.
Context (kc : KeyCodes).
Context (matches : string -> Element -> bool).
Context (Menu_new : Element -> M World Menu.Menu).

Local Abbreviation helper := (NextPrevious.nextPreviousFromLeftRight kc).
Local Abbreviation handle := (handleMenuBarKeydown kc helper matches).

(** What every state of an initialised menubar satisfies: the collected
    links are distinct and there is one, and [state.popup] is the popup
    saved on the selected item. *)
Lemma live_invariant (menu : Element) (w : World) (c : Ctx MenuBar) :
  wellFormed menu ->
  live kc helper matches Menu_new menu w c ->
  collected c /\ menuBarItems (this c) <> [] /\ popupTracksItem c.
Proof.
  intros Hwf Hlive.
  induction Hlive
    as [c Hinit | c c' Hlive (Hcol & Hne & Htrack) Hstep
       | c p b Hlive (Hcol & Hne & Htrack)].
  - destruct (init_establishes Menu_new menu w c Hwf Hinit) as [Hcol _].
    destruct (init_tracks Menu_new menu w c Hinit) as (Hne & _ & Htrack).
    done.
  - assert (Hsame : forall c2 : Ctx MenuBar,
               menuBarItems (this c2) = menuBarItems (this c) ->
               lastIndex (this c2) = lastIndex (this c) ->
               popupTracksItem c2 ->
               collected c2 /\ menuBarItems (this c2) <> []
               /\ popupTracksItem c2).
    { intros c2 Hi Hl Ht. destruct Hcol as [Hnd Hlast].
      split; [split|]; rewrite ?Hi, ?Hl; done. }
    inversion Hstep as [ev c0 E1 E2 | ev c0 Hin E1 E2 | x c0 Hin E1 E2];
      subst.
    + destruct (handle_tracks kc helper matches c ev Hne (proj2 Hcol)
                  Htrack) as (Hi & Hl & Ht).
      by apply Hsame.
    + destruct (setState_tracks (DomEvent.target ev) c) as (Hi & Hl & Ht).
      by apply Hsame.
    + destruct (setState_tracks x c) as (Hi & Hl & Ht).
      by apply Hsame.
  - split; [exact Hcol|]. split; [exact Hne|].
    destruct Htrack as (item & Hitem & Hpopup).
    exists item. split; [exact Hitem|].
    cbn [world this]. by rewrite popupOn_Popup_setState.
Qed.

(** The helper at the two ends of the array. *)
Lemma helper_at_the_ends (items : list Element) (i : nat)
  (current : Element) :
  LEFT kc <> RIGHT kc ->
  NoDup (map ident items) ->
  items !! i = Some current ->
  (items !! S i = None -> helper (RIGHT kc) (Some current) items = None)
  /\ (i = 0%nat -> helper (LEFT kc) (Some current) items = None).
Proof.
  intros Hlr Hnd Hi.
  unfold NextPrevious.nextPreviousFromLeftRight.
  rewrite (indexOf_lookup items i current current Hnd Hi eq_refl).
  destruct (Z.ltb_spec (Z.of_nat i) 0); [lia|]. split.
  - intros Hnone.
    destruct (Z.eqb_spec (RIGHT kc) (LEFT kc)); [congruence|].
    rewrite Z.eqb_refl.
    replace (Z.of_nat i + 1)%Z with (Z.of_nat (S i)) by lia.
    by rewrite item_of_nat.
  - intros ->. rewrite Z.eqb_refl. reflexivity.
Qed.

(** Closing the popup of an item that has none changes nothing. *)
Lemma setState_without_popup (item : Element) (b : bool) (w : World) :
  popupOf w !! ident item = None -> Popup.setState item b w = w.
Proof. intros Hnone. unfold Popup.setState. by rewrite Hnone. Qed.

(** C3. In every state of a menubar that [init] built on a well-formed
    list, whatever key presses, clicks and state updates it has gone
    through and whatever popups were shown or hidden in between, let the
    selected item be the collected link at position [i].  RIGHT with a
    link at position
    [i + 1], and LEFT with a link at position [i - 1], suppress the
    event, first set the popup saved on the selected item to collapsed,
    so that it is closed if it was open, and then select that
    neighbour, which gets the focus; at the end of the row RIGHT, and at
    its start LEFT, change nothing.  HOME selects the first and END the
    last collected link.  The neighbour is resolved by the helper of
    [lib/nextPrevious] as the spec describes it. *)
Theorem MenuBar_horizontal_keys (menu : Element) (w : World)
  (c : Ctx MenuBar) (ev : Event) (i : nat) (current : Element) :
  distinctCodes kc ->
  wellFormed menu ->
  live kc helper matches Menu_new menu w c ->
  menubarItem (state (this c)) = Some current ->
  menuBarItems (this c) !! i = Some current ->
  let items := menuBarItems (this c) in
  let handled := handle ev c in
  let selected := menubarItem (state (this (snd handled))) in
  (forall y,
     (keyCode ev = RIGHT kc /\ items !! S i = Some y)
     \/ (keyCode ev = LEFT kc /\ exists j, i = S j /\ items !! j = Some y) ->
     let suppressed := preventDefault (stopPropagation (world c)) in
     let closed := Popup.setState current false suppressed in
     handled = setState (Some y) (mkCtx closed (this c))
     /\ fst handled = Normal tt
     /\ selected = Some y
     /\ activeElement (world (snd handled)) = Some y
     /\ Popup.isExpanded current closed = false
     /\ Popup.isExpanded current (world (snd handled)) = false)
  /\
  ((keyCode ev = RIGHT kc /\ items !! S i = None)
   \/ (keyCode ev = LEFT kc /\ i = 0%nat) ->
   handled = (Normal tt, c))
  /\
  (keyCode ev = HOME kc ->
   handled = setState (head items) (mkCtx (preventDefault (world c)) (this c))
   /\ fst handled = Normal tt
   /\ is_Some (head items)
   /\ selected = head items)
  /\
  (keyCode ev = END kc ->
   handled = setState (last items) (mkCtx (preventDefault (world c)) (this c))
   /\ fst handled = Normal tt
   /\ is_Some (last items)
   /\ selected = last items).
Proof.
  intros Hkc Hwf Hlive Hsel Hi items handled selected.
  destruct (live_invariant menu w c Hwf Hlive)
    as (Hcol & Hne & (item & Hitem & Hpopup)).
  assert (Hlast : lastIndex (this c)
                  = (Z.of_nat (length (menuBarItems (this c))) - 1)%Z)
    by apply Hcol.
  rewrite Hsel in Hitem. injection Hitem as <-.
  assert (Hnd : NoDup (map ident items)) by apply Hcol.
  assert (Hlr : LEFT kc <> RIGHT kc).
  { distinct_codes Hkc. congruence. }
  assert (Hh : handled = handle ev c) by reflexivity.
  unfold handleMenuBarKeydown, bind at 1, gets at 1 in Hh.
  cbn beta iota in Hh. fold items in Hh.
  split; [|split; [|split]].
  - intros y Hy suppressed closed.
    assert (Hk : keyCode ev = LEFT kc \/ keyCode ev = RIGHT kc)
      by (destruct Hy as [[? _]|[? _]]; auto).
    assert (Hres : helper (keyCode ev) (Some current) items = Some y).
    { destruct (nextPrevious_resolvesNeighbours kc Hlr items i current
                  current y Hnd Hi eq_refl) as [Hright Hleft].
      destruct Hy as [[-> Hy]|[-> (j & Hj & Hy)]];
        [by apply Hright|by apply (Hleft j)]. }
    pose proof (handle_left_right kc helper matches c ev Hk) as Hrun.
    cbn zeta in Hrun. fold items in Hrun. rewrite Hsel, Hres in Hrun.
    destruct Hrun as (Hrun & _ & _). fold handled in Hrun.
    assert (Hclosed : match popup (state (this c)) with
                      | Some p => Popup.setState p false suppressed
                      | None => suppressed
                      end = closed).
    { rewrite Hpopup. unfold popupOn. subst closed.
      destruct (popupOf (world c) !! ident current) as [o|] eqn:Ho;
        [reflexivity|].
      by rewrite setState_without_popup. }
    fold suppressed in Hrun. rewrite Hclosed in Hrun.
    assert (Hcol0 : collected (mkCtx closed (this c))) by exact Hcol.
    assert (Hin : y ∈ menuBarItems (this (mkCtx closed (this c)))).
    { cbn [this]. destruct Hy as [[_ Hy]|[_ (j & _ & Hy)]];
        by eapply list_elem_of_lookup_2. }
    destruct (setState_roving y (mkCtx closed (this c)) Hcol0 Hin)
      as (Hn & _ & _ & Hsely & Hact).
    rewrite <- Hrun in Hn, Hsely, Hact.
    assert (Hexp : Popup.isExpanded current closed = false).
    { subst closed.
      destruct (popupOf (world c) !! ident current) as [o|] eqn:Ho.
      - apply isExpanded_setState. cbn. by rewrite Ho.
      - rewrite setState_without_popup by done.
        unfold Popup.isExpanded. cbn. by rewrite Ho. }
    repeat split; try done.
    rewrite Hrun, popupOf_unfold_isExpanded. exact Hexp.
  - intros Hend.
    destruct (helper_at_the_ends items i current Hlr Hnd Hi)
      as [Hright Hleft].
    assert (Hk : keyCode ev = LEFT kc \/ keyCode ev = RIGHT kc)
      by (destruct Hend as [[? _]|[? _]]; auto).
    assert (Hres : helper (keyCode ev) (Some current) items = None).
    { destruct Hend as [[-> Hnone]|[-> Hzero]];
        [by apply Hright|by apply Hleft]. }
    pose proof (handle_left_right kc helper matches c ev Hk) as Hrun.
    cbn zeta in Hrun. fold items in Hrun. rewrite Hsel, Hres in Hrun.
    exact Hrun.
  - intros Hk. distinct_codes Hkc.
    assert (Hrun : handled
                   = setState (head items)
                       (mkCtx (preventDefault (world c)) (this c))).
    { rewrite Hh, Hk. decide_keys. reflexivity. }
    destruct items as [|first rest] eqn:Hitems; [done|].
    split; [exact Hrun|]. cbn [head] in *.
    split; [by rewrite Hrun, setState_Some|].
    split; [by eexists|].
    subst selected. rewrite Hrun. apply selected_setState.
  - intros Hk. distinct_codes Hkc.
    assert (Hrun : handled
                   = setState (last items)
                       (mkCtx (preventDefault (world c)) (this c))).
    { rewrite Hh, Hk. decide_keys. cbn [orb].
      rewrite Hlast. fold items. rewrite item_last. reflexivity. }
    destruct (last items) as [x|] eqn:Hl.
    2:{ by apply last_None in Hl. }
    split; [exact Hrun|].
    split; [by rewrite Hrun, setState_Some|].
    split; [by eexists|].
    subst selected. rewrite Hrun. apply selected_setState.
Qed.

End MenuBarArrows.

(** ** The arrow keys at the sample documents *)

Section ArrowsAtSamples.
Import Sample EdgeSamples MenuItemInstance.

Lemma MenuItem_vertical_arrows_wrap_witness :
  let this := MenuItem.instance menu in
  let w := focus (a 3 []) menuWorld in
  let press keyCode w0 :=
    MenuItem.handleListKeydown domKeyCodes (keydown keyCode (a 3 []))
      (mkCtx w0 this) in
  let focused x w0 :=
    (Normal tt, mkCtx (focus x (preventDefault (stopPropagation w0))) this) in
  press 40%Z w = focused (a 10 []) w
  /\ press 38%Z w = focused (a 14 []) w
  /\ press 40%Z menuWorld = focused (a 10 []) menuWorld
  /\ press 40%Z (focus (a 10 []) menuWorld)
     = focused (a 14 []) (focus (a 10 []) menuWorld).
Proof.
  intros this w press focused.
  assert (Hkeys : UP domKeyCodes <> DOWN domKeyCodes)
    by (vm_compute; discriminate).
  assert (Hnd : NoDup (map ident (menuItems this)))
    by (apply (bool_decide_unpack _); vm_compute; exact I).
  assert (Hinside : MenuItemFocus.activeItem this w (a 3 []))
    by (left; split; reflexivity).
  assert (Houtside : MenuItemFocus.activeItem this menuWorld (a 3 []))
    by (right; split; [exact I|reflexivity]).
  assert (Hsecond : MenuItemFocus.activeItem this
                      (focus (a 10 []) menuWorld) (a 10 []))
    by (left; split; reflexivity).
  split; [|split; [|split]].
  4:{ destruct (MenuItem_vertical_arrows_wrap domKeyCodes this
                  (focus (a 10 []) menuWorld) (keydown 40 (a 3 [])) 1
                  (a 10 []) (a 10 []) Hkeys Hnd eq_refl Hsecond eq_refl)
        as (Hdown & _).
      destruct (Hdown eq_refl) as (y & Hy & Hrun).
      vm_compute in Hy. injection Hy as <-. exact Hrun. }
  - destruct (MenuItem_vertical_arrows_wrap domKeyCodes this w
                (keydown 40 (a 3 [])) 0 (a 3 []) (a 3 []) Hkeys Hnd
                eq_refl Hinside eq_refl) as (Hdown & _).
    destruct (Hdown eq_refl) as (y & Hy & Hrun).
    vm_compute in Hy. injection Hy as <-. exact Hrun.
  - destruct (MenuItem_vertical_arrows_wrap domKeyCodes this w
                (keydown 38 (a 3 [])) 0 (a 3 []) (a 3 []) Hkeys Hnd
                eq_refl Hinside eq_refl) as (_ & Hup & _).
    destruct (Hup eq_refl) as (y & Hy & Hrun).
    vm_compute in Hy. injection Hy as <-. exact Hrun.
  - destruct (MenuItem_vertical_arrows_wrap domKeyCodes this menuWorld
                (keydown 40 (a 3 [])) 0 (a 3 []) (a 3 []) Hkeys Hnd
                eq_refl Houtside eq_refl) as (Hdown & _).
    destruct (Hdown eq_refl) as (y & Hy & Hrun).
    vm_compute in Hy. injection Hy as <-. exact Hrun.
Defined.

Lemma MenuItem_nested_lists_witness :
  let this := MenuItem.instance menu in
  let sub := setPreviousSibling (a 3 []) (MenuItem.instance subList) in
  let w := focus (a 3 []) menuWorld in
  let opened :=
    focus (a 6 [])
      (Popup.show (a 3 []) (Popup.new (a 3 []) subList menuWorld)) in
  let back :=
    MenuItem.handleListKeydown domKeyCodes (keydown 37 (a 6 []))
      (mkCtx opened sub) in
  menuItemOf w !! ident subList = Some sub
  /\ MenuItem.handleListKeydown domKeyCodes (keydown 39 (a 3 []))
       (mkCtx w this)
     = (Normal tt,
        mkCtx (focus (a 6 []) (preventDefault (stopPropagation w))) this)
  /\ Popup.isExpanded (a 3 []) opened = true
  /\ fst back = Normal tt
  /\ activeElement (world (snd back)) = Some (a 3 [])
  /\ Popup.isExpanded (a 3 []) (world (snd back)) = false
  /\ MenuItem.handleListKeydown domKeyCodes (keydown 39 (a 84 []))
       (mkCtx LateNesting.lateWorld (MenuItem.instance LateNesting.lateMenu))
     = (Normal tt,
        mkCtx (focus (a 87 [])
                 (preventDefault (stopPropagation LateNesting.lateWorld)))
          (MenuItem.instance LateNesting.lateMenu)).
Proof.
  intros this sub w opened back.
  assert (H1 : RIGHT domKeyCodes <> UP domKeyCodes)
    by (vm_compute; discriminate).
  assert (H2 : RIGHT domKeyCodes <> DOWN domKeyCodes)
    by (vm_compute; discriminate).
  assert (H3 : LEFT domKeyCodes <> UP domKeyCodes)
    by (vm_compute; discriminate).
  assert (H4 : LEFT domKeyCodes <> DOWN domKeyCodes)
    by (vm_compute; discriminate).
  assert (H5 : LEFT domKeyCodes <> RIGHT domKeyCodes)
    by (vm_compute; discriminate).
  split; [reflexivity|]. split; [|split; [reflexivity|]].
  - destruct (MenuItem_nested_lists domKeyCodes this w
                (keydown 39 (a 3 [])) H1 H2 H3 H4 H5) as [Hright _].
    apply (Hright eq_refl (a 3 []) subList sub (a 6 [])).
    + left. split; reflexivity.
    + reflexivity.
    + reflexivity.
    + reflexivity.
    + reflexivity.
  - destruct (MenuItem_nested_lists domKeyCodes sub opened
                (keydown 37 (a 6 [])) H1 H2 H3 H4 H5) as [_ Hleft].
    destruct (Hleft eq_refl (a 3 []) eq_refl) as (Hrun & Hexp & _).
    fold back in Hrun. rewrite Hrun. cbn [fst snd world].
    split; [reflexivity|]. split; [reflexivity|]. split; [exact Hexp|].
    destruct (MenuItem_nested_lists domKeyCodes
                (MenuItem.instance LateNesting.lateMenu)
                LateNesting.lateWorld (keydown 39 (a 84 []))
                H1 H2 H3 H4 H5) as [Hright _].
    apply (Hright eq_refl (a 84 []) LateNesting.nested
             (setPreviousSibling (a 84 [])
                (MenuItem.instance LateNesting.nested))
             (a 87 [])).
    + left. split; reflexivity.
    + reflexivity.
    + reflexivity.
    + reflexivity.
    + reflexivity.
Defined.

(** C4 as stated fails on a nested list without a collected link: the
    next element sibling of the focused link is a [UL] on which a
    [MenuItem] instance is saved, and RIGHT throws a [TypeError]; the
    focus stays on the link and reaches no element of the nested list,
    which has no first item to focus. *)
Lemma MenuItem_nested_lists_counterexample :
  let this := MenuItem.instance hollowMenu in
  let handled :=
    MenuItem.handleListKeydown domKeyCodes (keydown 39 hollowLink)
      (mkCtx hollowWorld this) in
  MenuItemFocus.activeItem this hollowWorld hollowLink
  /\ nextElementSibling (document hollowWorld) hollowLink = Some hollow
  /\ nodeName hollow = "UL"%string
  /\ (exists sub,
        menuItemOf hollowWorld !! ident hollow = Some sub
        /\ menuItems sub = []
        /\ firstItem sub = None)
  /\ fst handled = Throw TypeError
  /\ activeElement (world (snd handled)) = Some hollowLink
  /\ contains hollow hollowLink = false.
Proof.
  intros this handled.
  split; [left; split; reflexivity|].
  split; [reflexivity|]. split; [reflexivity|].
  split; [eexists; repeat split; vm_compute; reflexivity|].
  split; [vm_compute; reflexivity|].
  split; [vm_compute; reflexivity|]. reflexivity.
Qed.

Lemma MenuBar_horizontal_keys_witness :
  let press c :=
    snd (MenuBar.handleMenuBarKeydown domKeyCodes helper startsWith
           (keydown 39 (a 22 [label])) c) in
  MenuBar.menubarItem (MenuBar.state (this barOpened))
  = Some (a 22 [label])
  /\ Popup.isExpanded (a 22 [label]) (world barOpened) = true
  /\ MenuBar.menubarItem (MenuBar.state (this (press barOpened)))
     = Some (a 29 [])
  /\ activeElement (world (press barOpened)) = Some (a 29 [])
  /\ Popup.isExpanded (a 22 [label]) (world (press barOpened)) = false
  /\ Popup.isExpanded (a 22 [label]) (world MenuBarLive.barShown) = true
  /\ Popup.isExpanded (a 22 [label]) (world (press MenuBarLive.barShown))
     = false.
Proof.
  intros press.
  assert (Hbar : MenuBarLive.live domKeyCodes
                   (NextPrevious.nextPreviousFromLeftRight domKeyCodes)
                   startsWith Menu.new menubar (page [menubar]) bar)
    by (apply MenuBarLive.live_init; vm_compute; reflexivity).
  assert (Hopened : MenuBarLive.live domKeyCodes
                      (NextPrevious.nextPreviousFromLeftRight domKeyCodes)
                      startsWith Menu.new menubar (page [menubar])
                      barOpened).
  { eapply MenuBarLive.live_step; [exact Hbar|].
    apply (MenuBarSpec.step_keydown domKeyCodes
             (NextPrevious.nextPreviousFromLeftRight domKeyCodes)
             startsWith false (keydown 40 (a 22 [label])) bar). }
  assert (Hshown : MenuBarLive.live domKeyCodes
                     (NextPrevious.nextPreviousFromLeftRight domKeyCodes)
                     startsWith Menu.new menubar (page [menubar])
                     MenuBarLive.barShown).
  { apply (MenuBarLive.live_popup domKeyCodes
             (NextPrevious.nextPreviousFromLeftRight domKeyCodes)
             startsWith Menu.new menubar (page [menubar]) bar
             (a 22 [label]) true Hbar). }
  destruct (MenuBar_horizontal_keys domKeyCodes startsWith Menu.new
              menubar (page [menubar]) barOpened
              (keydown 39 (a 22 [label])) 0 (a 22 [label])
              distinct_domKeyCodes wellFormed_menubar Hopened eq_refl
              eq_refl) as (Hmove & _).
  destruct (Hmove (a 29 []) (or_introl (conj eq_refl eq_refl)))
    as (_ & _ & Hsel & Hact & _ & Hexp).
  destruct (MenuBar_horizontal_keys domKeyCodes startsWith Menu.new
              menubar (page [menubar]) MenuBarLive.barShown
              (keydown 39 (a 22 [label])) 0 (a 22 [label])
              distinct_domKeyCodes wellFormed_menubar Hshown eq_refl
              eq_refl) as (Hmove' & _).
  destruct (Hmove' (a 29 []) (or_introl (conj eq_refl eq_refl)))
    as (_ & _ & _ & _ & _ & Hexp').
  split; [reflexivity|]. split; [reflexivity|].
  split; [exact Hsel|]. split; [exact Hact|]. split; [exact Hexp|].
  split; [reflexivity|exact Hexp'].
Defined.

End ArrowsAtSamples.
